(** * LiCSAlert: time-course tracking and change detection

    A shallow embedding of [lib/LiCSAlert_functions.py]: the decomposer
    [bss_components_inversion], the residual pipeline [residual_for_pixels],
    the trend tracker [tcs_baseline], the monitoring extender
    [tcs_monitoring] and the orchestrator [LiCSAlert]; then the functions
    around them that compute without files or figures:
    [calcualte_line_args], [daisy_chain_from_acquisitions],
    [detect_new_ifgs] (on a given folder listing),
    [shorten_LiCSAlert_data], [col_to_ma] and [rank3_ma_to_rank2].

    Conventions of the embedding.
    - A NumPy [float64] is an element of a carrier [F] with the operations
      of the class [Scalar]; the code is embedded once, generically, and is
      then read in two arithmetics: [xq] (rationals in lowest terms with
      the IEEE special values, executable) and [R] (the reals, where
      rounding is idealised away).
    - The two LAPACK-backed routines the code calls ([numpy.polyfit] of
      degree one and [numpy.linalg.inv]) are the operations of the classes
      [Polyfit] and [LinalgInv].
    - A rank-2 array is a record of its shape and its rows; a column vector
      of shape (n,1) and a rank-1 array are lists.
    - Python exceptions are the [Raise] results of [result]; arrays that the
      code updates in place and the dictionaries held in the lists of
      time-course states live in an explicit store. *)

From Stdlib Require Import QArith Qabs Reals Lra ZArith Lia.
From stdpp Require Import base numbers strings sorting gmap list.
Close Scope Q_scope.
Close Scope R_scope.
Close Scope Z_scope.

Set Default Proof Using "Type".

(** ** Exceptions *)

Inductive exn := IndexError | ValueError | TypeError | LinAlgError.

Inductive result (A : Type) : Type :=
| Ok (a : A)
| Raise (e : exn).
Arguments Ok {A} a.
Arguments Raise {A} e.

Global Instance result_ret : MRet result := λ A a, Ok a.
Global Instance result_bind : MBind result := λ A B k r,
  match r with Ok a => k a | Raise e => Raise e end.
Global Instance result_fmap : FMap result := λ A B f r,
  match r with Ok a => Ok (f a) | Raise e => Raise e end.

Definition guard (b : bool) (e : exn) : result unit :=
  if b then Ok () else Raise e.

Definition from_option {A} (e : exn) (o : option A) : result A :=
  match o with Some a => Ok a | None => Raise e end.

(** [for x in l: acc = body(acc, x)], stopping at the first exception. *)
Fixpoint rfold {A B} (body : A → B → result A) (acc : A) (l : list B) : result A :=
  match l with
  | [] => Ok acc
  | x :: l' => (acc' ← body acc x ; rfold body acc' l')
  end.

Fixpoint rmap {A B} (f : A → result B) (l : list A) : result (list B) :=
  match l with
  | [] => Ok []
  | x :: l' => (y ← f x ; ys ← rmap f l' ; Ok (y :: ys))
  end.

(** ** Python slices

    [a[start:stop]] on a sequence of length [len]: a negative bound counts
    from the end, and both bounds are clipped to [0, len]. *)

Definition slice_index (i : Z) (len : nat) : nat :=
  if (i <? 0)%Z then Z.to_nat (Z.max 0 (i + Z.of_nat len))
  else Nat.min (Z.to_nat i) len.

Definition py_slice {A} (start stop : Z) (l : list A) : list A :=
  let lo := slice_index start (length l) in
  let hi := slice_index stop (length l) in
  take (hi - lo) (drop lo l).

(** [a[-1]] *)
Definition item_last {A} (l : list A) : result A :=
  from_option IndexError (list.last l).

(** [a[i]] for a non-negative index *)
Definition item {A} (l : list A) (i : nat) : result A :=
  from_option IndexError (l !! i).

(** ** Scalars and the LAPACK routines *)

Class Scalar (F : Type) := {
  nan : F;
  f0 : F;
  fadd : F → F → F;
  fsub : F → F → F;
  fmul : F → F → F;
  fdiv : F → F → F;
  fabs : F → F;
  fsqrt : F → F;
  of_nat : nat → F;
  isnan : F → bool
}.

(** The least-squares line through the points (x_i, y_i), as
    [numpy.polyfit(x, y, 1)] solves it: (gradient, intercept). *)
Class Polyfit (F : Type) := lstsq_line : list F → list F → F * F.

(** [numpy.linalg.inv] on the rows of a square matrix; [None] when LAPACK
    reports a singular matrix. *)
Class LinalgInv (F : Type) := linalg_inv : list (list F) → option (list (list F)).

(** ** Rank-2 arrays *)

Record array2 (F : Type) := Array2 {
  shape0 : nat;
  shape1 : nat;
  rows : list (list F)
}.
Arguments Array2 {F} _ _ _.
Arguments shape0 {F} _.
Arguments shape1 {F} _.
Arguments rows {F} _.

(** NumPy keeps every array rectangular. *)
Definition wf_array2 {F} (a : array2 F) : Prop :=
  length (rows a) = shape0 a ∧ Forall (λ r, length r = shape1 a) (rows a).

Section numpy.
Context {F : Type} `{!Scalar F}.

(** [a[i, j]] *)
Definition cell (a : array2 F) (i j : nat) : option F :=
  rows a !! i ≫= (.!! j).

(** the values of [a[:, j]] *)
Definition column (j : nat) (a : array2 F) : list F :=
  omap (.!! j) (rows a).

(** [a[:, j]] with an integer index *)
Definition np_col (j : nat) (a : array2 F) : result (list F) :=
  (_ ← guard (j <? shape1 a) IndexError ; Ok (column j a)).

(** [a[:, j] += v] *)
Definition col_iadd (j : nat) (v : F) (a : array2 F) : array2 F :=
  Array2 (shape0 a) (shape1 a) (alter (λ x, fadd x v) j <$> rows a).

(** [a[start:stop, j] = vals], [vals] of rank 1: the values must have the
    length of the slice, or length one (broadcast). *)
Definition assign_col_slice (a : array2 F) (start stop : Z) (j : nat)
    (vals : list F) : result (array2 F) :=
  let lo := slice_index start (shape0 a) in
  let hi := slice_index stop (shape0 a) in
  (_ ← guard (j <? shape1 a) IndexError ;
   vals' ← (if decide (length vals = hi - lo) then Ok vals
            else match vals with
                 | [v] => Ok (replicate (hi - lo) v)
                 | _ => Raise ValueError
                 end) ;
   Ok (Array2 (shape0 a) (shape1 a)
         (imap (λ i r, match vals' !! (i - lo) with
                       | Some v => if decide (lo ≤ i) then <[j := v]> r else r
                       | None => r
                       end) (rows a)))).

(** [np.nan * np.ones((n, n))] *)
Definition nan_matrix (n : nat) : array2 F :=
  Array2 n n (replicate n (replicate n nan)).

(** [np.pad(a, [(0, m), (0, m)], "constant", constant_values = fill)] *)
Definition np_pad2 (m : Z) (fill : F) (a : array2 F) : result (array2 F) :=
  (_ ← guard (0 <=? m)%Z ValueError ;
   let k := Z.to_nat m in
   Ok (Array2 (shape0 a + k) (shape1 a + k)
         (((.++ replicate k fill) <$> rows a)
            ++ replicate k (replicate (shape1 a + k) fill)))).

(** [np.pad(v, [(0, m), (0, 0)], "constant", constant_values = fill)] on a
    column vector *)
Definition np_pad_col (m : Z) (fill : F) (v : list F) : result (list F) :=
  (_ ← guard (0 <=? m)%Z ValueError ;
   Ok (v ++ replicate (Z.to_nat m) fill)).

(** [np.sum], [np.mean], [np.std] over all the elements *)
Definition np_sum (l : list F) : F := foldl fadd f0 l.

Definition np_mean (l : list F) : F := fdiv (np_sum l) (of_nat (length l)).

Definition np_std (l : list F) : F :=
  let mu := np_mean l in
  fsqrt (np_mean ((λ x, fmul (fsub x mu) (fsub x mu)) <$> l)).

(** [np.polyval((g, c), x)] by Horner's rule, from a zero accumulator *)
Definition np_polyval2 (g c : F) (xs : list F) : list F :=
  (λ x, fadd (fmul (fadd (fmul f0 x) g) x) c) <$> xs.

(** The column of the [x] in the matrix [numpy.polyfit] hands to LAPACK:
    [lhs = vander(x, 2)], [scale = sqrt((lhs*lhs).sum(axis=0))],
    [lhs /= scale].  (The other column holds 1/sqrt(n) throughout.) *)
Definition vander_scaled (xs : list F) : list F :=
  let scale := fsqrt (np_sum ((λ x, fmul x x) <$> xs)) in
  (λ x, fdiv x scale) <$> xs.

(** [np.polyfit(x, y, 1)] with [y] a column vector: the shape checks of
    NumPy, then the least-squares solve.  The solve raises LinAlgError (the
    SVD does not converge) on a matrix that holds a NaN, which the scaled
    column of the [x] does when every [x] is zero (0/0) or one of them is
    not finite. *)
Definition np_polyfit1 `{!Polyfit F} (xs ys : list F) : result (F * F) :=
  (_ ← guard (negb (length xs =? 0)) TypeError ;
   _ ← guard (length xs =? length ys) TypeError ;
   _ ← guard (negb (existsb isnan (vander_scaled xs))) LinAlgError ;
   Ok (lstsq_line xs ys)).

End numpy.

(** ** Time-course states

    One dictionary per time course: the keys ["cumulative_tc"],
    ["gradient"], ["lines"], ["sigma"], ["distances"], ["t_recalculate"]. *)

Record tc_dict (F : Type) := TcDict {
  cumulative_tc : list F;
  gradient : F;
  lines : array2 F;
  sigma : F;
  distances : list F;
  t_recalculate : Z
}.
Arguments TcDict {F} _ _ _ _ _ _.
Arguments cumulative_tc {F} _.
Arguments gradient {F} _.
Arguments lines {F} _.
Arguments sigma {F} _.
Arguments distances {F} _.
Arguments t_recalculate {F} _.

(** ** The store

    A dictionary is an object: a list of time-course states is a list of
    references into a heap of dictionaries, and a new dictionary is
    allocated at the end of the heap.  The arrays a dictionary holds are
    kept by value: the code binds only fresh arrays ([np.vstack], [np.pad])
    or unchanging views to the keys of a dictionary, and writes in place
    only into those fresh arrays. *)

Abbreviation ref := nat (only parsing).
Abbreviation heap F := (list (tc_dict F)) (only parsing).

(** Computations that read and write a store [St] and may raise; the store
    reached when the exception escapes is kept. *)
Definition M (St A : Type) : Type := St → result A * St.

Global Instance M_ret {St} : MRet (M St) := λ A a s, (Ok a, s).
Global Instance M_bind {St} : MBind (M St) := λ A B k m s,
  match m s with
  | (Ok a, s') => k a s'
  | (Raise e, s') => (Raise e, s')
  end.

Definition lift {St A} (r : result A) : M St A := λ s, (r, s).

(** [for i, x in enumerate(l): body(i, x)], counting from [i] *)
Fixpoint for_enumerate {St A} (body : nat → A → M St ()) (i : nat) (l : list A)
    : M St () :=
  match l with
  | [] => mret ()
  | x :: l' => body i x ≫= λ _, for_enumerate body (S i) l'
  end.

(** ** Trend tracker: [tcs_baseline] *)

Section trend_tracker.
Context {F : Type} `{!Scalar F, !Polyfit F}.

(** The loop over [time_step] that copies the pieces of the line of best
    fit into the matrix of lines. *)
Definition baseline_lines_step (t_recalculate : Z) (line_yvals : list F)
    (lines_yvals : array2 F) (time_step : nat) : result (array2 F) :=
  let start_time := (Z.of_nat time_step - (t_recalculate - 1))%Z in
  let start_time := if (start_time <? 0)%Z then 0%Z else start_time in
  assign_col_slice lines_yvals start_time (Z.of_nat time_step + 1) time_step
    (py_slice start_time (Z.of_nat time_step + 1) line_yvals).

Definition baseline_lines (n_times : nat) (t_recalculate : Z)
    (line_yvals : list F) : result (array2 F) :=
  rfold (baseline_lines_step t_recalculate line_yvals) (nan_matrix n_times)
    (seq 0 n_times).

(** [line_point_distances]: the cumulative time course minus the line *)
Definition line_point_distances (cumulative line_yvals : list F) : list F :=
  zip_with fsub cumulative line_yvals.

(** The body of the loop over [n_tc]: the dictionary of one time course. *)
Definition baseline_dict (tcs_c : array2 F) (time_values : list F)
    (t_recalculate : Z) (n_tc : nat) : result (tc_dict F) :=
  let n_times := shape0 tcs_c in
  let cumulative := column n_tc tcs_c in
  '(gradient, y_intercept) ← np_polyfit1 time_values cumulative;
  let line_yvals := np_polyval2 gradient y_intercept time_values in
  lines_yvals ← baseline_lines n_times t_recalculate line_yvals;
  let lpd := line_point_distances cumulative line_yvals in
  let sigma := np_std lpd in
  Ok (TcDict cumulative gradient lines_yvals sigma
        ((λ d, fabs (fdiv d sigma)) <$> lpd) t_recalculate).

Definition baseline_dicts (tcs_c : array2 F) (time_values : list F)
    (t_recalculate : Z) : result (list (tc_dict F)) :=
  rmap (baseline_dict tcs_c time_values t_recalculate) (seq 0 (shape1 tcs_c)).

(** [tcs_baseline(tcs_c, time_values, t_recalculate)]: the new dictionaries
    are allocated in the heap and the list of their references returned. *)
Definition tcs_baseline (tcs_c : array2 F) (time_values : list F)
    (t_recalculate : Z) : M (heap F) (list ref) := λ h,
  match baseline_dicts tcs_c time_values t_recalculate with
  | Ok ds => (Ok (seq (length h) (length ds)), h ++ ds)
  | Raise e => (Raise e, h)
  end.

End trend_tracker.

(** ** Monitoring extender: [tcs_monitoring] *)

(** The store of [tcs_monitoring]: the caller's array [tcs_c], which the
    per-source mode updates in place, and the heap of dictionaries. *)
Record mem (F : Type) := Mem {
  mem_tcs_c : array2 F;
  mem_heap : list (tc_dict F)
}.
Arguments Mem {F} _ _.
Arguments mem_tcs_c {F} _.
Arguments mem_heap {F} _.

Section monitoring_extender.
Context {F : Type} `{!Scalar F}.

Definition read_dict (r : ref) : M (mem F) (tc_dict F) := λ s,
  (from_option IndexError (mem_heap s !! r), s).

Definition write_dict (r : ref) (d : tc_dict F) : M (mem F) () := λ s,
  (Ok (), Mem (mem_tcs_c s) (<[r := d]> (mem_heap s))).

Definition alloc_dict (d : tc_dict F) : M (mem F) ref := λ s,
  (Ok (length (mem_heap s)), Mem (mem_tcs_c s) (mem_heap s ++ [d])).

Definition read_tcs_c : M (mem F) (array2 F) := λ s, (Ok (mem_tcs_c s), s).

Definition write_tcs_c (a : array2 F) : M (mem F) () := λ s,
  (Ok (), Mem a (mem_heap s)).

(** [copy.deepcopy] of a list of dictionaries: every dictionary met for the
    first time is copied to a new object, and the memo sends a dictionary
    met again to the copy already made. *)
Fixpoint memo_lookup (memo : list (ref * ref)) (r : ref) : option ref :=
  match memo with
  | [] => None
  | (r1, r2) :: memo' => if decide (r1 = r) then Some r2 else memo_lookup memo' r
  end.

Fixpoint deepcopy_from (memo : list (ref * ref)) (refs : list ref)
    : M (mem F) (list ref) :=
  match refs with
  | [] => mret []
  | r :: refs' =>
      match memo_lookup memo r with
      | Some r' => rs ← deepcopy_from memo refs'; mret (r' :: rs)
      | None =>
          d ← read_dict r;
          r' ← alloc_dict d;
          rs ← deepcopy_from ((r, r') :: memo) refs';
          mret (r' :: rs)
      end
  end.

Definition deepcopy (refs : list ref) : M (mem F) (list ref) :=
  deepcopy_from [] refs.

(** [line_y_intercept]: the mean of the cumulative time course over
    [n_ifg - t_recalculate : n_ifg], minus the gradient times the mean of
    the time values over the same slice. *)
Definition line_y_intercept (t_recalc : Z) (time_values cumulative : list F)
    (gradient : F) (n_ifg : nat) : F :=
  let a := (Z.of_nat n_ifg - t_recalc)%Z in
  let b := Z.of_nat n_ifg in
  fsub (np_mean (py_slice a b cumulative))
       (fmul gradient (np_mean (py_slice a b time_values))).

(** The body of the loop over the monitoring interferograms [n_ifg]. *)
Definition monitoring_step (t_recalc : Z) (time_values : list F)
    (source_tc : tc_dict F) (n_ifg : nat) : result (tc_dict F) :=
  let a := (Z.of_nat n_ifg - t_recalc)%Z in
  let b := Z.of_nat n_ifg in
  let line_y_intercept :=
    line_y_intercept t_recalc time_values (cumulative_tc source_tc)
      (gradient source_tc) n_ifg in
  let line_yvals :=
    (λ t, fadd (fmul t (gradient source_tc)) line_y_intercept)
      <$> py_slice a (b + 1) time_values in
  lines' ← assign_col_slice (lines source_tc) a (b + 1) n_ifg line_yvals;
  c ← item (cumulative_tc source_tc) n_ifg;
  y ← item_last line_yvals;
  _ ← guard (n_ifg <? length (distances source_tc)) IndexError;
  Ok (TcDict (cumulative_tc source_tc) (gradient source_tc) lines'
        (sigma source_tc)
        (<[n_ifg := fdiv (fabs (fsub c y)) (sigma source_tc)]>
           (distances source_tc))
        (t_recalculate source_tc)).

(** Step 2 of the loop over the sources: the matrix of lines and the
    distances are padded, then filled for every monitoring interferogram. *)
Definition monitoring_lines (t_recalc : Z) (n_times_baseline : nat)
    (n_times_monitor : Z) (time_values : list F) (source_tc : tc_dict F)
    : result (tc_dict F) :=
  lines' ← np_pad2 n_times_monitor nan (lines source_tc);
  distances' ← np_pad_col n_times_monitor f0 (distances source_tc);
  rfold (monitoring_step t_recalc time_values)
    (TcDict (cumulative_tc source_tc) (gradient source_tc) lines'
       (sigma source_tc) distances' (t_recalculate source_tc))
    (seq n_times_baseline (Z.to_nat n_times_monitor)).

(** The body of the loop over the sources. *)
Definition monitoring_source (residual : bool) (t_recalc : Z)
    (n_times_baseline : nat) (n_times_monitor : Z) (time_values : list F)
    (source_n : nat) (source_tc : ref) : M (mem F) () :=
  d ← read_dict source_tc;
  new_tc ←
    (if residual then
       tcs_c ← read_tcs_c;
       col ← lift (np_col source_n tcs_c);
       mret col
     else
       tcs_c ← read_tcs_c;
       _ ← lift (guard (source_n <? shape1 tcs_c) IndexError);
       v ← lift (item_last (cumulative_tc d));
       _ ← write_tcs_c (col_iadd source_n v tcs_c);
       mret (cumulative_tc d ++ column source_n (col_iadd source_n v tcs_c)));
  d' ← lift (monitoring_lines t_recalc n_times_baseline n_times_monitor
               time_values
               (TcDict new_tc (gradient d) (lines d) (sigma d) (distances d)
                  (t_recalculate d)));
  write_dict source_tc d'.

Definition tcs_monitoring_body (sources_tcs : list ref) (time_values : list F)
    (residual : bool) : M (mem F) (list ref) :=
  sources_tcs_monitor ← deepcopy sources_tcs;
  r0 ← lift (item sources_tcs_monitor 0);
  d0 ← read_dict r0;
  let t_recalc := t_recalculate d0 in
  let n_times_baseline := length (cumulative_tc d0) in
  tcs_c ← read_tcs_c;
  let n_times_tc := shape0 tcs_c in
  let n_times_monitor :=
    if residual then (Z.of_nat n_times_tc - Z.of_nat n_times_baseline)%Z
    else Z.of_nat n_times_tc in
  _ ← for_enumerate
        (monitoring_source residual t_recalc n_times_baseline
           n_times_monitor time_values) 0 sources_tcs_monitor;
  mret sources_tcs_monitor.

(** [tcs_monitoring(tcs_c, sources_tcs, time_values, residual)], run from
    a heap [h]: the result, then the caller's [tcs_c] and the heap as the
    call leaves them. *)
Definition tcs_monitoring (tcs_c : array2 F) (sources_tcs : list ref)
    (time_values : list F) (residual : bool) (h : heap F)
    : result (list ref) * mem F :=
  tcs_monitoring_body sources_tcs time_values residual (Mem tcs_c h).

End monitoring_extender.

(** ** Two arithmetics *)

(** *** Rationals with the IEEE special values

    Finite values are rationals kept in lowest terms, so that equal values
    are equal terms; the operations are exact on finite values and follow
    IEEE 754 on infinities, NaN and division by zero (zero is unsigned).
    The square root is exact on the squares of rationals and rounds down
    to a multiple of the inverse of the denominator elsewhere. *)

Inductive xq := Fin (q : Q) | PInf | NInf | NaN.

Definition xq_sign (q : Q) : comparison := (Qnum q ?= 0)%Z.

Definition xq_inf (c : comparison) : xq :=
  match c with Gt => PInf | Lt => NInf | Eq => NaN end.

Definition xq_neg (a : xq) : xq :=
  match a with
  | Fin q => Fin (Qred (- q)%Q)
  | PInf => NInf
  | NInf => PInf
  | NaN => NaN
  end.

Definition xq_add (a b : xq) : xq :=
  match a, b with
  | Fin p, Fin q => Fin (Qred (p + q)%Q)
  | NaN, _ | _, NaN => NaN
  | PInf, NInf | NInf, PInf => NaN
  | PInf, _ | _, PInf => PInf
  | NInf, _ | _, NInf => NInf
  end.

Definition xq_sub (a b : xq) : xq := xq_add a (xq_neg b).

Definition xq_mul (a b : xq) : xq :=
  match a, b with
  | Fin p, Fin q => Fin (Qred (p * q)%Q)
  | NaN, _ | _, NaN => NaN
  | Fin p, PInf | PInf, Fin p => xq_inf (xq_sign p)
  | Fin p, NInf | NInf, Fin p => xq_inf (CompOpp (xq_sign p))
  | PInf, PInf | NInf, NInf => PInf
  | PInf, NInf | NInf, PInf => NInf
  end.

Definition xq_div (a b : xq) : xq :=
  match a, b with
  | NaN, _ | _, NaN => NaN
  | Fin p, Fin q =>
      match xq_sign q with
      | Eq => xq_inf (xq_sign p)
      | _ => Fin (Qred (p / q)%Q)
      end
  | Fin _, (PInf | NInf) => Fin 0%Q
  | PInf, Fin q => match xq_sign q with Lt => NInf | _ => PInf end
  | NInf, Fin q => match xq_sign q with Lt => PInf | _ => NInf end
  | (PInf | NInf), (PInf | NInf) => NaN
  end.

Definition xq_abs (a : xq) : xq :=
  match a with
  | Fin q => Fin (Qred (Qabs q))
  | PInf | NInf => PInf
  | NaN => NaN
  end.

Definition xq_sqrt (a : xq) : xq :=
  match a with
  | Fin q =>
      match xq_sign q with
      | Lt => NaN
      | _ => Fin (Qred (Qmake (Z.sqrt (Qnum q * Zpos (Qden q))) (Qden q)))
      end
  | PInf => PInf
  | NInf | NaN => NaN
  end.

Definition xq_isnan (a : xq) : bool :=
  match a with NaN => true | _ => false end.

Global Instance xq_scalar : Scalar xq := {|
  nan := NaN;
  f0 := Fin 0%Q;
  fadd := xq_add;
  fsub := xq_sub;
  fmul := xq_mul;
  fdiv := xq_div;
  fabs := xq_abs;
  fsqrt := xq_sqrt;
  of_nat n := Fin (inject_Z (Z.of_nat n));
  isnan := xq_isnan
|}.

(** The least-squares line in closed form (the solution of the normal
    equations), in the arithmetic at hand. *)
Definition ols_line {F} `{!Scalar F} (xs ys : list F) : F * F :=
  let n := of_nat (length xs) in
  let sx := np_sum xs in
  let sy := np_sum ys in
  let sxx := np_sum (zip_with fmul xs xs) in
  let sxy := np_sum (zip_with fmul xs ys) in
  let g := fdiv (fsub (fmul n sxy) (fmul sx sy))
                (fsub (fmul n sxx) (fmul sx sx)) in
  (g, fdiv (fsub sy (fmul g sx)) n).

Definition xq_polyfit : Polyfit xq := ols_line.

(** The inverse of a matrix of one or two rows, by the adjugate; larger
    matrices are not needed by the examples. *)
Definition xq_is_regular (a : xq) : bool :=
  match a with
  | Fin q => negb (Qnum q =? 0)%Z
  | _ => false
  end.

Definition xq_linalg_inv : LinalgInv xq := λ rs,
  match rs with
  | [[a]] =>
      if xq_is_regular a then Some [[xq_div (Fin 1) a]] else None
  | [[a; b]; [c; d]] =>
      let det := xq_sub (xq_mul a d) (xq_mul b c) in
      if xq_is_regular det then
        Some [[xq_div d det; xq_div (xq_neg b) det];
              [xq_div (xq_neg c) det; xq_div a det]]
      else None
  | _ => None
  end.

(** *** The reals: rounding idealised away

    There is no NaN among the reals: [nan] is an arbitrary real, and this
    arithmetic is used only where no special value can arise. *)

Global Instance R_scalar : Scalar R := {|
  nan := 0%R;
  f0 := 0%R;
  fadd := Rplus;
  fsub := Rminus;
  fmul := Rmult;
  fdiv := Rdiv;
  fabs := Rabs;
  fsqrt := sqrt;
  of_nat := INR;
  isnan _ := false
|}.

(** ** Matrices *)

Section matrices.
Context {F : Type} `{!Scalar F}.

(** The entry [a[i, j]] of an array, for indices within its shape. *)
Definition entry (a : array2 F) (i j : nat) : F := default nan (cell a i j).

(** The array of shape (n, p) whose entries are [f i j]. *)
Definition tabulate (n p : nat) (f : nat → nat → F) : array2 F :=
  Array2 n p ((λ i, (λ j, f i j) <$> seq 0 p) <$> seq 0 n).

(** [a.T] *)
Definition np_T (a : array2 F) : array2 F :=
  tabulate (shape1 a) (shape0 a) (λ i j, entry a j i).

(** [a @ b] *)
Definition matmul (a b : array2 F) : result (array2 F) :=
  _ ← guard (shape1 a =? shape0 b) ValueError;
  Ok (tabulate (shape0 a) (shape1 b)
        (λ i j, np_sum ((λ k, fmul (entry a i k) (entry b k j))
                          <$> seq 0 (shape1 a)))).

(** The length of one axis of [a - b], by the broadcasting rule. *)
Definition broadcast_dim (x y : nat) : result nat :=
  if x =? y then Ok x
  else if x =? 1 then Ok y
  else if y =? 1 then Ok x
  else Raise ValueError.

(** [a - b], with broadcasting *)
Definition np_sub2 (a b : array2 F) : result (array2 F) :=
  n ← broadcast_dim (shape0 a) (shape0 b);
  p ← broadcast_dim (shape1 a) (shape1 b);
  let pick (len i : nat) := if len =? 1 then 0 else i in
  Ok (tabulate n p
        (λ i j, fsub (entry a (pick (shape0 a) i) (pick (shape1 a) j))
                     (entry b (pick (shape0 b) i) (pick (shape1 b) j)))).

(** [np.vstack((a, b))] *)
Definition np_vstack (a b : array2 F) : result (array2 F) :=
  _ ← guard (shape1 a =? shape1 b) ValueError;
  Ok (Array2 (shape0 a + shape0 b) (shape1 a) (rows a ++ rows b)).

(** [np.mean(a)], over all the entries *)
Definition np_mean2 (a : array2 F) : F := np_mean (concat (rows a)).

(** [a -= v], in place *)
Definition isub_scalar (v : F) (a : array2 F) : array2 F :=
  Array2 (shape0 a) (shape1 a)
    ((λ r : list F, (λ x, fsub x v) <$> r) <$> rows a).

(** [np.cumsum(a, axis = 0)]: each row is the sum of the rows down to it. *)
Fixpoint cumsum_rows_from (acc : list F) (rs : list (list F)) : list (list F) :=
  match rs with
  | [] => []
  | r :: rs' =>
      let acc' := zip_with fadd acc r in acc' :: cumsum_rows_from acc' rs'
  end.

Definition np_cumsum0 (a : array2 F) : array2 F :=
  Array2 (shape0 a) (shape1 a)
    (match rows a with
     | [] => []
     | r :: rs => r :: cumsum_rows_from r rs
     end).

(** A column vector of shape (n, 1) from its values. *)
Definition column_vector (v : list F) : array2 F :=
  Array2 (length v) 1 ((λ x, [x]) <$> v).

End matrices.

(** ** Decomposer: [bss_components_inversion] *)

Section decomposer.
Context {F : Type} `{!Scalar F, !LinalgInv F}.

(** [np.linalg.inv(a)] *)
Definition np_linalg_inv (a : array2 F) : result (array2 F) :=
  _ ← guard (shape0 a =? shape1 a) LinAlgError;
  rs ← from_option LinAlgError (linalg_inv (rows a));
  Ok (Array2 (shape0 a) (shape1 a) rs).

(** The statements after the mean-centring, on the centred array. *)
Definition bss_inversion (sources interferograms : array2 F)
    (cumulative : bool) : result (array2 F * array2 F) :=
  let n_ifgs := shape0 interferograms in
  let n_pixels := shape1 interferograms in
  let d := np_T interferograms in
  let g := np_T sources in
  gtg ← matmul (np_T g) g;
  gtg_inv ← np_linalg_inv gtg;
  m1 ← matmul gtg_inv (np_T g);
  m ← matmul m1 d;
  d_hat ← matmul g m;
  d_resid ← np_sub2 d d_hat;
  let m := np_T m in
  let residual :=
    column_vector
      ((λ i, fdiv (fsqrt (np_sum ((λ x, fmul x x) <$> column i d_resid)))
                  (of_nat n_pixels)) <$> seq 0 n_ifgs) in
  if cumulative then Ok (np_cumsum0 m, np_cumsum0 residual)
  else Ok (m, residual).

(** [bss_components_inversion(sources, interferograms, cumulative)]: the
    result, then the caller's [interferograms] as the call leaves it: the
    mean is subtracted in place before anything else. *)
Definition bss_components_inversion (sources interferograms : array2 F)
    (cumulative : bool) : result (array2 F * array2 F) * array2 F :=
  let interferograms :=
    isub_scalar (np_mean2 interferograms) interferograms in
  (bss_inversion sources interferograms cumulative, interferograms).

End decomposer.

(** ** Residual pipeline: [residual_for_pixels] *)

Section residual_pipeline.
Context {F : Type} `{!Scalar F}.

(** [np.diff(np.vstack((np.array([0]), tc_c)), axis = 0)] *)
Fixpoint diff_from (prev : F) (l : list F) : list F :=
  match l with
  | [] => []
  | x :: l' => fsub x prev :: diff_from x l'
  end.

(** [list_dict_to_r2]: the incremental time courses as the columns of a
    rank-2 array; a time course of another length than the first one is
    refused by the assignment, unless it has one value (broadcast). *)
Definition list_dict_to_r2 (sources_tcs : list (tc_dict F))
    : result (array2 F) :=
  d0 ← item sources_tcs 0;
  let n_ifgs := length (cumulative_tc d0) in
  tcs ← rmap (λ source_tc,
           let tc := diff_from f0 (cumulative_tc source_tc) in
           if decide (length tc = n_ifgs) then Ok tc
           else match tc with
                | [x] => Ok (replicate n_ifgs x)
                | _ => Raise ValueError
                end) sources_tcs;
  Ok (tabulate n_ifgs (length sources_tcs)
        (λ i j, default f0 (tcs !! j ≫= (.!! i)))).

(** The root mean square of each row, as a column vector. *)
Definition rms_rows (n_pixs : nat) (a : array2 F) : array2 F :=
  column_vector
    ((λ r, fsqrt (fdiv (np_sum ((λ x, fmul x x) <$> r)) (of_nat n_pixs)))
       <$> rows a).

(** [residual_for_pixels(sources, sources_tcs, ifgs, n_skip)] on the
    dictionaries the references point to: (residual_ts, residual_cs). *)
Definition residual_for_pixels (sources : array2 F)
    (sources_tcs : list (tc_dict F)) (ifgs : array2 F) (n_skip : option nat)
    : result (array2 F * array2 F) :=
  let n_pixs := shape1 sources in
  tcs ← list_dict_to_r2 sources_tcs;
  let tcs :=
    match n_skip with
    | None => tcs
    | Some k => Array2 (shape0 tcs - k) (shape1 tcs) (drop k (rows tcs))
    end in
  model ← matmul tcs sources;
  data_model_residual ← np_sub2 ifgs model;
  let data_model_residual_cs := np_cumsum0 data_model_residual in
  Ok (rms_rows n_pixs data_model_residual,
      rms_rows n_pixs data_model_residual_cs).

End residual_pipeline.

(** ** Orchestrator: [LiCSAlert] *)

(** The store of [LiCSAlert]: the heap of dictionaries and the caller's
    two arrays of interferograms ([None] for [ifgs_monitoring = None]). *)
Record world (F : Type) := World {
  w_heap : list (tc_dict F);
  w_ifgs_baseline : array2 F;
  w_ifgs_monitoring : option (array2 F)
}.
Arguments World {F} _ _ _.
Arguments w_heap {F} _.
Arguments w_ifgs_baseline {F} _.
Arguments w_ifgs_monitoring {F} _.

Section orchestrator.
Context {F : Type} `{!Scalar F, !Polyfit F, !LinalgInv F}.

(** The dictionaries a list of references points to. *)
Definition read_dicts (refs : list ref) : M (world F) (list (tc_dict F)) :=
  λ w, (rmap (λ r, from_option IndexError (w_heap w !! r)) refs, w).

Definition bss_baseline (sources : array2 F) (cumulative : bool)
    : M (world F) (array2 F * array2 F) := λ w,
  let '(r, ifgs) :=
    bss_components_inversion sources (w_ifgs_baseline w) cumulative in
  (r, World (w_heap w) ifgs (w_ifgs_monitoring w)).

Definition bss_monitoring (sources ifgs_monitoring : array2 F)
    (cumulative : bool) : M (world F) (array2 F * array2 F) := λ w,
  let '(r, ifgs) :=
    bss_components_inversion sources ifgs_monitoring cumulative in
  (r, World (w_heap w) (w_ifgs_baseline w) (Some ifgs)).

Definition run_tcs_baseline (tcs_c : array2 F) (time_values : list F)
    (t_recalc : Z) : M (world F) (list ref) := λ w,
  let '(r, h) := tcs_baseline tcs_c time_values t_recalc (w_heap w) in
  (r, World h (w_ifgs_baseline w) (w_ifgs_monitoring w)).

(** The array passed as [tcs_c] is local to [LiCSAlert]: what the call
    leaves in it is dropped. *)
Definition run_tcs_monitoring (tcs_c : array2 F) (sources_tcs : list ref)
    (time_values : list F) (residual : bool) : M (world F) (list ref) := λ w,
  let '(r, s) :=
    tcs_monitoring tcs_c sources_tcs time_values residual (w_heap w) in
  (r, World (mem_heap s) (w_ifgs_baseline w) (w_ifgs_monitoring w)).

Definition run_residual_for_pixels (sources : array2 F)
    (sources_tcs : list ref) (ifgs : array2 F)
    : M (world F) (array2 F * array2 F) :=
  ds ← read_dicts sources_tcs;
  lift (residual_for_pixels sources ds ifgs None).

(** [LiCSAlert(sources, time_values, ifgs_baseline, ifgs_monitoring,
    t_recalculate)], the two arrays of interferograms being those of the
    store: (sources_tcs, residual_tcs), or their extensions when there are
    monitoring interferograms. *)
Definition LiCSAlert (sources : array2 F) (time_values : list F)
    (t_recalc : Z) : M (world F) (list ref * list ref) :=
  w ← (λ w, (Ok w, w));
  let ifgs_baseline := w_ifgs_baseline w in
  let n_times_baseline := shape0 ifgs_baseline in
  ifgs_all ← lift (match w_ifgs_monitoring w with
                   | None => Ok ifgs_baseline
                   | Some ifgs_monitoring =>
                       np_vstack ifgs_baseline ifgs_monitoring
                   end);
  '(tcs_c, _) ← bss_baseline sources true;
  sources_tcs ← run_tcs_baseline tcs_c (take n_times_baseline time_values)
                   t_recalc;
  w1 ← (λ w, (Ok w, w));
  '(_, residual_cb) ← run_residual_for_pixels sources sources_tcs
                         (w_ifgs_baseline w1);
  residual_tcs ← run_tcs_baseline residual_cb
                    (take n_times_baseline time_values) t_recalc;
  match w_ifgs_monitoring w with
  | None => mret (sources_tcs, residual_tcs)
  | Some ifgs_monitoring =>
      '(tcs_c, _) ← bss_monitoring sources ifgs_monitoring true;
      sources_tcs_monitor ← run_tcs_monitoring tcs_c sources_tcs time_values
                               false;
      '(_, residual_c_bm) ← run_residual_for_pixels sources
                               sources_tcs_monitor ifgs_all;
      residual_tcs_monitor ← run_tcs_monitoring residual_c_bm residual_tcs
                                time_values true;
      mret (sources_tcs_monitor, residual_tcs_monitor)
  end.

End orchestrator.

(** ** The extender, one source at a time

    What one pass of the loop over the sources computes, as a function of
    the array [tcs_c] the call was given and of the dictionary it copied:
    the view used to state what a completed call has built. *)

Section extender_view.
Context {F : Type} `{!Scalar F}.

(** The fields fixed by the baseline. *)
Definition frozen (d : tc_dict F) : F * F * Z :=
  (gradient d, sigma d, t_recalculate d).

(** The new cumulative time course of source [n]. *)
Definition source_new_tc (residual : bool) (tcs_c : array2 F) (n : nat)
    (d : tc_dict F) : result (list F) :=
  if residual then np_col n tcs_c
  else
    _ ← guard (n <? shape1 tcs_c) IndexError;
    v ← item_last (cumulative_tc d);
    Ok (cumulative_tc d ++ ((λ x, fadd x v) <$> column n tcs_c)).

(** The new dictionary of source [n]. *)
Definition source_result (residual : bool) (t_recalc : Z)
    (n_times_baseline : nat) (n_times_monitor : Z) (time_values : list F)
    (tcs_c : array2 F) (n : nat) (d : tc_dict F) : result (tc_dict F) :=
  new_tc ← source_new_tc residual tcs_c n d;
  monitoring_lines t_recalc n_times_baseline n_times_monitor time_values
    (TcDict new_tc (gradient d) (lines d) (sigma d) (distances d)
       (t_recalculate d)).

(** The array [tcs_c] after the in-place additions for the sources
    [i], [i+1], ... whose dictionaries are [ds]. *)
Fixpoint iadd_lasts (i : nat) (ds : list (tc_dict F)) (tcs_c : array2 F)
    : array2 F :=
  match ds with
  | [] => tcs_c
  | d :: ds' =>
      match list.last (cumulative_tc d) with
      | Some v => iadd_lasts (S i) ds' (col_iadd i v tcs_c)
      | None => tcs_c
      end
  end.

(** [n_times_monitor], as the call computes it. *)
Definition n_times_monitor_of (residual : bool) (tcs_c : array2 F)
    (n_times_baseline : nat) : Z :=
  if residual then (Z.of_nat (shape0 tcs_c) - Z.of_nat n_times_baseline)%Z
  else Z.of_nat (shape0 tcs_c).


(** The points that precede step [t] in a window of [t_recalc] steps:
    those at the indices [t - t_recalc], ..., [t - 1] that exist. *)
Definition preceding_window {A} (t_recalc : Z) (t : nat) (l : list A)
    : list A :=
  drop (t - Z.to_nat t_recalc) (take t l).

(** The intercept of a line fitted to those points: the mean of the
    cumulative values over the window, minus the gradient times the mean of
    the time values over it. *)
Definition intercept_of_preceding (t_recalc : Z) (time_values : list F)
    (d : tc_dict F) (t : nat) : F :=
  fsub (np_mean (preceding_window t_recalc t (cumulative_tc d)))
       (fmul (gradient d)
          (np_mean (preceding_window t_recalc t time_values))).

End extender_view.

(** ** Windows of the matrix of lines

    [lines[t', t]] is defined (is not NaN) only for [t'] from the start of
    the window of line [t] to [t]. *)

Section windows.
Context {F : Type} `{!Scalar F}.

Definition lines_defined_within (window_start : nat → Z) (d : tc_dict F)
    : Prop :=
  ∀ t' t v, cell (lines d) t' t = Some v → isnan v = false →
    (window_start t ≤ Z.of_nat t' ≤ Z.of_nat t)%Z.

(** The window of [t_recalc] steps that ends at [t], cut at index 0. *)
Definition baseline_window_start (t_recalc : Z) (t : nat) : Z :=
  Z.max 0 (Z.of_nat t - t_recalc + 1).

(** The windows after an extension: the baseline window for the lines of
    the baseline, and the t_recalc points the line is fitted to together
    with the point it predicts for the lines of the monitoring steps. *)
Definition extended_window_start (n_times_baseline : nat) (t_recalc : Z)
    (t : nat) : Z :=
  if t <? n_times_baseline then baseline_window_start t_recalc t
  else (Z.of_nat t - t_recalc)%Z.

End windows.

(** ** A worked example

    Two time courses over four baseline acquisitions at days 0, 1, 2, 3,
    then two monitoring acquisitions at days 4 and 5, with lines redrawn
    over two points.  The first time course is flat with deviations
    +1, -1, -1, +1 (sigma 1); the second rises by one a day with deviations
    +2, -2, -2, +2 (sigma 2). *)

Definition xq_of_Z (z : Z) : xq := Fin (inject_Z z).

Definition ex_time_values : list xq := map xq_of_Z [0; 1; 2; 3; 4; 5]%Z.

Definition ex_tcs_c_baseline : array2 xq :=
  Array2 4 2 (map (map xq_of_Z) [[1; 2]; [-1; -1]; [-1; 0]; [1; 5]]%Z).

Definition ex_tcs_c_monitoring : array2 xq :=
  Array2 2 2 (map (map xq_of_Z) [[1; 2]; [3; 1]]%Z).

(** The baseline states, in an empty heap. *)
Definition ex_baseline : result (list ref) * list (tc_dict xq) :=
  tcs_baseline (Polyfit0 := xq_polyfit) ex_tcs_c_baseline
    (take 4 ex_time_values) 2 [].

Definition ex_heap : list (tc_dict xq) := snd ex_baseline.

(** The extension of the baseline states by the monitoring time courses. *)
Definition ex_monitoring : result (list ref) * mem xq :=
  tcs_monitoring ex_tcs_c_monitoring [0; 1] ex_time_values false ex_heap.

(** A baseline of three acquisitions, shorter than the four points the
    lines are redrawn over, extended by one and by five acquisitions. *)
Definition ex_time_values_8 : list xq :=
  map xq_of_Z [0; 1; 2; 3; 4; 5; 6; 7]%Z.

Definition ex_short_heap : list (tc_dict xq) :=
  snd (tcs_baseline (Polyfit0 := xq_polyfit)
         (Array2 3 1 (map (map xq_of_Z) [[1]; [-2]; [1]]%Z))
         (take 3 ex_time_values_8) 4 []).

Definition ex_short_one : result (list ref) * mem xq :=
  tcs_monitoring (Array2 1 1 (map (map xq_of_Z) [[1]]%Z)) [0]
    (take 4 ex_time_values_8) false ex_short_heap.

Definition ex_short_five : result (list ref) * mem xq :=
  tcs_monitoring (Array2 5 1 (map (map xq_of_Z) [[1]; [1]; [1]; [1]; [1]]%Z))
    [0] ex_time_values_8 false ex_short_heap.




(** ** Least squares over the reals

    A line (g, c) is a least-squares line through the points (x_i, y_i)
    exactly when it solves the normal equations: the residuals
    y_i - (g x_i + c) sum to zero, and so do their products with the x_i.
    This is all that is required of [numpy.polyfit] over the reals. *)

Definition normal_equations (xs ys : list R) (gc : R * R) : Prop :=
  np_sum (zip_with (λ x y, (y - (gc.1 * x + gc.2))%R) xs ys) = 0%R
  ∧ np_sum (zip_with (λ x y, (x * (y - (gc.1 * x + gc.2)))%R) xs ys) = 0%R.

Definition R_polyfit : Polyfit R := ols_line.

(** The sum of [f 0], ..., [f (n - 1)]. *)
Definition Rsum (n : nat) (f : nat → R) : R := np_sum (f <$> seq 0 n).

Definition identity_matrix (k : nat) : array2 R :=
  tabulate k k (λ i j, if i =? j then 1%R else 0%R).

(** [numpy.linalg.inv] returns the inverse of the Gram matrix of the
    sources, [sources @ sources.T] (it has one when the sources are
    linearly independent, that is when [sources.T] has full column rank). *)
Definition inverts_gram (L : LinalgInv R) (sources : array2 R) : Prop :=
  ∀ gtg, matmul (np_T (np_T sources)) (np_T sources) = Ok gtg →
    ∃ gtg_inv,
      np_linalg_inv gtg = Ok gtg_inv
      ∧ wf_array2 gtg_inv
      ∧ matmul gtg_inv gtg = Ok (identity_matrix (shape0 sources)).

(** Every source has mean zero over the pixels. *)
Definition mean_centred (sources : array2 R) : Prop :=
  Forall (λ r, np_sum r = 0%R) (rows sources).

(** One source over two pixels and the strengths of two interferograms
    that are multiples of it, over the reals; the inverse of a matrix with
    one entry. *)
Definition R_inv_1x1 : LinalgInv R := λ rs,
  match rs with
  | [[a]] => Some [[(/ a)%R]]
  | _ => None
  end.

Definition ex_sources_R : array2 R := Array2 1 2 (map (map IZR) [[1; -1]]%Z).

Definition ex_strengths_R : array2 R := Array2 2 1 (map (map IZR) [[2]; [3]]%Z).

(** [ex_strengths_R @ ex_sources_R], that is [[2, -2], [3, -3]], each
    entry as the sum the product forms. *)
Definition ex_ifgs_R : array2 R :=
  Array2 2 2 [[0 + 2 * 1; 0 + 2 * -1]; [0 + 3 * 1; 0 + 3 * -1]]%R.

(** The first time course of the worked example, over the reals. *)
Definition ex_time_values_R : list R := map IZR [0; 1; 2; 3]%Z.

Definition ex_tcs_c_R : array2 R :=
  Array2 4 1 (map (map IZR) [[1]; [-1]; [-1]; [1]]%Z).

(** One source over two pixels, and interferograms that are multiples of
    it raised by one: four for the baseline (strengths 1, 2, 0, 1) and two
    for the monitoring (strengths 1, 3). *)
Definition ex_sources : array2 xq :=
  Array2 1 2 (map (map xq_of_Z) [[1; -1]]%Z).

Definition ex_ifgs_baseline : array2 xq :=
  Array2 4 2 (map (map xq_of_Z) [[2; 0]; [3; -1]; [1; 1]; [2; 0]]%Z).

Definition ex_ifgs_monitoring : array2 xq :=
  Array2 2 2 (map (map xq_of_Z) [[2; 0]; [4; -2]]%Z).

Definition ex_LiCSAlert : result (list ref * list ref) * world xq :=
  LiCSAlert (Polyfit0 := xq_polyfit) (LinalgInv0 := xq_linalg_inv)
    ex_sources ex_time_values 2
    (World [] ex_ifgs_baseline (Some ex_ifgs_monitoring)).

(** * The functions around the detector *)

(** ** The lines drawn by [LiCSAlert_figure]: [calcualte_line_args]

    Python integers are unbounded: [n_ifgs] and [t_recalculate] are
    integers of [Z], and [k % t_recalculate] is [Z.modulo], whose result
    has the sign of the divisor as Python's has.  The only exception the
    function can raise is ZeroDivisionError: [None]. *)

(** [k % t_recalculate] *)
Definition py_mod (k t : Z) : option Z :=
  if (t =? 0)%Z then None else Some (k mod t)%Z.

(** The body of the loop over [k]. *)
Definition line_args_step (n_ifgs t_recalculate : Z) (line_args : list Z)
    (k : Z) : option (list Z) :=
  r ← py_mod k t_recalculate;
  let line_args :=
    if (r =? 0)%Z && negb (k =? 0)%Z then line_args ++ [(k - 1)%Z]
    else line_args in
  let line_args :=
    if (k =? n_ifgs - 1)%Z && negb (bool_decide (k ∈ line_args))
    then line_args ++ [k]
    else line_args in
  Some line_args.

Fixpoint line_args_loop (n_ifgs t_recalculate : Z) (line_args : list Z)
    (ks : list Z) : option (list Z) :=
  match ks with
  | [] => Some line_args
  | k :: ks' =>
      line_args' ← line_args_step n_ifgs t_recalculate line_args k;
      line_args_loop n_ifgs t_recalculate line_args' ks'
  end.

(** [calcualte_line_args(n_ifgs, t_recalculate)] *)
Definition calcualte_line_args (n_ifgs t_recalculate : Z) : option (list Z) :=
  line_args_loop n_ifgs t_recalculate [] (seqZ 0 n_ifgs).

(** The multiples of [t] among 1, ..., [j - 1], each less one. *)
Definition line_ends (t j : Z) : list Z :=
  (λ i, ((i + 1) * t - 1)%Z) <$> seqZ 0 ((j - 1) / t).

(** ** Names of a daisy chain: [daisy_chain_from_acquisitions]

    The acquisitions are strings, and the f-string joins two of them with
    an underscore. *)
Definition daisy_chain_from_acquisitions (acquisitions : list string)
    : result (list string) :=
  let n_acqs := length acquisitions in
  rmap (λ i, a ← item acquisitions i;
             b ← item acquisitions (i + 1);
             Ok (a +:+ "_" +:+ b))
    (seq 0 (n_acqs - 1)).

(** ** New interferograms: [detect_new_ifgs]

    The listing that [os.scandir(path)] gives is an argument of the
    embedding: for each entry of the folder, its name and whether it is a
    directory.  Names are strings of bytes, ordered byte by byte as Python
    orders strings of ASCII characters, and [sorted] is a merge sort (a
    list of strings has one sorted arrangement).  [initiate] is [None] for
    a value that equals neither True nor False, and [ifgs_preexisting] is
    [None] for the default of that argument. *)

Record dir_entry := DirEntry {
  entry_name : string;
  entry_is_dir : bool
}.

(** [sorted(names)] *)
Definition sorted (names : list string) : list string :=
  merge_sort String.le names.

(** What a call gives: the pair of the initiate mode, the triple of the
    normal mode, the TypeError of [len(None)], or the exception raised for
    a bad [initiate]. *)
Inductive detect_outcome :=
| Initiated (ifgs_current : list string) (n_ifgs_current : nat)
| Detected (new_ifgs_flag : bool) (ifgs_current ifgs_new : list string)
| DetectTypeError
| DetectException.

Definition detect_new_ifgs (scandir : list dir_entry) (initiate : option bool)
    (ifgs_preexisting : option (list string)) : detect_outcome :=
  let ifgs_current :=
    sorted (entry_name <$> filter (λ f, entry_is_dir f = true) scandir) in
  let n_ifgs_current := length ifgs_current in
  match initiate with
  | Some true => Initiated ifgs_current n_ifgs_current
  | Some false =>
      match ifgs_preexisting with
      | None => DetectTypeError
      | Some ifgs_preexisting =>
          let n_ifgs_preexisting := length ifgs_preexisting in
          if n_ifgs_preexisting <? n_ifgs_current then
            Detected true ifgs_current
              (sorted (filter (λ ifg, ifg ∉ ifgs_preexisting) ifgs_current))
          else Detected false ifgs_current []
      end
  | None => DetectException
  end.

(** The names of the directories of a listing. *)
Definition dir_names (scandir : list dir_entry) : list string :=
  entry_name <$> filter (λ f, entry_is_dir f = true) scandir.

Definition ex_scandir : list dir_entry :=
  [DirEntry "20200113_20200125" true; DirEntry "20200101_20200113" true;
   DirEntry "log.txt" false; DirEntry "20200125_20200206" true].

(** ** Cropping in time: [shorten_LiCSAlert_data]

    The dictionary of interferograms is a finite map from its keys to
    rank-2 arrays.  [copy.deepcopy] gives the function a dictionary and
    arrays of its own, so that the embedding is a function from the
    dictionary it is given to the one it returns.  A key that is missing
    raises KeyError inside the [try], which the bare [except] swallows. *)

Section shorten.
Context {F : Type}.

(** [a[n_start:n_end,]] *)
Definition slice_rows (n_start n_end : Z) (a : array2 F) : array2 F :=
  let lo := slice_index n_start (shape0 a) in
  let hi := slice_index n_end (shape0 a) in
  Array2 (hi - lo) (shape1 a) (take (hi - lo) (drop lo (rows a))).

(** The body of the loop over [keys_to_shorten]. *)
Definition shorten_key (n_start n_end : Z) (d : gmap string (array2 F))
    (key_to_shorten : string) : gmap string (array2 F) :=
  match d !! key_to_shorten with
  | Some a => <[key_to_shorten := slice_rows n_start n_end a]> d
  | None => d
  end.

(** [shorten_LiCSAlert_data(displacement_r2, n_end, n_start)] *)
Definition shorten_LiCSAlert_data (displacement_r2 : gmap string (array2 F))
    (n_end n_start : Z) : gmap string (array2 F) :=
  foldl (shorten_key n_start n_end) displacement_r2
    ["incremental"; "incremental_downsampled"].

End shorten.

Definition ex_displacement_r2 : gmap string (array2 Z) :=
  <["incremental" := Array2 3 2 [[1; 2]; [3; 4]; [5; 6]]%Z]>
    (<["mask" := Array2 1 2 [[0; 0]]%Z]> ∅).

(** ** Masked arrays: [col_to_ma] and [rank3_ma_to_rank2]

    A masked array of rank 2 is an array of data and a boolean array of the
    same shape, true where the pixel is masked.  NumPy assigns through a
    boolean index, and compresses a masked array, in the order of the
    flattened array (row after row): [np_ravel] and [np_reshape2] pass
    between an array and its flattened values. *)

Record masked2 (F : Type) := Masked2 {
  ma_data : array2 F;
  ma_mask : array2 bool
}.
Arguments Masked2 {F} _ _.
Arguments ma_data {F} _.
Arguments ma_mask {F} _.

(** [a.ravel()] *)
Definition np_ravel {A} (a : array2 A) : list A := concat (rows a).

Fixpoint reshape_rows {A} (h w : nat) (l : list A) : list (list A) :=
  match h with
  | 0 => []
  | S h' => take w l :: reshape_rows h' w (drop w l)
  end.

(** [l.reshape((h, w))] *)
Definition np_reshape2 {A} (h w : nat) (l : list A) : array2 A :=
  Array2 h w (reshape_rows h w l).

(** The number of pixels that are not masked. *)
Definition count_unmasked (mask : list bool) : nat :=
  length (filter (λ b : bool, b = false) mask).

(** [ma.compressed]: the data that are not masked, in order. *)
Fixpoint compress_flat {A} (mask : list bool) (data : list A) : list A :=
  match mask, data with
  | m :: ms, x :: xs =>
      if m then compress_flat ms xs else x :: compress_flat ms xs
  | _, _ => []
  end.

Definition ma_compressed {F} (m : masked2 F) : list F :=
  compress_flat (np_ravel (ma_mask m)) (np_ravel (ma_data m)).

(** [np.sum(masks, axis = 0)] on boolean masks of [n] pixels: in how many
    masks each pixel is masked. *)
Definition mask_sum (n : nat) (masks : list (list bool)) : list nat :=
  foldl (zip_with Nat.add) (replicate n 0)
    ((λ mask : list bool, Nat.b2n <$> mask) <$> masks).

Section masked.
Context {F : Type} `{!Scalar F}.

(** [zeros[~mask] = vals] on the flattened arrays, [vals] having one value
    for each pixel that is not masked: the masked pixels keep the zero. *)
Fixpoint fill_unmasked (mask : list bool) (vals : list F) : list F :=
  match mask with
  | [] => []
  | true :: ms => f0 :: fill_unmasked ms vals
  | false :: ms =>
      match vals with
      | v :: vs => v :: fill_unmasked ms vs
      | [] => f0 :: fill_unmasked ms []
      end
  end.

(** [col_to_ma(col, pixel_mask)], [col] being given by its values
    [col.ravel()]: the assignment through the boolean index wants one
    value for each pixel that is not masked, or a single value. *)
Definition col_to_ma (col : list F) (pixel_mask : array2 bool)
    : result (masked2 F) :=
  let mask := np_ravel pixel_mask in
  let n := count_unmasked mask in
  vals ← (if decide (length col = n) then Ok col
          else match col with
               | [v] => Ok (replicate n v)
               | _ => Raise ValueError
               end);
  Ok (Masked2
        (np_reshape2 (shape0 pixel_mask) (shape1 pixel_mask)
           (fill_unmasked mask vals))
        pixel_mask).

(** [rank3_ma_to_rank2(ifgs_r3, consistent_mask)], the rank-3 masked array
    being the list of its images, all of one shape.  [ma.array] keeps the
    mask of the array it is given ([keep_mask] is set by default): the new
    mask of an image is the consistent mask or its own.  On an empty stack
    the first image that is indexed raises IndexError, in either mode. *)
Definition rank3_ma_to_rank2 (ifgs_r3 : list (masked2 F))
    (consistent_mask : bool) : result (array2 F * array2 bool) :=
  let n_ifgs := length ifgs_r3 in
  first ← item ifgs_r3 0;
  let h := shape0 (ma_mask first) in
  let w := shape1 (ma_mask first) in
  let mask_coh_water := (λ ifg, np_ravel (ma_mask ifg)) <$> ifgs_r3 in
  let mask_coh_water_consistent :=
    if consistent_mask then ma_mask first
    else
      let mask_coh_water_sum := mask_sum (h * w) mask_coh_water in
      np_reshape2 h w ((λ c, negb (c =? 0)) <$> mask_coh_water_sum) in
  let ifgs_r3_consistent :=
    (λ ifg, (zip_with orb (np_ravel mask_coh_water_consistent)
               (np_ravel (ma_mask ifg)),
             np_ravel (ma_data ifg))) <$> ifgs_r3 in
  first_consistent ← item ifgs_r3_consistent 0;
  let n_pixs :=
    length (compress_flat first_consistent.1 first_consistent.2) in
  ifgs_r2 ← rmap (λ ifg : list bool * list F,
                let v := compress_flat ifg.1 ifg.2 in
                if decide (length v = n_pixs) then Ok v
                else match v with
                     | [x] => Ok (replicate n_pixs x)
                     | _ => Raise ValueError
                     end) ifgs_r3_consistent;
  Ok (Array2 n_ifgs n_pixs ifgs_r2, mask_coh_water_consistent).

(** The images of a stack have the shape (h, w). *)
Definition stack_of_shape (h w : nat) (ifgs_r3 : list (masked2 F)) : Prop :=
  Forall (λ ifg, (wf_array2 (ma_data ifg) ∧ shape0 (ma_data ifg) = h
                  ∧ shape1 (ma_data ifg) = w)
                 ∧ wf_array2 (ma_mask ifg) ∧ shape0 (ma_mask ifg) = h
                   ∧ shape1 (ma_mask ifg) = w) ifgs_r3.

End masked.

(** Two images of two by two pixels: the first masks its second pixel,
    the second its last one. *)
Definition ex_pixel_mask : array2 bool :=
  Array2 2 2 [[false; true]; [false; false]].

Definition ex_stack : list (masked2 xq) :=
  [Masked2 (Array2 2 2 (map (map xq_of_Z) [[1; 2]; [3; 4]]%Z)) ex_pixel_mask;
   Masked2 (Array2 2 2 (map (map xq_of_Z) [[5; 6]; [7; 8]]%Z))
     (Array2 2 2 [[false; false]; [false; true]])].

(** Two interferograms over three pixels: not the two pixels of the sources
    and of the baseline interferograms of the worked example. *)
Definition ex_ifgs_three_pixels : array2 xq :=
  Array2 2 3 (map (map xq_of_Z) [[2; 0; 1]; [4; -2; 1]]%Z).

(** ** Increments over the reals

    The strengths of the example above as increments of a baseline of two
    acquisitions, one more increment for a monitoring acquisition, and the
    states built from their cumulative sums. *)

Definition ex_increments_R : array2 R := Array2 1 1 (map (map IZR) [[1]]%Z).

Definition ex_baseline_R : result (list ref) * list (tc_dict R) :=
  tcs_baseline (Polyfit0 := R_polyfit) (np_cumsum0 ex_strengths_R)
    (map IZR [0; 1]%Z) 2 [].

Definition ex_monitoring_R : result (list ref) * mem R :=
  tcs_monitoring (np_cumsum0 ex_increments_R) [0] (map IZR [0; 1; 2]%Z) false
    (snd ex_baseline_R).

Definition ex_states_R : list (tc_dict R) :=
  [TcDict (column 0 (np_cumsum0 ex_strengths_R)) 0%R (nan_matrix 0) 0%R [] 2].

(** * Reasoning about the embedding *)

(** ** Results and stores *)

Lemma rbind_Ok {A B} (r : result A) (k : A → result B) b :
  r ≫= k = Ok b → ∃ a, r = Ok a ∧ k a = Ok b.
Proof. destruct r as [a|e]; [eauto | discriminate]. Qed.

Lemma guard_Ok b e : guard b e = Ok () → b = true.
Proof. by destruct b. Qed.

Lemma from_option_Ok {A} e (o : option A) a : from_option e o = Ok a → o = Some a.
Proof. destruct o; simpl; congruence. Qed.

Lemma M_bind_Ok {St A B} (m : M St A) (k : A → M St B) s b s' :
  (m ≫= k) s = (Ok b, s') → ∃ a s1, m s = (Ok a, s1) ∧ k a s1 = (Ok b, s').
Proof.
  unfold mbind, M_bind. destruct (m s) as [[a|e] s1]; [eauto | discriminate].
Qed.

Lemma M_bind_run {St A B} (m : M St A) (k : A → M St B) s a s1 :
  m s = (Ok a, s1) → (m ≫= k) s = k a s1.
Proof. unfold mbind, M_bind. by intros ->. Qed.

Lemma lift_Ok {St A} (r : result A) (s s' : St) a :
  lift r s = (Ok a, s') → r = Ok a ∧ s' = s.
Proof. unfold lift. by intros [= -> ->]. Qed.

(** Inversion of a successful run, one statement at a time. *)
Ltac inv_run H :=
  repeat match type of H with
  | (_ ≫= _) _ = (Ok _, _) =>
      let a := fresh "a" in let s := fresh "s" in
      let H1 := fresh "Hrun" in
      apply M_bind_Ok in H as (a & s & H1 & H)
  | _ ≫= _ = Ok _ =>
      let a := fresh "a" in let H1 := fresh "Hres" in
      apply rbind_Ok in H as (a & H1 & H)
  | mret _ _ = (Ok _, _) => unfold mret, M_ret in H
  end.

Lemma rfold_app {A B} (body : A → B → result A) acc l1 l2 :
  rfold body acc (l1 ++ l2) = rfold body acc l1 ≫= λ acc', rfold body acc' l2.
Proof.
  revert acc. induction l1 as [|x l1 IH]; intros acc; simpl; [done|].
  destruct (body acc x) as [acc'|e]; simpl; [apply IH | done].
Qed.

(** An invariant of a loop that ran to its end. *)
Lemma rfold_invariant {A B} (P : nat → A → Prop) (body : A → B → result A)
    (l : list B) acc acc' :
  rfold body acc l = Ok acc' →
  P 0 acc →
  (∀ i x a a', l !! i = Some x → P i a → body a x = Ok a' → P (S i) a') →
  P (length l) acc'.
Proof.
  intros Hrun H0 Hstep.
  revert acc acc' P Hrun H0 Hstep.
  induction l as [|x l IH]; intros acc acc' P Hrun H0 Hstep; simpl in *.
  - by injection Hrun as <-.
  - apply rbind_Ok in Hrun as (a1 & Hb & Hrun).
    apply (IH a1 acc' (λ i, P (S i))); [done | |].
    + by apply (Hstep 0 x acc a1).
    + intros i y a a' Hy HP Hbody. by apply (Hstep (S i) y a a').
Qed.

Lemma rmap_Ok {A B} (f : A → result B) (l : list A) (ys : list B) :
  rmap f l = Ok ys → Forall2 (λ x y, f x = Ok y) l ys.
Proof.
  revert ys. induction l as [|x l IH]; intros ys H; simpl in *.
  - injection H as <-. constructor.
  - apply rbind_Ok in H as (y & Hy & H).
    apply rbind_Ok in H as (ys' & Hys & H). injection H as <-.
    constructor; auto.
Qed.

(** ** Slices and arrays *)

Lemma slice_index_nonneg (i : Z) len :
  (0 ≤ i)%Z → slice_index i len = Nat.min (Z.to_nat i) len.
Proof. unfold slice_index. intros. destruct (Z.ltb_spec i 0); [lia | done]. Qed.

Lemma slice_index_le i len : slice_index i len ≤ len.
Proof. unfold slice_index. destruct (Z.ltb_spec i 0); lia. Qed.


Lemma slice_index_succ (n len : nat) :
  slice_index (Z.of_nat n + 1) len = Nat.min (S n) len.
Proof. rewrite slice_index_nonneg by lia. f_equal. lia. Qed.

Section array_facts.
Context {F : Type} `{!Scalar F}.
Implicit Types a : array2 F.

Lemma column_col_iadd_eq j v a :
  column j (col_iadd j v a) = (λ x, fadd x v) <$> column j a.
Proof.
  unfold column, col_iadd; simpl.
  induction (rows a) as [|r rs IH]; [done|].
  csimpl. rewrite list_lookup_alter_eq, IH.
  by destruct (r !! j).
Qed.

Lemma column_col_iadd_ne j j' v a :
  j ≠ j' → column j' (col_iadd j v a) = column j' a.
Proof.
  intros Hne. unfold column, col_iadd; simpl.
  induction (rows a) as [|r rs IH]; [done|].
  csimpl. by rewrite list_lookup_alter_ne, IH.
Qed.

Lemma cell_col_iadd j v a i j' :
  cell (col_iadd j v a) i j'
  = if decide (j' = j) then (λ x, fadd x v) <$> cell a i j' else cell a i j'.
Proof.
  unfold cell, col_iadd; simpl. rewrite list_lookup_fmap.
  destruct (rows a !! i) as [r|]; simpl; [|by case_decide].
  case_decide as Hj.
  - subst. by rewrite list_lookup_alter_eq.
  - by rewrite list_lookup_alter_ne.
Qed.

Lemma cell_nan_matrix n i j :
  i < n → j < n → cell (nan_matrix n) i j = Some nan.
Proof.
  intros Hi Hj. unfold cell, nan_matrix; simpl.
  rewrite lookup_replicate_2 by done. simpl. by rewrite lookup_replicate_2.
Qed.

Lemma wf_nan_matrix n : wf_array2 (nan_matrix n).
Proof.
  split; simpl; [by rewrite length_replicate|].
  apply Forall_replicate. by rewrite length_replicate.
Qed.

(** What a slice assignment leaves alone, and what it writes. *)
Lemma assign_col_slice_shape a start stop j vals a' :
  assign_col_slice a start stop j vals = Ok a' →
  shape0 a' = shape0 a ∧ shape1 a' = shape1 a ∧ j < shape1 a.
Proof.
  unfold assign_col_slice. intros H.
  apply rbind_Ok in H as ([] & Hg & H). apply guard_Ok, Nat.ltb_lt in Hg.
  apply rbind_Ok in H as (vals' & _ & H). by injection H as <-.
Qed.

Lemma assign_col_slice_wf a start stop j vals a' :
  assign_col_slice a start stop j vals = Ok a' → wf_array2 a → wf_array2 a'.
Proof.
  unfold assign_col_slice. intros H [Hlen Hrows].
  apply rbind_Ok in H as ([] & _ & H).
  apply rbind_Ok in H as (vals' & _ & H). injection H as <-.
  split; simpl; [by rewrite length_imap|].
  apply Forall_lookup_2. intros i r Hr.
  rewrite list_lookup_imap in Hr.
  destruct (rows a !! i) as [r0|] eqn:Hr0; simpl in Hr; [|done].
  injection Hr as <-.
  pose proof (Forall_lookup_1 _ _ _ _ Hrows Hr0) as Hl. simpl in Hl.
  destruct (vals' !! _); [|done]. case_decide; [|done].
  by rewrite length_insert.
Qed.

Lemma assign_col_slice_other a start stop j vals a' i j' :
  assign_col_slice a start stop j vals = Ok a' →
  j' ≠ j ∨ i < slice_index start (shape0 a) ∨ slice_index stop (shape0 a) ≤ i →
  cell a' i j' = cell a i j'.
Proof.
  unfold assign_col_slice. intros H Hout.
  apply rbind_Ok in H as ([] & _ & H).
  apply rbind_Ok in H as (vals' & Hv & H). injection H as <-.
  set (lo := slice_index start (shape0 a)) in *.
  set (hi := slice_index stop (shape0 a)) in *.
  assert (length vals' = hi - lo) as Hlen.
  { case_decide; [by injection Hv as <-|].
    destruct vals as [|v [|??]]; try discriminate.
    injection Hv as <-. by rewrite length_replicate. }
  unfold cell; simpl. rewrite list_lookup_imap.
  destruct (rows a !! i) as [r|]; simpl; [|done].
  destruct (vals' !! (i - lo)) as [v|] eqn:Hvi; [|done].
  apply lookup_lt_Some in Hvi.
  destruct (decide (lo ≤ i)); [|done].
  destruct Hout as [Hj | [Hi | Hi]]; [|lia..].
  by rewrite list_lookup_insert_ne.
Qed.

Lemma assign_col_slice_inside a start stop j vals a' i :
  assign_col_slice a start stop j vals = Ok a' →
  wf_array2 a →
  length vals = slice_index stop (shape0 a) - slice_index start (shape0 a) →
  slice_index start (shape0 a) ≤ i < slice_index stop (shape0 a) →
  cell a' i j = vals !! (i - slice_index start (shape0 a)).
Proof.
  unfold assign_col_slice. intros H [Hwf0 Hwf1] Hlen Hin.
  apply rbind_Ok in H as ([] & Hg & H). apply guard_Ok, Nat.ltb_lt in Hg.
  apply rbind_Ok in H as (vals' & Hv & H). injection H as <-.
  set (lo := slice_index start (shape0 a)) in *.
  set (hi := slice_index stop (shape0 a)) in *.
  rewrite decide_True in Hv by done. injection Hv as <-.
  unfold cell; simpl. rewrite list_lookup_imap.
  pose proof (slice_index_le stop (shape0 a)) as Hhi. fold hi in Hhi.
  destruct (lookup_lt_is_Some_2 (rows a) i) as [r Hr]; [lia|].
  rewrite Hr; simpl.
  pose proof (Forall_lookup_1 _ _ _ _ Hwf1 Hr) as Hl. simpl in Hl.
  destruct (lookup_lt_is_Some_2 vals (i - lo)) as [v Hvi]; [lia|].
  rewrite Hvi. rewrite decide_True by lia.
  apply list_lookup_insert_eq. lia.
Qed.

Lemma np_pad2_Ok m fill a a' :
  np_pad2 m fill a = Ok a' →
  (0 ≤ m)%Z ∧
  a' = Array2 (shape0 a + Z.to_nat m) (shape1 a + Z.to_nat m)
         (((.++ replicate (Z.to_nat m) fill) <$> rows a)
            ++ replicate (Z.to_nat m) (replicate (shape1 a + Z.to_nat m) fill)).
Proof.
  unfold np_pad2. intros H. apply rbind_Ok in H as ([] & Hg & H).
  apply guard_Ok, Z.leb_le in Hg. by injection H as <-.
Qed.

Lemma np_pad2_wf m fill a a' :
  np_pad2 m fill a = Ok a' → wf_array2 a → wf_array2 a'.
Proof.
  intros (_ & ->)%np_pad2_Ok [H0 H1]. split; simpl.
  - rewrite length_app, length_fmap, length_replicate. lia.
  - apply Forall_app. split.
    + apply Forall_fmap. eapply Forall_impl; [exact H1|].
      intros r Hr; simpl in *. rewrite length_app, length_replicate. lia.
    + apply Forall_replicate. by rewrite length_replicate.
Qed.

(** A padded matrix keeps its old entries and is [fill] elsewhere. *)
Lemma np_pad2_cell m fill a a' i j :
  np_pad2 m fill a = Ok a' → wf_array2 a →
  i < shape0 a' → j < shape1 a' →
  cell a' i j = if decide (i < shape0 a ∧ j < shape1 a) then cell a i j
                else Some fill.
Proof.
  intros (_ & ->)%np_pad2_Ok [H0 H1]; simpl. intros Hi Hj.
  unfold cell; simpl.
  destruct (decide (i < shape0 a)) as [Hi'|Hi'].
  - rewrite lookup_app_l by (rewrite length_fmap; lia).
    rewrite list_lookup_fmap.
    destruct (lookup_lt_is_Some_2 (rows a) i) as [r Hr]; [lia|].
    rewrite Hr; simpl.
    pose proof (Forall_lookup_1 _ _ _ _ H1 Hr) as Hl. simpl in Hl.
    destruct (decide (j < shape1 a)) as [Hj'|Hj'].
    + rewrite decide_True by done. by rewrite lookup_app_l by lia.
    + rewrite decide_False by tauto.
      rewrite lookup_app_r by lia. apply lookup_replicate_2. lia.
  - rewrite decide_False by tauto.
    rewrite lookup_app_r by (rewrite length_fmap; lia).
    rewrite length_fmap, lookup_replicate_2 by lia. simpl.
    by apply lookup_replicate_2.
Qed.

Lemma np_pad2_zero fill a : np_pad2 0 fill a = Ok a.
Proof.
  unfold np_pad2; simpl. f_equal.
  destruct a as [n0 n1 rs]; simpl. rewrite !Nat.add_0_r, app_nil_r.
  f_equal. induction rs as [|r rs IH]; csimpl; [done|].
  by rewrite app_nil_r, IH.
Qed.

End array_facts.

(** ** The monitoring extender on the store *)

Section extender_facts.
Context {F : Type} `{!Scalar F}.
Implicit Types (d : tc_dict F) (s : mem F) (h : list (tc_dict F)).

Lemma monitoring_step_fields t_recalc time_values d n_ifg d' :
  monitoring_step t_recalc time_values d n_ifg = Ok d' →
  cumulative_tc d' = cumulative_tc d ∧ frozen d' = frozen d
  ∧ length (distances d') = length (distances d).
Proof.
  unfold monitoring_step. intros H. inv_run H. injection H as <-.
  simpl. by rewrite length_insert.
Qed.

Lemma monitoring_steps_fields t_recalc time_values l d d' :
  rfold (monitoring_step t_recalc time_values) d l = Ok d' →
  cumulative_tc d' = cumulative_tc d ∧ frozen d' = frozen d
  ∧ length (distances d') = length (distances d).
Proof.
  intros H.
  apply (rfold_invariant
           (λ _ x, cumulative_tc x = cumulative_tc d ∧ frozen x = frozen d
                   ∧ length (distances x) = length (distances d)) _ _ _ _ H);
    [done|].
  intros i n a a' _ (H1 & H2 & H3) Hs.
  apply monitoring_step_fields in Hs as (-> & -> & ->). done.
Qed.

Lemma monitoring_lines_fields t_recalc n_b n_m time_values d d' :
  monitoring_lines t_recalc n_b n_m time_values d = Ok d' →
  cumulative_tc d' = cumulative_tc d ∧ frozen d' = frozen d
  ∧ length (distances d') = length (distances d) + Z.to_nat n_m.
Proof.
  unfold monitoring_lines. intros H. inv_run H.
  apply monitoring_steps_fields in H as (-> & -> & ->); simpl.
  unfold np_pad_col in Hres0. inv_run Hres0. injection Hres0 as <-.
  by rewrite length_app, length_replicate.
Qed.

(** One pass of the loop over the sources writes at most the dictionary it
    was given, and keeps the fields fixed by the baseline. *)
Lemma monitoring_source_heap residual t_recalc n_b n_m time_values n r s o s' :
  monitoring_source residual t_recalc n_b n_m time_values n r s = (o, s') →
  mem_heap s' = mem_heap s
  ∨ ∃ d d', mem_heap s !! r = Some d ∧ mem_heap s' = <[r := d']> (mem_heap s)
            ∧ frozen d' = frozen d.
Proof.
  unfold monitoring_source, mbind, M_bind, read_dict, read_tcs_c, write_tcs_c,
    write_dict, lift, mret, M_ret.
  destruct (mem_heap s !! r) as [d|] eqn:Hd; simpl; [|intros [= <- <-]; by left].
  destruct residual; simpl.
  - destruct (np_col n (mem_tcs_c s)) as [col|e]; simpl;
      [|intros [= <- <-]; by left].
    destruct (monitoring_lines _ _ _ _ _) as [d'|e] eqn:Hl; simpl;
      intros [= <- <-]; simpl; [|by left].
    right. exists d, d'. split_and!; [done..|].
    by apply monitoring_lines_fields in Hl as (_ & ? & _).
  - destruct (guard _ _) as [[]|e]; simpl; [|intros [= <- <-]; by left].
    destruct (item_last _) as [v|e]; simpl; [|intros [= <- <-]; by left].
    destruct (monitoring_lines _ _ _ _ _) as [d'|e] eqn:Hl; simpl;
      intros [= <- <-]; simpl; [|by left].
    right. exists d, d'. split_and!; [done..|].
    by apply monitoring_lines_fields in Hl as (_ & ? & _).
Qed.

Lemma sources_loop_frame body_args base refs i s o s'
    (body := λ '(residual, t_recalc, n_b, n_m, time_values),
       monitoring_source (F := F) residual t_recalc n_b n_m time_values) :
  for_enumerate (body body_args) i refs s = (o, s') →
  Forall (λ r, base ≤ r) refs →
  length (mem_heap s') = length (mem_heap s)
  ∧ (∀ l, l < base → mem_heap s' !! l = mem_heap s !! l)
  ∧ (∀ l d, mem_heap s !! l = Some d →
       ∃ d', mem_heap s' !! l = Some d' ∧ frozen d' = frozen d).
Proof.
  destruct body_args as [[[[residual t_recalc] n_b] n_m] time_values].
  subst body; simpl.
  revert i s. induction refs as [|r refs IH]; intros i s Hrun Hfresh; simpl in *.
  - injection Hrun as <- <-. eauto.
  - apply Forall_cons in Hfresh as [Hr Hfresh].
    unfold mbind, M_bind in Hrun.
    destruct (monitoring_source _ _ _ _ _ _ _ s) as [[[]|e] s1] eqn:Hstep.
    + apply IH in Hrun as (Hlen & Hold & Hfrz); [|done].
      apply monitoring_source_heap in Hstep
        as [Heq | (d0 & d0' & Hd0 & Heq & Hf0)]; rewrite Heq in *.
      { done. }
      rewrite length_insert in Hlen. split_and!; [done| |].
      * intros l Hl. rewrite Hold by done.
        apply list_lookup_insert_ne. lia.
      * intros l d Hd. destruct (decide (l = r)) as [->|Hne].
        -- destruct (Hfrz r d0') as (d' & ? & ?).
           { apply list_lookup_insert_eq. by eapply lookup_lt_Some. }
           exists d'. split; [done|]. congruence.
        -- apply Hfrz. by rewrite list_lookup_insert_ne.
    + injection Hrun as <- <-.
      apply monitoring_source_heap in Hstep
        as [Heq | (d0 & d0' & Hd0 & Heq & Hf0)]; rewrite Heq.
      { eauto. }
      rewrite length_insert. split_and!; [done| |].
      * intros l Hl. apply list_lookup_insert_ne. lia.
      * intros l d Hd. destruct (decide (l = r)) as [->|Hne].
        -- exists d0'. split; [|congruence].
           apply list_lookup_insert_eq. by eapply lookup_lt_Some.
        -- exists d. by rewrite list_lookup_insert_ne.
Qed.

(** [deepcopy] only allocates: the heap grows at its end, the array is not
    touched, and each reference of the result is a new object holding what
    the reference it copies held. *)
Lemma memo_lookup_cons memo r1 r2 r :
  memo_lookup ((r1, r2) :: memo) r
  = if decide (r1 = r) then Some r2 else memo_lookup memo r.
Proof. done. Qed.

Lemma deepcopy_from_spec h memo refs s o s' :
  deepcopy_from memo refs s = (o, s') →
  h `prefix_of` mem_heap s →
  (∀ r r', memo_lookup memo r = Some r' →
     length h ≤ r' ∧ ∀ d, h !! r = Some d → mem_heap s !! r' = Some d) →
  mem_tcs_c s' = mem_tcs_c s
  ∧ mem_heap s `prefix_of` mem_heap s'
  ∧ ∀ refs', o = Ok refs' →
      Forall2 (λ r r', length h ≤ r'
                       ∧ ∀ d, h !! r = Some d → mem_heap s' !! r' = Some d)
        refs refs'.
Proof.
  revert memo s o s'.
  induction refs as [|r refs IH]; intros memo s o s' Hrun Hpre Hmemo; simpl in *.
  - injection Hrun as <- <-. split_and!; [done..|].
    intros ? [= <-]. constructor.
  - destruct (memo_lookup memo r) as [r'|] eqn:Hr.
    + unfold mbind, M_bind in Hrun.
      destruct (deepcopy_from memo refs s) as [[rs|e] s1] eqn:Hrec;
        injection Hrun as <- <-;
        destruct (IH _ _ _ _ Hrec Hpre Hmemo) as (Ht & Hp & Hall);
        (split_and!; [done..|]); [|done].
      intros ? [= <-]. constructor; [|by apply Hall].
      destruct (Hmemo _ _ Hr) as [Hge Hcopy]. split; [done|].
      intros d Hd. eapply prefix_lookup_Some; [by apply Hcopy | done].
    + unfold mbind, M_bind, read_dict, alloc_dict in Hrun.
      destruct (mem_heap s !! r) as [d|] eqn:Hd; simpl in Hrun;
        [|injection Hrun as <- <-; by split_and!].
      set (s1 := Mem (mem_tcs_c s) (mem_heap s ++ [d])) in *.
      assert (mem_heap s `prefix_of` mem_heap s1) as Hp1
        by apply prefix_app_r, reflexivity.
      destruct (deepcopy_from _ refs s1) as [[rs|e] s2] eqn:Hrec;
        injection Hrun as <- <-;
        edestruct (IH _ _ _ _ Hrec) as (Ht & Hp & Hall);
        try (split_and!; [done | by etrans | done]);
        try (by etrans).
      all: try (intros r1 r1' Hl; rewrite memo_lookup_cons in Hl;
        case_decide as Hc;
        [ injection Hl as <-; subst r1; split;
          [ etrans; [apply (prefix_length _ _ Hpre) | done]
          | intros d1 Hd1; simpl; rewrite lookup_app_r by done;
            rewrite Nat.sub_diag; simpl;
            pose proof (prefix_lookup_Some _ _ _ _ Hd1 Hpre); congruence ]
        | destruct (Hmemo _ _ Hl) as [? Hc1]; split; [done|];
          intros d1 Hd1; simpl; apply lookup_app_l_Some; by apply Hc1 ]).
      split_and!; [done | by etrans |].
      intros ? [= <-]. constructor; [|by apply Hall].
      split; [apply (prefix_length _ _ Hpre)|].
      intros d1 Hd1. eapply prefix_lookup_Some; [|exact Hp].
      simpl. rewrite lookup_app_r by done. rewrite Nat.sub_diag; simpl.
      pose proof (prefix_lookup_Some _ _ _ _ Hd1 Hpre); congruence.
Qed.

End extender_facts.

Section extender_frame.
Context {F : Type} `{!Scalar F}.

(** However the call ends, the dictionaries of the heap it started from
    are as they were; when it returns, each dictionary of the result is a
    new object with the gradient, sigma and t_recalculate of the dictionary
    at the same position of the input list. *)
Lemma tcs_monitoring_frame (tcs_c : array2 F) sources_tcs time_values residual
    (h : list (tc_dict F)) o s' :
  tcs_monitoring tcs_c sources_tcs time_values residual h = (o, s') →
  (∀ r d, h !! r = Some d → mem_heap s' !! r = Some d)
  ∧ (∀ sources_tcs_monitor, o = Ok sources_tcs_monitor →
       Forall2 (λ r r', length h ≤ r'
                  ∧ ∀ d, h !! r = Some d →
                      ∃ d', mem_heap s' !! r' = Some d' ∧ frozen d' = frozen d)
         sources_tcs sources_tcs_monitor).
Proof.
  unfold tcs_monitoring, tcs_monitoring_body, deepcopy. intros Hrun.
  unfold mbind at 1, M_bind at 1 in Hrun.
  destruct (deepcopy_from [] sources_tcs (Mem tcs_c h)) as [o1 s1] eqn:Hdc.
  destruct (deepcopy_from_spec h _ _ _ _ _ Hdc) as (Ht & Hp & Hall);
    [done | done |]. simpl in Hp.
  assert (∀ r d, h !! r = Some d → mem_heap s1 !! r = Some d) as Hold1.
  { intros r d Hd. by eapply prefix_lookup_Some. }
  destruct o1 as [refs1|e]; [|injection Hrun as <- <-; by split].
  specialize (Hall _ eq_refl).
  unfold mbind, M_bind, lift, read_dict, read_tcs_c, mret, M_ret in Hrun.
  destruct (item refs1 0) as [r0|e]; simpl in Hrun;
    [|injection Hrun as <- <-; by split].
  destruct (mem_heap s1 !! r0) as [d0|]; simpl in Hrun;
    [|injection Hrun as <- <-; by split].
  match type of Hrun with
  | context [for_enumerate (monitoring_source ?a ?b ?c ?d ?e) 0 refs1 s1] =>
      destruct (for_enumerate (monitoring_source a b c d e) 0 refs1 s1)
        as [o2 s2] eqn:Hloop;
      pose proof (sources_loop_frame (a, b, c, d, e) (length h) refs1 0 s1 o2 s2
                    Hloop) as Hframe
  end.
  destruct Hframe as (Hlen & Hold & Hfrz).
  { eapply Forall2_Forall_r; [exact Hall|].
    apply Forall_true. by intros r' r [? _]. }
  assert (s' = s2) as -> by (destruct o2 as [[]|]; by injection Hrun).
  split.
  - intros r d Hd. rewrite Hold; [by apply Hold1|].
    by eapply lookup_lt_Some.
  - intros refs' ->. destruct o2 as [[]|]; [|done]. injection Hrun as <-.
    eapply Forall2_impl; [exact Hall|]. simpl.
    intros r r' [Hge Hcopy]. split; [done|].
    intros d Hd. by apply Hfrz, Hcopy.
Qed.

End extender_frame.

(** ** The extender on a list of distinct dictionaries *)

Section extender_run.
Context {F : Type} `{!Scalar F}.
Implicit Types (d : tc_dict F) (s : mem F) (h : list (tc_dict F)).

Lemma source_result_ext residual t_recalc n_b n_m time_values
    (tcs1 tcs2 : array2 F) n d :
  column n tcs1 = column n tcs2 → shape1 tcs1 = shape1 tcs2 →
  source_result residual t_recalc n_b n_m time_values tcs1 n d
  = source_result residual t_recalc n_b n_m time_values tcs2 n d.
Proof.
  intros Hc Hs. unfold source_result, source_new_tc, np_col.
  by rewrite Hc, Hs.
Qed.

(** One completed pass of the loop over the sources. *)
Lemma monitoring_source_Ok residual t_recalc n_b n_m time_values n r s s' d :
  monitoring_source residual t_recalc n_b n_m time_values n r s = (Ok (), s') →
  mem_heap s !! r = Some d →
  ∃ d', source_result residual t_recalc n_b n_m time_values (mem_tcs_c s) n d
        = Ok d'
        ∧ mem_heap s' = <[r := d']> (mem_heap s)
        ∧ mem_tcs_c s' = iadd_lasts n (if residual then [] else [d]) (mem_tcs_c s).
Proof.
  intros Hrun Hd. unfold monitoring_source, read_dict in Hrun.
  apply M_bind_Ok in Hrun as (d1 & s1 & H1 & Hrun).
  rewrite Hd in H1. injection H1 as <- <-.
  apply M_bind_Ok in Hrun as (new_tc & s1 & Hnew & Hrun).
  apply M_bind_Ok in Hrun as (d' & s2 & Hl & Hrun).
  apply lift_Ok in Hl as [Hl ->].
  unfold write_dict in Hrun. injection Hrun as <-. simpl.
  exists d'. unfold source_result, source_new_tc.
  destruct residual.
  - unfold read_tcs_c in Hnew.
    apply M_bind_Ok in Hnew as (a & s3 & [= <- <-] & Hnew).
    apply M_bind_Ok in Hnew as (col & s3 & [Hcol ->]%lift_Ok & Hnew).
    injection Hnew as <- <-. rewrite Hcol. simpl. by rewrite Hl.
  - unfold read_tcs_c, write_tcs_c in Hnew.
    apply M_bind_Ok in Hnew as (a & s3 & [= <- <-] & Hnew).
    apply M_bind_Ok in Hnew as ([] & s3 & [Hg ->]%lift_Ok & Hnew).
    apply M_bind_Ok in Hnew as (v & s3 & [Hv ->]%lift_Ok & Hnew).
    apply M_bind_Ok in Hnew as ([] & s3 & [= <-] & Hnew).
    injection Hnew as <- <-. rewrite Hg, Hv; simpl.
    rewrite column_col_iadd_eq in Hl. rewrite Hl.
    apply from_option_Ok in Hv. rewrite Hv. done.
Qed.

(** Distinct references are copied to consecutive new objects. *)
Lemma deepcopy_from_fresh h ds memo refs s :
  NoDup refs →
  Forall2 (λ r d, h !! r = Some d) refs ds →
  h `prefix_of` mem_heap s →
  (∀ r, r ∈ refs → memo_lookup memo r = None) →
  deepcopy_from memo refs s
  = (Ok (seq (length (mem_heap s)) (length refs)),
     Mem (mem_tcs_c s) (mem_heap s ++ ds)).
Proof.
  intros Hnd Hds. revert memo s Hnd.
  induction Hds as [|r d refs ds Hd _ IH]; intros memo s Hnd Hpre Hmemo; simpl.
  - rewrite app_nil_r. by destruct s.
  - apply NoDup_cons in Hnd as [Hr Hnd].
    rewrite Hmemo by constructor.
    unfold read_dict, alloc_dict.
    pose proof (prefix_lookup_Some _ _ _ _ Hd Hpre) as Hd'.
    erewrite M_bind_run; [|by rewrite Hd'].
    erewrite M_bind_run; [|done].
    erewrite M_bind_run.
    2:{ apply IH; [done| |].
        - simpl. by apply prefix_app_r.
        - intros r1 Hr1. rewrite memo_lookup_cons.
          rewrite decide_False by (by intros ->). apply Hmemo.
          by constructor. }
    simpl. unfold mret, M_ret. rewrite length_app. simpl.
    by rewrite Nat.add_1_r, <- app_assoc.
Qed.

(** The loop over the sources, over consecutive objects at the end of the
    heap. *)
Lemma sources_loop_Ok residual t_recalc n_b n_m time_values (tcs0 : array2 F) h :
  ∀ rest done s s',
    for_enumerate (monitoring_source residual t_recalc n_b n_m time_values)
      (length done) (seq (length h + length done) (length rest)) s
    = (Ok (), s') →
    mem_heap s = h ++ done ++ rest →
    shape1 (mem_tcs_c s) = shape1 tcs0 →
    (∀ j, length done ≤ j → column j (mem_tcs_c s) = column j tcs0) →
    ∃ rest',
      mem_heap s' = h ++ done ++ rest'
      ∧ Forall2 (λ '(n, d) d',
           source_result residual t_recalc n_b n_m time_values tcs0 n d = Ok d')
          (zip (seq (length done) (length rest)) rest) rest'
      ∧ mem_tcs_c s'
        = iadd_lasts (length done) (if residual then [] else rest) (mem_tcs_c s).
Proof.
  induction rest as [|d rest IH]; intros done s s' Hrun Hheap Hsh Hcols;
    simpl in *.
  - injection Hrun as <-. exists []. split_and!; [done | constructor |].
    by destruct residual.
  - apply M_bind_Ok in Hrun as ([] & s1 & Hstep & Hrun).
    assert (mem_heap s !! (length h + length done) = Some d) as Hd.
    { rewrite Hheap, lookup_app_r by lia.
      replace (length h + length done - length h) with (length done) by lia.
      by rewrite list_lookup_middle. }
    eapply monitoring_source_Ok in Hstep as (d' & Hres & Hh1 & Ht1); [|done].
    assert (shape1 (mem_tcs_c s1) = shape1 tcs0
            ∧ ∀ j, length done < j → column j (mem_tcs_c s1) = column j tcs0)
      as [Hsh1 Hcols1].
    { rewrite Ht1. destruct residual; simpl.
      - split; [done|]. intros j Hj. apply Hcols. lia.
      - destruct (list.last _); simpl.
        + split; [done|]. intros j Hj.
          rewrite column_col_iadd_ne by lia. apply Hcols. lia.
        + split; [done|]. intros j Hj. apply Hcols. lia. }
    specialize (IH (done ++ [d']) s1 s').
    rewrite length_app in IH; simpl in IH.
    rewrite !Nat.add_1_r, Nat.add_succ_r in IH.
    destruct IH as (rest' & Hh' & Hall & Ht'); [done | | done | | ].
    { rewrite Hh1, Hheap.
      rewrite insert_app_r_alt by lia.
      replace (length h + length done - length h) with (length done) by lia.
      rewrite insert_app_r_alt by lia. rewrite Nat.sub_diag. simpl.
      by rewrite <- app_assoc. }
    { intros j Hj. apply Hcols1. lia. }
    exists (d' :: rest'). split_and!.
    + rewrite Hh'. by rewrite <- app_assoc.
    + constructor; [|done].
      rewrite <- Hres. symmetry. apply source_result_ext; [|done].
      by apply Hcols.
    + rewrite Ht', Ht1. destruct residual; [done|]. simpl.
      destruct (list.last (cumulative_tc d)) as [v|] eqn:Hv; [done|].
      exfalso. unfold source_result, source_new_tc, item_last in Hres.
      rewrite Hv in Hres. simpl in Hres.
      by destruct (guard _ _) as [[]|].
Qed.

(** A completed call on distinct dictionaries [ds]: the result lists new
    objects, one per source, each built by [source_result] from the array
    the call was given. *)
Lemma tcs_monitoring_Ok (tcs_c : array2 F) sources_tcs time_values residual h
    ds refs' s' :
  tcs_monitoring tcs_c sources_tcs time_values residual h = (Ok refs', s') →
  NoDup sources_tcs →
  Forall2 (λ r d, h !! r = Some d) sources_tcs ds →
  ∃ d0 ds',
    ds !! 0 = Some d0
    ∧ refs' = seq (length h) (length ds)
    ∧ mem_heap s' = h ++ ds'
    ∧ mem_tcs_c s' = iadd_lasts 0 (if residual then [] else ds) tcs_c
    ∧ Forall2 (λ '(n, d) d',
         source_result residual (t_recalculate d0) (length (cumulative_tc d0))
           (n_times_monitor_of residual tcs_c (length (cumulative_tc d0)))
           time_values tcs_c n d = Ok d')
        (zip (seq 0 (length ds)) ds) ds'.
Proof.
  intros Hrun Hnd Hds.
  unfold tcs_monitoring, tcs_monitoring_body, deepcopy in Hrun.
  pose proof (Forall2_length _ _ _ Hds) as Hlen.
  unfold mbind at 1, M_bind at 1 in Hrun.
  rewrite (deepcopy_from_fresh h ds) in Hrun; [|done..].
  cbn [mem_heap mem_tcs_c] in Hrun.
  apply M_bind_Ok in Hrun as (r0 & s1 & [Hr0 ->]%lift_Ok & Hrun).
  apply M_bind_Ok in Hrun as (d0 & s1 & Hd0 & Hrun).
  unfold read_dict in Hd0. cbn [mem_heap] in Hd0.
  injection Hd0 as Hd0 <-. apply from_option_Ok in Hd0.
  apply M_bind_Ok in Hrun as (a & s1 & [= <- <-] & Hrun).
  apply M_bind_Ok in Hrun as ([] & s1 & Hloop & Hrun).
  injection Hrun as <- <-. cbn [mem_tcs_c] in Hloop.
  apply from_option_Ok in Hr0.
  assert (ds !! 0 = Some d0) as Hds0.
  { destruct ds as [|d ds]; [by destruct sources_tcs|].
    destruct sources_tcs as [|r rs]; [done|]. simpl in Hr0.
    injection Hr0 as <-. rewrite lookup_app_r in Hd0 by done.
    by rewrite Nat.sub_diag in Hd0. }
  pose proof (sources_loop_Ok residual (t_recalculate d0)
                (length (cumulative_tc d0))
                (n_times_monitor_of residual tcs_c (length (cumulative_tc d0)))
                time_values tcs_c h ds [] (Mem tcs_c (h ++ ds)) s1) as Hspec.
  simpl in Hspec. rewrite Nat.add_0_r, <- Hlen in Hspec.
  destruct Hspec as (ds' & Hh' & Hall & Ht'); [exact Hloop | done..|].
  exists d0, ds'. rewrite <- Hlen. by split_and!.
Qed.

End extender_run.

Section extender_sources.
Context {F : Type} `{!Scalar F}.
Implicit Types (d : tc_dict F) (s : mem F) (h : list (tc_dict F)).

Lemma refs_dicts h (refs : list nat) :
  Forall (λ r, r < length h) refs →
  ∃ ds, Forall2 (λ r d, h !! r = Some d) refs ds.
Proof.
  induction 1 as [|r refs Hr _ [ds IH]]; [by exists []|].
  destruct (lookup_lt_is_Some_2 h r Hr) as [d Hd].
  exists (d :: ds). by constructor.
Qed.

Lemma Forall2_enumerate_lookup {A B} (P : nat * A → B → Prop) i
    (l : list A) (l' : list B) n x :
  Forall2 P (zip (seq i (length l)) l) l' →
  l !! n = Some x →
  ∃ y, l' !! n = Some y ∧ P (i + n, x) y.
Proof.
  intros Hall Hx.
  assert (zip (seq i (length l)) l !! n = Some (i + n, x)) as Hz.
  { apply lookup_zip_with_Some. exists (i + n), x. split_and!; [done| |done].
    apply lookup_seq. split; [done|]. by eapply lookup_lt_Some. }
  destruct (Forall2_lookup_l _ _ _ _ _ Hall Hz) as (y & ? & ?). eauto.
Qed.

(** A completed call, source by source. *)
Lemma tcs_monitoring_source (tcs_c : array2 F) sources_tcs time_values
    residual h refs' s' :
  tcs_monitoring tcs_c sources_tcs time_values residual h = (Ok refs', s') →
  NoDup sources_tcs →
  Forall (λ r, r < length h) sources_tcs →
  ∃ r0 d0,
    sources_tcs !! 0 = Some r0 ∧ h !! r0 = Some d0
    ∧ length refs' = length sources_tcs
    ∧ ∀ n r d, sources_tcs !! n = Some r → h !! r = Some d →
        ∃ d', refs' !! n = Some (length h + n)
              ∧ mem_heap s' !! (length h + n) = Some d'
              ∧ source_result residual (t_recalculate d0)
                  (length (cumulative_tc d0))
                  (n_times_monitor_of residual tcs_c
                     (length (cumulative_tc d0)))
                  time_values tcs_c n d = Ok d'.
Proof.
  intros Hrun Hnd Hvalid.
  destruct (refs_dicts _ _ Hvalid) as [ds Hds].
  destruct (tcs_monitoring_Ok _ _ _ _ _ _ _ _ Hrun Hnd Hds)
    as (d0 & ds' & Hd0 & -> & Hh' & _ & Hall).
  pose proof (Forall2_length _ _ _ Hds) as Hlen.
  destruct (Forall2_lookup_r _ _ _ _ _ Hds Hd0) as (r0 & Hr0 & Hhr0).
  exists r0, d0. split_and!; [done.. | by rewrite length_seq |].
  intros n r d Hr Hd.
  destruct (Forall2_lookup_l _ _ _ _ _ Hds Hr) as (d1 & Hd1 & Hhd1).
  assert (d1 = d) as -> by congruence.
  destruct (Forall2_enumerate_lookup _ _ _ _ _ _ Hall Hd1) as (d' & Hd' & Hres).
  exists d'. split_and!; [| |done].
  - apply lookup_seq. split; [done|]. apply lookup_lt_Some in Hd1. lia.
  - rewrite Hh', lookup_app_r by lia.
    by replace (length h + n - length h) with n by lia.
Qed.

Lemma source_result_cumulative residual t_recalc n_b n_m time_values
    (tcs_c : array2 F) n d d' :
  source_result residual t_recalc n_b n_m time_values tcs_c n d = Ok d' →
  source_new_tc residual tcs_c n d = Ok (cumulative_tc d')
  ∧ frozen d' = frozen d.
Proof.
  unfold source_result. intros H.
  apply rbind_Ok in H as (new_tc & Hnew & H).
  by apply monitoring_lines_fields in H as (-> & -> & _).
Qed.

Lemma column_iadd_lasts (ds : list (tc_dict F)) i (tcs_c : array2 F) j :
  Forall (λ d, is_Some (list.last (cumulative_tc d))) ds →
  shape1 (iadd_lasts i ds tcs_c) = shape1 tcs_c
  ∧ shape0 (iadd_lasts i ds tcs_c) = shape0 tcs_c
  ∧ column j (iadd_lasts i ds tcs_c)
    = match (if decide (i ≤ j) then ds !! (j - i) else None) with
      | Some d => (λ x, fadd x (default nan (list.last (cumulative_tc d))))
                    <$> column j tcs_c
      | None => column j tcs_c
      end.
Proof.
  intros Hall. revert i tcs_c.
  induction Hall as [|d ds [v Hv] _ IH]; intros i tcs_c; simpl.
  - split_and!; [done..|]. case_decide; by rewrite ?lookup_nil.
  - rewrite Hv. destruct (IH (S i) (col_iadd i v tcs_c)) as (-> & -> & ->).
    split_and!; [done..|].
    destruct (decide (i = j)) as [->|Hne].
    + rewrite decide_False by lia. rewrite decide_True by lia.
      rewrite Nat.sub_diag; simpl. by rewrite Hv, column_col_iadd_eq.
    + rewrite column_col_iadd_ne by done.
      destruct (decide (S i ≤ j)).
      * rewrite (decide_True (P := i ≤ j)) by lia.
        by replace (j - i) with (S (j - S i)) by lia.
      * by rewrite (decide_False (P := i ≤ j)) by lia.
Qed.

End extender_sources.

(** * The properties of the extender *)

Section extender_claims.
Context {F : Type} `{!Scalar F}.
Implicit Types (d : tc_dict F) (s : mem F) (h : list (tc_dict F)).

(** C1. When [tcs_monitoring] returns, the cumulative time course of every
    source is, in per-source mode, the baseline time course followed by the
    values of the source's column of [tcs_c], each increased by the last
    baseline value of that source; in residual mode it is the column of
    [tcs_c] itself, with nothing added.  (The list holds distinct
    dictionaries of the heap.) *)
Theorem tcs_monitoring_cumulative_tc (tcs_c : array2 F) sources_tcs
    time_values residual h refs' s' n r d :
  tcs_monitoring tcs_c sources_tcs time_values residual h = (Ok refs', s') →
  NoDup sources_tcs →
  Forall (λ r, r < length h) sources_tcs →
  sources_tcs !! n = Some r →
  h !! r = Some d →
  ∃ r' d',
    refs' !! n = Some r' ∧ mem_heap s' !! r' = Some d'
    ∧ if residual then cumulative_tc d' = column n tcs_c
      else ∃ v, list.last (cumulative_tc d) = Some v
                ∧ cumulative_tc d'
                  = cumulative_tc d ++ ((λ x, fadd x v) <$> column n tcs_c).
Proof.
  intros Hrun Hnd Hvalid Hr Hd.
  destruct (tcs_monitoring_source _ _ _ _ _ _ _ Hrun Hnd Hvalid)
    as (r0 & d0 & _ & _ & _ & Hsrc).
  destruct (Hsrc n r d Hr Hd) as (d' & Hr' & Hd' & Hres).
  exists (length h + n), d'. split_and!; [done..|].
  apply source_result_cumulative in Hres as [Hnew _].
  unfold source_new_tc in Hnew. destruct residual.
  - unfold np_col in Hnew. apply rbind_Ok in Hnew as (? & _ & Hnew).
    by injection Hnew.
  - apply rbind_Ok in Hnew as (? & _ & Hnew).
    apply rbind_Ok in Hnew as (v & Hv & Hnew).
    apply from_option_Ok in Hv. injection Hnew as Hnew. eauto.
Qed.


(** C9. In per-source mode a call that returns has updated the caller's
    [tcs_c] in place: the column of every source holds its former values
    plus the last baseline cumulative value of that source; the shape and
    the columns beyond the sources are as they were. *)
Theorem tcs_monitoring_updates_tcs_c (tcs_c : array2 F) sources_tcs
    time_values h refs' s' :
  tcs_monitoring tcs_c sources_tcs time_values false h = (Ok refs', s') →
  NoDup sources_tcs →
  Forall (λ r, r < length h) sources_tcs →
  shape0 (mem_tcs_c s') = shape0 tcs_c
  ∧ shape1 (mem_tcs_c s') = shape1 tcs_c
  ∧ (∀ n r d, sources_tcs !! n = Some r → h !! r = Some d →
       ∃ v, list.last (cumulative_tc d) = Some v
            ∧ column n (mem_tcs_c s') = (λ x, fadd x v) <$> column n tcs_c)
  ∧ (∀ j, length sources_tcs ≤ j →
       column j (mem_tcs_c s') = column j tcs_c).
Proof.
  intros Hrun Hnd Hvalid.
  destruct (refs_dicts _ _ Hvalid) as [ds Hds].
  destruct (tcs_monitoring_Ok _ _ _ _ _ _ _ _ Hrun Hnd Hds)
    as (d0 & ds' & _ & _ & _ & Ht & Hall).
  pose proof (Forall2_length _ _ _ Hds) as Hlen.
  assert (Forall (λ d, is_Some (list.last (cumulative_tc d))) ds) as Hlast.
  { apply Forall_lookup_2. intros n d Hd.
    destruct (Forall2_enumerate_lookup _ _ _ _ _ _ Hall Hd) as (d' & _ & Hres).
    apply source_result_cumulative in Hres as [Hnew _].
    unfold source_new_tc in Hnew.
    apply rbind_Ok in Hnew as (? & _ & Hnew).
    apply rbind_Ok in Hnew as (v & Hv & _).
    apply from_option_Ok in Hv. by exists v. }
  rewrite Ht.
  destruct (column_iadd_lasts ds 0 tcs_c 0 Hlast) as (Hs1 & Hs0 & _).
  split; [done|]. split; [done|]. split.
  - intros n r d Hr Hd.
    destruct (Forall2_lookup_l _ _ _ _ _ Hds Hr) as (d1 & Hd1 & Hhd1).
    assert (d1 = d) as -> by congruence.
    destruct (Forall_lookup_1 _ _ _ _ Hlast Hd1) as [v Hv].
    exists v. split; [done|].
    destruct (column_iadd_lasts ds 0 tcs_c n Hlast) as (_ & _ & ->).
    rewrite decide_True by lia. rewrite Nat.sub_0_r, Hd1. by rewrite Hv.
  - intros j Hj.
    destruct (column_iadd_lasts ds 0 tcs_c j Hlast) as (_ & _ & ->).
    rewrite decide_True by lia. rewrite Nat.sub_0_r.
    by rewrite lookup_ge_None_2 by lia.
Qed.

End extender_claims.

(** The worked example satisfies the hypotheses of the theorems above. *)

Lemma ex_monitoring_run :
  tcs_monitoring ex_tcs_c_monitoring [0; 1] ex_time_values false ex_heap
  = (Ok [2; 3], snd ex_monitoring).
Proof. vm_compute. reflexivity. Qed.

Lemma ex_sources_distinct : NoDup [0; 1].
Proof. apply (bool_decide_unpack _). vm_compute. exact I. Qed.

Lemma ex_sources_valid : Forall (λ r, r < length ex_heap) [0; 1].
Proof. repeat constructor. Qed.

Lemma tcs_monitoring_cumulative_tc_witness :
  ∃ r' d',
    [2; 3] !! 1 = Some r' ∧ mem_heap (snd ex_monitoring) !! r' = Some d'
    ∧ ∃ v, list.last (map xq_of_Z [2; -1; 0; 5]%Z) = Some v
           ∧ cumulative_tc d'
             = map xq_of_Z [2; -1; 0; 5]%Z
                 ++ ((λ x, fadd x v) <$> column 1 ex_tcs_c_monitoring).
Proof.
  destruct (ex_heap !! 1) as [d|] eqn:Hd; [|discriminate].
  assert (cumulative_tc d = map xq_of_Z [2; -1; 0; 5]%Z) as <-.
  { vm_compute in Hd. injection Hd as <-. reflexivity. }
  exact (tcs_monitoring_cumulative_tc ex_tcs_c_monitoring [0; 1] ex_time_values
           false ex_heap [2; 3] (snd ex_monitoring) 1 1 d
           ex_monitoring_run ex_sources_distinct ex_sources_valid
           eq_refl Hd).
Defined.


Lemma tcs_monitoring_updates_tcs_c_witness :
  shape0 (mem_tcs_c (snd ex_monitoring)) = shape0 ex_tcs_c_monitoring
  ∧ shape1 (mem_tcs_c (snd ex_monitoring)) = shape1 ex_tcs_c_monitoring
  ∧ (∀ n r d, [0; 1] !! n = Some r → ex_heap !! r = Some d →
       ∃ v, list.last (cumulative_tc d) = Some v
            ∧ column n (mem_tcs_c (snd ex_monitoring))
              = (λ x, fadd x v) <$> column n ex_tcs_c_monitoring)
  ∧ (∀ j, length [0; 1] ≤ j →
       column j (mem_tcs_c (snd ex_monitoring)) = column j ex_tcs_c_monitoring).
Proof.
  exact (tcs_monitoring_updates_tcs_c ex_tcs_c_monitoring [0; 1]
           ex_time_values ex_heap [2; 3] (snd ex_monitoring)
           ex_monitoring_run ex_sources_distinct ex_sources_valid).
Defined.

(** ** Running the extender forwards *)

Section extender_forward.
Context {F : Type} `{!Scalar F}.
Implicit Types (d : tc_dict F) (s : mem F) (h : list (tc_dict F)).

Lemma monitoring_source_run residual t_recalc n_b n_m time_values n r s d d' :
  mem_heap s !! r = Some d →
  source_result residual t_recalc n_b n_m time_values (mem_tcs_c s) n d = Ok d' →
  monitoring_source residual t_recalc n_b n_m time_values n r s
  = (Ok (), Mem (iadd_lasts n (if residual then [] else [d]) (mem_tcs_c s))
              (<[r := d']> (mem_heap s))).
Proof.
  intros Hd Hres. unfold monitoring_source, read_dict.
  erewrite M_bind_run; [|by rewrite Hd].
  unfold source_result, source_new_tc in Hres.
  apply rbind_Ok in Hres as (new_tc & Hnew & Hl).
  destruct residual; simpl.
  - unfold read_tcs_c, lift, write_dict, mbind, M_bind.
    rewrite Hnew. simpl. by rewrite Hl.
  - apply rbind_Ok in Hnew as ([] & Hg & Hnew).
    apply rbind_Ok in Hnew as (v & Hv & Hnew). injection Hnew as <-.
    unfold read_tcs_c, write_tcs_c, lift, write_dict, mbind, M_bind.
    rewrite Hg, Hv. simpl. rewrite column_col_iadd_eq, Hl. simpl.
    apply from_option_Ok in Hv. by rewrite Hv.
Qed.

Lemma sources_loop_run residual t_recalc n_b n_m time_values (tcs0 : array2 F) h :
  ∀ rest rest' done s,
    Forall2 (λ '(n, d) d',
       source_result residual t_recalc n_b n_m time_values tcs0 n d = Ok d')
      (zip (seq (length done) (length rest)) rest) rest' →
    mem_heap s = h ++ done ++ rest →
    shape1 (mem_tcs_c s) = shape1 tcs0 →
    (∀ j, length done ≤ j → column j (mem_tcs_c s) = column j tcs0) →
    for_enumerate (monitoring_source residual t_recalc n_b n_m time_values)
      (length done) (seq (length h + length done) (length rest)) s
    = (Ok (), Mem (iadd_lasts (length done) (if residual then [] else rest)
                     (mem_tcs_c s))
                (h ++ done ++ rest')).
Proof.
  induction rest as [|d rest IH]; intros rest' done s Hall Hheap Hsh Hcols;
    simpl in *.
  - apply Forall2_nil_inv_l in Hall as ->. unfold mret, M_ret.
    rewrite <- Hheap. destruct residual; by destruct s.
  - apply Forall2_cons_inv_l in Hall as (d' & rest1 & Hres & Hall & ->).
    assert (mem_heap s !! (length h + length done) = Some d) as Hd.
    { rewrite Hheap, lookup_app_r by lia.
      replace (length h + length done - length h) with (length done) by lia.
      by rewrite list_lookup_middle. }
    erewrite M_bind_run.
    2:{ eapply monitoring_source_run; [done|].
        rewrite <- Hres. apply source_result_ext; [|done]. by apply Hcols. }
    set (s1 := Mem _ _).
    assert (shape1 (mem_tcs_c s1) = shape1 tcs0
            ∧ ∀ j, length done < j → column j (mem_tcs_c s1) = column j tcs0)
      as [Hsh1 Hcols1].
    { subst s1; simpl. destruct residual; simpl.
      - split; [done|]. intros j Hj. apply Hcols. lia.
      - destruct (list.last _); simpl.
        + split; [done|]. intros j Hj.
          rewrite column_col_iadd_ne by lia. apply Hcols. lia.
        + split; [done|]. intros j Hj. apply Hcols. lia. }
    specialize (IH rest1 (done ++ [d']) s1).
    rewrite length_app in IH; simpl in IH.
    rewrite !Nat.add_1_r, Nat.add_succ_r in IH.
    rewrite IH; [| done | | done |].
    + f_equal. f_equal; [|by rewrite <- !app_assoc].
      subst s1; simpl. destruct residual; [done|]. simpl.
      destruct (list.last (cumulative_tc d)) as [v|] eqn:Hv; [done|].
      exfalso. unfold source_result, source_new_tc, item_last in Hres.
      rewrite Hv in Hres. simpl in Hres.
      by destruct (guard _ _) as [[]|].
    + subst s1; simpl. rewrite Hheap.
      rewrite insert_app_r_alt by lia.
      replace (length h + length done - length h) with (length done) by lia.
      rewrite insert_app_r_alt by lia. rewrite Nat.sub_diag. simpl.
      by rewrite <- app_assoc.
    + intros j Hj. apply Hcols1. lia.
Qed.

Lemma tcs_monitoring_run (tcs_c : array2 F) sources_tcs time_values residual h
    ds d0 ds' :
  NoDup sources_tcs →
  Forall2 (λ r d, h !! r = Some d) sources_tcs ds →
  ds !! 0 = Some d0 →
  Forall2 (λ '(n, d) d',
     source_result residual (t_recalculate d0) (length (cumulative_tc d0))
       (n_times_monitor_of residual tcs_c (length (cumulative_tc d0)))
       time_values tcs_c n d = Ok d')
    (zip (seq 0 (length ds)) ds) ds' →
  tcs_monitoring tcs_c sources_tcs time_values residual h
  = (Ok (seq (length h) (length ds)),
     Mem (iadd_lasts 0 (if residual then [] else ds) tcs_c) (h ++ ds')).
Proof.
  intros Hnd Hds Hd0 Hall.
  pose proof (Forall2_length _ _ _ Hds) as Hlen.
  unfold tcs_monitoring, tcs_monitoring_body, deepcopy.
  rewrite (M_bind_run _ _ _ _ _
             (deepcopy_from_fresh h ds [] sources_tcs (Mem tcs_c h) Hnd Hds
                (reflexivity _) (λ _ _, eq_refl))).
  cbn [mem_heap mem_tcs_c]. rewrite Hlen.
  destruct ds as [|d1 ds1]; [done|]. injection Hd0 as ->.
  unfold lift, read_dict, read_tcs_c, mbind at 1 2 3, M_bind at 1 2 3.
  cbn [length seq item lookup list_lookup from_option mem_heap mem_tcs_c].
  rewrite lookup_app_r by done. rewrite Nat.sub_diag.
  cbn [lookup list_lookup from_option].
  erewrite M_bind_run.
  2:{ pose proof (sources_loop_run residual (t_recalculate d0)
                    (length (cumulative_tc d0))
                    (n_times_monitor_of residual tcs_c
                       (length (cumulative_tc d0)))
                    time_values tcs_c h (d0 :: ds1) ds' []
                    (Mem tcs_c (h ++ d0 :: ds1))) as Hloop.
      simpl in Hloop. rewrite Nat.add_0_r in Hloop.
      apply Hloop; done. }
  done.
Qed.

End extender_forward.

(** ** The trend tracker *)

Section tracker_facts.
Context {F : Type} `{!Scalar F, !Polyfit F}.
Implicit Types (d : tc_dict F) (h : list (tc_dict F)).

Lemma np_polyfit1_Ok (xs ys : list F) g c :
  np_polyfit1 xs ys = Ok (g, c) →
  length xs ≠ 0 ∧ length xs = length ys ∧ lstsq_line xs ys = (g, c).
Proof.
  unfold np_polyfit1. intros H.
  apply rbind_Ok in H as ([] & Hg1 & H).
  apply rbind_Ok in H as ([] & Hg2 & H).
  apply rbind_Ok in H as ([] & _ & H).
  apply guard_Ok in Hg1, Hg2. injection H as H.
  apply negb_true_iff, Nat.eqb_neq in Hg1. apply Nat.eqb_eq in Hg2. done.
Qed.

(** The fields of a dictionary built by [tcs_baseline]. *)
Lemma baseline_dict_Ok (tcs_c : array2 F) time_values t_recalc n_tc d :
  baseline_dict tcs_c time_values t_recalc n_tc = Ok d →
  let cumulative := column n_tc tcs_c in
  let line_yvals :=
    np_polyval2 (lstsq_line time_values cumulative).1
      (lstsq_line time_values cumulative).2 time_values in
  let lpd := line_point_distances cumulative line_yvals in
  length time_values ≠ 0
  ∧ length time_values = length cumulative
  ∧ cumulative_tc d = cumulative
  ∧ gradient d = (lstsq_line time_values cumulative).1
  ∧ baseline_lines (shape0 tcs_c) t_recalc line_yvals = Ok (lines d)
  ∧ sigma d = np_std lpd
  ∧ distances d = (λ x, fabs (fdiv x (np_std lpd))) <$> lpd
  ∧ t_recalculate d = t_recalc.
Proof.
  unfold baseline_dict. intros H.
  apply rbind_Ok in H as ([g c] & Hfit & H).
  apply np_polyfit1_Ok in Hfit as (Hne & Hlen & Hfit).
  apply rbind_Ok in H as (lines_yvals & Hlines & H). injection H as <-.
  simpl. rewrite Hfit. simpl. by split_and!.
Qed.

Lemma tcs_baseline_Ok (tcs_c : array2 F) time_values t_recalc h refs h1 :
  tcs_baseline tcs_c time_values t_recalc h = (Ok refs, h1) →
  ∃ ds,
    refs = seq (length h) (length ds)
    ∧ h1 = h ++ ds
    ∧ length ds = shape1 tcs_c
    ∧ Forall2 (λ n_tc d,
         baseline_dict tcs_c time_values t_recalc n_tc = Ok d)
        (seq 0 (shape1 tcs_c)) ds.
Proof.
  unfold tcs_baseline, baseline_dicts.
  destruct (rmap _ _) as [ds|e] eqn:Hds; [|discriminate].
  intros [= <- <-]. apply rmap_Ok in Hds. exists ds.
  pose proof (Forall2_length _ _ _ Hds) as Hlen. rewrite length_seq in Hlen.
  by split_and!.
Qed.

(** The references returned by [tcs_baseline] are distinct and point to the
    new dictionaries. *)
Lemma tcs_baseline_refs h (ds : list (tc_dict F)) :
  NoDup (seq (length h) (length ds))
  ∧ Forall2 (λ r d, (h ++ ds) !! r = Some d) (seq (length h) (length ds)) ds.
Proof.
  split; [apply NoDup_seq|].
  apply Forall2_lookup. intros i.
  destruct (ds !! i) as [d|] eqn:Hd.
  - rewrite (proj2 (lookup_seq _ _ _ (length h + i)));
      [|split; [done | by eapply lookup_lt_Some]].
    constructor. rewrite lookup_app_r by lia.
    by replace (length h + i - length h) with i by lia.
  - rewrite lookup_ge_None_2; [constructor|].
    rewrite length_seq. by apply lookup_ge_None.
Qed.

End tracker_facts.

Section no_new_data.
Context {F : Type} `{!Scalar F, !Polyfit F}.

(** With no monitoring interferogram a source keeps its dictionary. *)
Lemma source_result_empty t_recalc n_b time_values k n (d : tc_dict F) :
  n < k → cumulative_tc d ≠ [] →
  source_result false t_recalc n_b 0 time_values (Array2 0 k []) n d = Ok d.
Proof.
  intros Hn Hne. unfold source_result, source_new_tc. simpl.
  rewrite (proj2 (Nat.ltb_lt n k) Hn). simpl.
  unfold item_last.
  destruct (list.last (cumulative_tc d)) as [v|] eqn:Hv.
  2:{ by apply last_None in Hv. }
  simpl. unfold monitoring_lines. rewrite np_pad2_zero. simpl.
  rewrite !app_nil_r. by destruct d.
Qed.

(** C4. [tcs_baseline] on the time courses of at least one source, followed
    by [tcs_monitoring] on an extension without rows (per-source mode),
    returns a list of the same length whose dictionaries have, position by
    position, the cumulative time course, gradient, lines, sigma, distances
    and t_recalculate of the baseline dictionaries. *)
Theorem tcs_monitoring_no_new_data (tcs_c : array2 F) time_values t_recalc h
    sources_tcs h1 k time_values' :
  tcs_baseline tcs_c time_values t_recalc h = (Ok sources_tcs, h1) →
  0 < shape1 tcs_c →
  shape1 tcs_c ≤ k →
  ∃ sources_tcs_monitor s',
    tcs_monitoring (Array2 0 k []) sources_tcs time_values' false h1
    = (Ok sources_tcs_monitor, s')
    ∧ Forall2 (λ r r',
         ∃ d d', h1 !! r = Some d ∧ mem_heap s' !! r' = Some d'
                 ∧ cumulative_tc d' = cumulative_tc d
                 ∧ gradient d' = gradient d
                 ∧ lines d' = lines d
                 ∧ sigma d' = sigma d
                 ∧ distances d' = distances d
                 ∧ t_recalculate d' = t_recalculate d)
        sources_tcs sources_tcs_monitor.
Proof.
  intros Hbase Hpos Hk.
  apply tcs_baseline_Ok in Hbase as (ds & -> & -> & Hlen & Hds).
  destruct (tcs_baseline_refs h ds) as [Hnd Hrefs].
  destruct ds as [|d0 ds0] eqn:Eds; [simpl in Hlen; lia|]. rewrite <- Eds in *.
  assert (ds !! 0 = Some d0) as Hd0 by by rewrite Eds.
  assert (Forall (λ d, cumulative_tc d ≠ []) ds) as Hne.
  { apply Forall_lookup_2. intros n d Hd.
    destruct (Forall2_lookup_r _ _ _ _ _ Hds Hd) as (n' & _ & Hdict).
    apply baseline_dict_Ok in Hdict as (Hne & Hl & -> & _).
    intros Hnil. rewrite Hnil in Hl. done. }
  eexists _, _. split.
  - apply (tcs_monitoring_run _ _ _ _ _ ds d0 ds); [done..|].
    apply Forall2_lookup. intros i.
    destruct (ds !! i) as [d|] eqn:Hd.
    + assert (zip (seq 0 (length ds)) ds !! i = Some (i, d)) as ->.
      { apply lookup_zip_with_Some. exists i, d. split_and!; [done| |done].
        apply lookup_seq. split; [done|]. by eapply lookup_lt_Some. }
      constructor. unfold n_times_monitor_of. simpl.
      apply source_result_empty.
      * apply lookup_lt_Some in Hd. lia.
      * by apply (Forall_lookup_1 _ _ _ _ Hne Hd).
    + rewrite lookup_ge_None_2; [constructor|].
      rewrite length_zip_with, length_seq. apply lookup_ge_None in Hd. lia.
  - simpl. apply Forall2_lookup. intros i.
    destruct (ds !! i) as [d|] eqn:Hd.
    + pose proof (lookup_lt_Some _ _ _ Hd) as Hi.
      rewrite (proj2 (lookup_seq _ _ _ (length h + i))) by done.
      rewrite (proj2 (lookup_seq _ _ _ (length (h ++ ds) + i))) by done.
      constructor. exists d, d. split_and!; try done.
      * rewrite lookup_app_r by lia.
        by replace (length h + i - length h) with i by lia.
      * rewrite lookup_app_r by lia.
        by replace (length (h ++ ds) + i - length (h ++ ds)) with i by lia.
    + apply lookup_ge_None in Hd.
      rewrite !lookup_ge_None_2; [constructor|rewrite length_seq; lia..].
Qed.

End no_new_data.

Lemma tcs_monitoring_no_new_data_witness :
  ∃ sources_tcs_monitor s',
    tcs_monitoring (Array2 0 2 []) [0; 1] [] false ex_heap
    = (Ok sources_tcs_monitor, s')
    ∧ Forall2 (λ r r',
         ∃ d d', ex_heap !! r = Some d ∧ mem_heap s' !! r' = Some d'
                 ∧ cumulative_tc d' = cumulative_tc d
                 ∧ gradient d' = gradient d
                 ∧ lines d' = lines d
                 ∧ sigma d' = sigma d
                 ∧ distances d' = distances d
                 ∧ t_recalculate d' = t_recalculate d)
        [0; 1] sources_tcs_monitor.
Proof.
  apply (tcs_monitoring_no_new_data (Polyfit0 := xq_polyfit)
           ex_tcs_c_baseline (take 4 ex_time_values) 2 [] [0; 1] ex_heap 2 []).
  - vm_compute. reflexivity.
  - simpl. lia.
  - simpl. lia.
Defined.

(** ** Where the matrix of lines is written *)

Section lines_facts.
Context {F : Type} `{!Scalar F}.
Implicit Types (a : array2 F) (d : tc_dict F).

Lemma cell_Some_wf a i j v :
  wf_array2 a → cell a i j = Some v → i < shape0 a ∧ j < shape1 a.
Proof.
  intros [H0 H1]. unfold cell.
  destruct (rows a !! i) as [r|] eqn:Hr; simpl; [|done]. intros Hj.
  pose proof (Forall_lookup_1 _ _ _ _ H1 Hr) as Hl. simpl in Hl.
  apply lookup_lt_Some in Hr, Hj. lia.
Qed.

Lemma baseline_lines_outside n t_recalc (line_yvals : list F) a :
  baseline_lines n t_recalc line_yvals = Ok a →
  wf_array2 a ∧ shape0 a = n ∧ shape1 a = n
  ∧ ∀ i j, i < n → j < n →
      ¬ (baseline_window_start t_recalc j ≤ Z.of_nat i ≤ Z.of_nat j)%Z →
      cell a i j = Some nan.
Proof.
  unfold baseline_lines. intros Hrun.
  pose proof (rfold_invariant
    (λ k a, wf_array2 a ∧ shape0 a = n ∧ shape1 a = n
            ∧ ∀ i j, i < n → j < n →
                k ≤ j
                ∨ ¬ (baseline_window_start t_recalc j ≤ Z.of_nat i ≤ Z.of_nat j)%Z →
                cell a i j = Some nan) _ _ _ _ Hrun) as Hinv.
  rewrite length_seq in Hinv.
  destruct Hinv as (Hwf & Hs0 & Hs1 & Hcells).
  - split_and!; [apply wf_nan_matrix | done..|].
    intros i j Hi Hj _. by apply cell_nan_matrix.
  - intros k x a0 a' Hx (Hwf & Hs0 & Hs1 & Hcells) Hstep.
    apply lookup_seq in Hx as [-> Hk]. simpl in Hk.
    unfold baseline_lines_step in Hstep. change (0 + k) with k in Hstep.
    pose proof (assign_col_slice_shape _ _ _ _ _ _ Hstep) as (Hs0' & Hs1' & _).
    split_and!; [by eapply assign_col_slice_wf | congruence..|].
    intros i j Hi Hj Hout.
    rewrite (assign_col_slice_other _ _ _ _ _ _ i j Hstep).
    + apply Hcells; [done..|]. destruct Hout; [left; lia | by right].
    + destruct (decide (j = k)) as [->|]; [right | by left].
      destruct Hout as [|Hout]; [lia|].
      rewrite Hs0, slice_index_succ.
      unfold baseline_window_start in Hout.
      destruct (decide (k < i)); [right; lia | left].
      change (0 + k) with k.
      destruct (Z.ltb_spec (Z.of_nat k - (t_recalc - 1)) 0);
        rewrite slice_index_nonneg by lia; lia.
  - split_and!; [done..|]. intros i j Hi Hj Hout. apply Hcells; auto.
Qed.

Lemma monitoring_steps_outside t_recalc time_values n_b m d1 d' :
  rfold (monitoring_step t_recalc time_values) d1 (seq n_b m) = Ok d' →
  wf_array2 (lines d1) →
  shape0 (lines d1) = n_b + m → shape1 (lines d1) = n_b + m →
  (t_recalc ≤ Z.of_nat n_b)%Z →
  wf_array2 (lines d') ∧ shape0 (lines d') = n_b + m
  ∧ shape1 (lines d') = n_b + m
  ∧ ∀ i j, i < n_b + m → j < n_b + m →
      j < n_b ∨ ¬ (Z.of_nat j - t_recalc ≤ Z.of_nat i ≤ Z.of_nat j)%Z →
      cell (lines d') i j = cell (lines d1) i j.
Proof.
  intros Hrun Hwf1 Hs0 Hs1 Ht.
  pose proof (rfold_invariant
    (λ k x, wf_array2 (lines x) ∧ shape0 (lines x) = n_b + m
            ∧ shape1 (lines x) = n_b + m
            ∧ ∀ i j, i < n_b + m → j < n_b + m →
                j < n_b ∨ n_b + k ≤ j
                ∨ ¬ (Z.of_nat j - t_recalc ≤ Z.of_nat i ≤ Z.of_nat j)%Z →
                cell (lines x) i j = cell (lines d1) i j) _ _ _ _ Hrun) as Hinv.
  rewrite length_seq in Hinv.
  destruct Hinv as (Hwf & Hs0' & Hs1' & Hcells).
  - by split_and!.
  - intros k x a0 a' Hx (Hwf & Hs0' & Hs1' & Hcells) Hstep.
    apply lookup_seq in Hx as [-> Hk].
    unfold monitoring_step in Hstep.
    apply rbind_Ok in Hstep as (lines' & Hassign & Hstep).
    apply rbind_Ok in Hstep as (c & _ & Hstep).
    apply rbind_Ok in Hstep as (y & _ & Hstep).
    apply rbind_Ok in Hstep as ([] & _ & Hstep). injection Hstep as <-.
    simpl.
    pose proof (assign_col_slice_shape _ _ _ _ _ _ Hassign) as (Hs0a & Hs1a & _).
    split_and!; [by eapply assign_col_slice_wf | congruence..|].
    intros i j Hi Hj Hout.
    rewrite (assign_col_slice_other _ _ _ _ _ _ i j Hassign).
    + apply Hcells; [done..|]. destruct Hout as [|[|]]; auto. right; left; lia.
    + destruct (decide (j = n_b + k)) as [->|]; [right | by left].
      destruct Hout as [|[|Hout]]; [lia..|].
      rewrite Hs0', slice_index_succ.
      destruct (decide (n_b + k < i)); [right; lia | left].
      rewrite slice_index_nonneg by lia. lia.
  - split_and!; [done..|]. intros i j Hi Hj Hout. apply Hcells; [done..|].
    destruct Hout; auto.
Qed.

(** The lines of a source after the extension: the lines of the baseline
    where they were, NaN outside the windows of the monitoring steps. *)
Lemma monitoring_lines_outside t_recalc n_b n_m time_values d d' :
  monitoring_lines t_recalc n_b n_m time_values d = Ok d' →
  wf_array2 (lines d) → shape0 (lines d) = n_b → shape1 (lines d) = n_b →
  (t_recalc ≤ Z.of_nat n_b)%Z →
  wf_array2 (lines d')
  ∧ ∀ i j v, cell (lines d') i j = Some v →
      (i < n_b ∧ j < n_b ∧ cell (lines d) i j = Some v)
      ∨ v = nan
      ∨ (n_b ≤ j ∧ (Z.of_nat j - t_recalc ≤ Z.of_nat i ≤ Z.of_nat j)%Z).
Proof.
  unfold monitoring_lines. intros H Hwf Hs0 Hs1 Ht.
  apply rbind_Ok in H as (lines1 & Hpad & H).
  apply rbind_Ok in H as (dist1 & _ & H).
  pose proof (np_pad2_wf _ _ _ _ Hpad Hwf) as Hwf1.
  pose proof (λ i j, np_pad2_cell _ _ _ _ i j Hpad Hwf) as Hcell1.
  apply np_pad2_Ok in Hpad as [Hm Hl1].
  assert (shape0 lines1 = n_b + Z.to_nat n_m
          ∧ shape1 lines1 = n_b + Z.to_nat n_m) as [Hs01 Hs11].
  { rewrite Hl1; simpl. lia. }
  apply monitoring_steps_outside in H as (Hwf' & Hs0' & Hs1' & Hcells);
    [|done..].
  split; [done|]. intros i j v Hv.
  destruct (cell_Some_wf _ _ _ _ Hwf' Hv) as [Hi Hj].
  rewrite Hs0' in Hi. rewrite Hs1' in Hj.
  destruct (decide (j < n_b
     ∨ ¬ (Z.of_nat j - t_recalc ≤ Z.of_nat i ≤ Z.of_nat j)%Z)) as [Hout|Hin].
  - rewrite Hcells in Hv by done. simpl in Hv.
    rewrite Hcell1 in Hv by lia.
    rewrite Hs0, Hs1 in Hv. case_decide as Hc.
    + left. by destruct Hc.
    + right; left. by injection Hv.
  - right; right. split; [lia|].
    destruct (decide (Z.of_nat j - t_recalc ≤ Z.of_nat i ≤ Z.of_nat j)%Z);
      [done|]. exfalso. apply Hin. by right.
Qed.

End lines_facts.

Section window_claims.
Context {F : Type} `{!Scalar F, !Polyfit F}.

(** C2, as the code has it.  In a state built by [tcs_baseline],
    [lines[t', t]] is defined only for [t'] from [max(0, t - t_recalculate
    + 1)] to [t].  In a state built by [tcs_monitoring] from states with
    that property (square matrices of lines over the baseline steps, and a
    baseline at least t_recalculate steps long), the lines of the baseline
    steps keep that window, and the line of a monitoring step [t] is
    defined only for [t'] from [t - t_recalculate] to [t]: the
    t_recalculate points it is fitted to and the point it predicts. *)
Theorem lines_defined_in_windows :
  isnan (nan : F) = true →
  (∀ (tcs_c : array2 F) time_values t_recalc h sources_tcs h1 r d,
     tcs_baseline tcs_c time_values t_recalc h = (Ok sources_tcs, h1) →
     r ∈ sources_tcs → h1 !! r = Some d →
     lines_defined_within (baseline_window_start (t_recalculate d)) d)
  ∧ (∀ (tcs_c : array2 F) sources_tcs time_values residual h refs' s'
       r0 d0 n r d,
     tcs_monitoring tcs_c sources_tcs time_values residual h = (Ok refs', s') →
     NoDup sources_tcs →
     Forall (λ r, r < length h) sources_tcs →
     sources_tcs !! 0 = Some r0 → h !! r0 = Some d0 →
     sources_tcs !! n = Some r → h !! r = Some d →
     wf_array2 (lines d) →
     shape0 (lines d) = length (cumulative_tc d0) →
     shape1 (lines d) = length (cumulative_tc d0) →
     lines_defined_within (baseline_window_start (t_recalculate d0)) d →
     (t_recalculate d0 ≤ Z.of_nat (length (cumulative_tc d0)))%Z →
     ∃ r' d',
       refs' !! n = Some r' ∧ mem_heap s' !! r' = Some d'
       ∧ lines_defined_within
           (extended_window_start (length (cumulative_tc d0))
              (t_recalculate d0)) d').
Proof.
  intros Hnan. split.
  - intros tcs_c time_values t_recalc h sources_tcs h1 r d Hbase Hr Hd.
    apply tcs_baseline_Ok in Hbase as (ds & -> & -> & Hlen & Hds).
    apply list_elem_of_lookup in Hr as [n Hn].
    apply lookup_seq in Hn as [-> Hn].
    rewrite lookup_app_r in Hd by lia.
    replace (length h + n - length h) with n in Hd by lia.
    destruct (Forall2_lookup_r _ _ _ _ _ Hds Hd) as (n' & _ & Hdict).
    apply baseline_dict_Ok in Hdict as (_ & _ & _ & _ & Hlines & _ & _ & ->).
    apply baseline_lines_outside in Hlines as (Hwf & Hs0 & Hs1 & Hcells).
    intros t' t v Hv Hdef.
    destruct (cell_Some_wf _ _ _ _ Hwf Hv) as [Ht' Ht].
    destruct (decide (baseline_window_start t_recalc t ≤ Z.of_nat t'
                      ≤ Z.of_nat t)%Z) as [|Hout]; [done|].
    rewrite Hcells in Hv by congruence. injection Hv as <-. congruence.
  - intros tcs_c sources_tcs time_values residual h refs' s' r0 d0 n r d
      Hrun Hnd Hvalid Hr0 Hd0 Hr Hd Hwf Hs0 Hs1 Hwin Ht.
    destruct (tcs_monitoring_source _ _ _ _ _ _ _ Hrun Hnd Hvalid)
      as (r0' & d0' & Hr0' & Hd0' & _ & Hsrc).
    assert (d0' = d0) as -> by congruence.
    destruct (Hsrc n r d Hr Hd) as (d' & Hr' & Hd' & Hres).
    exists (length h + n), d'. split_and!; [done..|].
    unfold source_result in Hres.
    apply rbind_Ok in Hres as (new_tc & _ & Hlines).
    apply monitoring_lines_outside in Hlines as [Hwf' Hcells]; [|done..].
    intros t' t v Hv Hdef. unfold extended_window_start.
    destruct (Hcells _ _ _ Hv) as [(Hi & Hj & Hold) | [-> | [Hj Hin]]].
    + rewrite (proj2 (Nat.ltb_lt _ _) Hj). by eapply Hwin.
    + congruence.
    + by rewrite (proj2 (Nat.ltb_ge _ _) Hj).
Qed.

End window_claims.

(** C2, as the spec has it, fails after an extension: in the worked
    example t_recalculate is 2 and [lines[2, 4]] is defined, two steps
    before the monitoring step 4. *)
Lemma lines_window_counterexample :
  fst ex_monitoring = Ok [2; 3]
  ∧ ∃ d', mem_heap (snd ex_monitoring) !! 2 = Some d'
          ∧ ¬ lines_defined_within
                (baseline_window_start (t_recalculate d')) d'.
Proof.
  split; [vm_compute; reflexivity|].
  destruct (mem_heap (snd ex_monitoring) !! 2) as [d'|] eqn:Hd';
    [|vm_compute in Hd'; discriminate].
  exists d'. split; [done|]. intros Hwin.
  assert (t_recalculate d' = 2%Z ∧ cell (lines d') 2 4 = Some (Fin 0))
    as [Ht Hc].
  { vm_compute in Hd'. injection Hd' as <-. split; vm_compute; reflexivity. }
  specialize (Hwin 2 4 _ Hc eq_refl). rewrite Ht in Hwin.
  unfold baseline_window_start in Hwin. lia.
Qed.

(** Before t_recalculate steps are there, the start of the slice of a
    monitoring step is negative and counts from the end (it is not cut at
    0 as in [tcs_baseline]): with one monitoring step the slice is empty,
    the intercept is the mean of nothing and the distance is NaN; with five
    the call raises IndexError at the first of them. *)
Lemma monitoring_before_t_recalculate :
  (∃ d', fst ex_short_one = Ok [1]
         ∧ mem_heap (snd ex_short_one) !! 1 = Some d'
         ∧ distances d' !! 3 = Some NaN)
  ∧ fst ex_short_five = Raise IndexError.
Proof.
  split; [|vm_compute; reflexivity].
  eexists. split; [vm_compute; reflexivity|].
  split; [vm_compute; reflexivity|]. reflexivity.
Qed.

Lemma lines_defined_in_windows_witness :
  (∃ d, ex_heap !! 0 = Some d
        ∧ lines_defined_within (baseline_window_start (t_recalculate d)) d)
  ∧ (∃ r' d',
       [2; 3] !! 0 = Some r' ∧ mem_heap (snd ex_monitoring) !! r' = Some d'
       ∧ lines_defined_within (extended_window_start 4 2) d').
Proof.
  pose proof (lines_defined_in_windows (F := xq) (Polyfit0 := xq_polyfit)
                eq_refl) as [Hbase Hmon].
  destruct (ex_heap !! 0) as [d|] eqn:Hd; [|vm_compute in Hd; discriminate].
  assert (lines_defined_within (baseline_window_start (t_recalculate d)) d)
    as Hwin.
  { apply (Hbase ex_tcs_c_baseline (take 4 ex_time_values) 2%Z [] [0; 1]
             ex_heap 0 d); [vm_compute; reflexivity | by left | done]. }
  split; [by exists d|].
  assert (t_recalculate d = 2%Z ∧ length (cumulative_tc d) = 4
          ∧ wf_array2 (lines d) ∧ shape0 (lines d) = 4 ∧ shape1 (lines d) = 4)
    as (Ht & Hn & Hwf & Hs0 & Hs1).
  { vm_compute in Hd. injection Hd as <-.
    split_and!; try reflexivity. split; [reflexivity | repeat constructor]. }
  rewrite <- Ht, <- Hn.
  apply (Hmon ex_tcs_c_monitoring [0; 1] ex_time_values false ex_heap [2; 3]
           (snd ex_monitoring) 0 d 0 0 d ex_monitoring_run ex_sources_distinct
           ex_sources_valid eq_refl Hd eq_refl Hd Hwf);
    [congruence | congruence | done | rewrite Ht, Hn; lia].
Defined.

(** ** The rolling intercept *)







Section intercept_facts.
Context {F : Type} `{!Scalar F}.
Implicit Types (d : tc_dict F).




End intercept_facts.

Section intercept_claim.
Context {F : Type} `{!Scalar F}.


End intercept_claim.


(** C10, as the spec has it, fails before t_recalculate steps are there.
    A baseline of three acquisitions with t_recalculate 4 is extended by
    one: the points that precede the monitoring step 3 are those at 0, 1
    and 2, and the line fitted to them has intercept 0.  The code slices
    [3 - 4 : 3], that is [-1 : 3], on arrays of length 4: the slice is
    empty, the intercept is the mean of nothing, and the distance it
    reports for the step is NaN. *)
Lemma intercept_window_counterexample :
  fst ex_short_one = Ok [1]
  ∧ ∃ d', mem_heap (snd ex_short_one) !! 1 = Some d'
          ∧ t_recalculate d' = 4%Z
          ∧ intercept_of_preceding 4 (take 4 ex_time_values_8) d' 3 = Fin 0
          ∧ line_y_intercept 4 (take 4 ex_time_values_8) (cumulative_tc d')
              (gradient d') 3 = NaN
          ∧ distances d' !! 3 = Some NaN.
Proof.
  split; [vm_compute; reflexivity|].
  eexists. split; [vm_compute; reflexivity|].
  split_and!; vm_compute; reflexivity.
Qed.

(** ** When the trend tracker returns

    On a rectangular array with at least one row, as many time values as
    rows, and time values [numpy.polyfit] can scale. *)

Lemma rfold_total {A B} (P : A → Prop) (body : A → B → result A) l acc :
  P acc →
  (∀ a x, x ∈ l → P a → ∃ a', body a x = Ok a' ∧ P a') →
  ∃ acc', rfold body acc l = Ok acc' ∧ P acc'.
Proof.
  revert acc. induction l as [|x l IH]; intros acc Hacc Hstep; simpl.
  - eauto.
  - destruct (Hstep acc x) as (a' & -> & Ha'); [by left | done |]. simpl.
    apply IH; [done|]. intros a y Hy. apply Hstep. by right.
Qed.

Lemma rmap_total {A B} (f : A → result B) l :
  (∀ x, x ∈ l → ∃ y, f x = Ok y) → ∃ ys, rmap f l = Ok ys.
Proof.
  induction l as [|x l IH]; intros Hf; simpl; [eauto|].
  destruct (Hf x) as [y ->]; [by left|]. simpl.
  destruct IH as [ys ->]; [|simpl; eauto].
  intros z Hz. apply Hf. by right.
Qed.

Lemma length_py_slice {A} (start stop : Z) (l : list A) :
  length (py_slice start stop l)
  = slice_index stop (length l) - slice_index start (length l).
Proof.
  unfold py_slice. rewrite length_take, length_drop.
  pose proof (slice_index_le stop (length l)). lia.
Qed.

Section tracker_total.
Context {F : Type} `{!Scalar F, !Polyfit F}.

Lemma length_column j (a : array2 F) :
  wf_array2 a → j < shape1 a → length (column j a) = shape0 a.
Proof.
  destruct a as [n0 n1 rs]. intros [H0 H1] Hj. simpl in *. subst n0.
  unfold column; simpl.
  induction H1 as [|r rs Hr _ IH]; [done|]. csimpl.
  destruct (lookup_lt_is_Some_2 r j) as [x ->]; [lia|]. simpl. by rewrite IH.
Qed.

Lemma baseline_lines_total n t_recalc (line_yvals : list F) :
  length line_yvals = n → ∃ a, baseline_lines n t_recalc line_yvals = Ok a.
Proof.
  intros Hlen. unfold baseline_lines.
  destruct (rfold_total (λ a, shape0 a = n ∧ shape1 a = n)
              (baseline_lines_step t_recalc line_yvals) (seq 0 n)
              (nan_matrix n)) as (a & Ha & _); [done| |by exists a].
  intros a k Hk [Hs0 Hs1]. apply elem_of_seq in Hk as [_ Hk]. simpl in Hk.
  unfold baseline_lines_step, assign_col_slice.
  rewrite Hs1, (proj2 (Nat.ltb_lt k n) Hk). simpl.
  rewrite decide_True by (by rewrite length_py_slice, Hlen, Hs0).
  simpl. eauto.
Qed.

Lemma baseline_dict_returns (tcs_c : array2 F) time_values t_recalc n_tc :
  wf_array2 tcs_c → length time_values = shape0 tcs_c → shape0 tcs_c ≠ 0 →
  existsb isnan (vander_scaled time_values) = false →
  n_tc < shape1 tcs_c →
  ∃ d, baseline_dict tcs_c time_values t_recalc n_tc = Ok d.
Proof.
  intros Hwf Htv Hn Hscale Hc. unfold baseline_dict, np_polyfit1.
  rewrite (length_column _ _ Hwf Hc), Htv, Nat.eqb_refl.
  rewrite (proj2 (Nat.eqb_neq _ _) Hn), Hscale. simpl.
  destruct (lstsq_line _ _) as [g c]. simpl.
  destruct (baseline_lines_total (shape0 tcs_c) t_recalc
              (np_polyval2 g c time_values)) as [a ->].
  { unfold np_polyval2. by rewrite length_fmap. }
  simpl. eauto.
Qed.

Lemma tcs_baseline_returns (tcs_c : array2 F) time_values t_recalc h :
  wf_array2 tcs_c → length time_values = shape0 tcs_c → shape0 tcs_c ≠ 0 →
  existsb isnan (vander_scaled time_values) = false →
  ∃ sources_tcs h1,
    tcs_baseline tcs_c time_values t_recalc h = (Ok sources_tcs, h1).
Proof.
  intros Hwf Htv Hn Hscale. unfold tcs_baseline, baseline_dicts.
  destruct (rmap_total (baseline_dict tcs_c time_values t_recalc)
              (seq 0 (shape1 tcs_c))) as [ds ->]; [|eauto].
  intros n_tc Hin. apply elem_of_seq in Hin as [_ Hin].
  by apply baseline_dict_returns.
Qed.

End tracker_total.

(** ** A zero sigma *)



(** The call does not return at all when every time value is zero:
    [numpy.polyfit] raises LinAlgError. *)
Lemma tcs_baseline_zero_time_values :
  tcs_baseline (Polyfit0 := xq_polyfit) (Array2 1 1 [[xq_of_Z 3]])
    [xq_of_Z 0] 2 []
  = (Raise LinAlgError, []).
Proof. vm_compute. reflexivity. Qed.



(** ** Sums of reals *)

Section real_sums.
Local Open Scope R_scope.

Lemma foldl_Rplus (a : R) (l : list R) :
  foldl Rplus a l = a + foldl Rplus 0 l.
Proof.
  revert a. induction l as [|x l IH]; intros a; simpl; [lra|].
  rewrite (IH (a + x)), (IH (0 + x)). lra.
Qed.

Lemma np_sum_nil : np_sum (F := R) [] = 0.
Proof. done. Qed.

Lemma np_sum_cons (x : R) (l : list R) : np_sum (x :: l) = x + np_sum l.
Proof.
  unfold np_sum. simpl. rewrite foldl_Rplus.
  change (fadd f0 x) with (0 + x). lra.
Qed.

Lemma np_sum_scale (k : R) (f : R → R) (l : list R) :
  np_sum ((λ x, f x * k) <$> l) = np_sum (f <$> l) * k.
Proof.
  induction l as [|x l IH]; csimpl; [rewrite !np_sum_nil; lra|].
  rewrite !np_sum_cons, IH. lra.
Qed.

Lemma np_sum_squares_nonneg (l : list R) : 0 <= np_sum ((λ x, x * x) <$> l).
Proof.
  induction l as [|x l IH]; csimpl; [rewrite np_sum_nil; lra|].
  rewrite np_sum_cons. nra.
Qed.

(** The sums of the residuals of a line, in terms of the sums of the data. *)
Lemma np_sum_residuals (g c : R) (xs ys : list R) :
  length xs = length ys →
  np_sum (zip_with (λ x y, y - (g * x + c)) xs ys)
  = np_sum ys - g * np_sum xs - INR (length xs) * c
  ∧ np_sum (zip_with (λ x y, x * (y - (g * x + c))) xs ys)
    = np_sum (zip_with Rmult xs ys) - g * np_sum (zip_with Rmult xs xs)
      - c * np_sum xs.
Proof.
  revert ys. induction xs as [|x xs IH]; intros [|y ys] Hlen; try done.
  - simpl. rewrite !np_sum_nil. lra.
  - injection Hlen as Hlen. destruct (IH ys Hlen) as [IH1 IH2].
    cbn [zip_with]. rewrite !np_sum_cons, IH1, IH2.
    change (length (x :: xs)) with (S (length xs)). rewrite S_INR. lra.
Qed.

(** The closed form solves the normal equations whenever its two
    divisions are by non-zero numbers. *)
Lemma ols_line_normal_equations (xs ys : list R) :
  length xs = length ys →
  INR (length xs) ≠ 0 →
  INR (length xs) * np_sum (zip_with Rmult xs xs) - np_sum xs * np_sum xs ≠ 0 →
  normal_equations xs ys (ols_line xs ys).
Proof.
  intros Hlen Hn Hden. unfold normal_equations.
  destruct (np_sum_residuals (ols_line xs ys).1 (ols_line xs ys).2 xs ys Hlen)
    as [-> ->].
  unfold ols_line. cbn [fst snd fadd fsub fmul fdiv of_nat R_scalar].
  split; field; done.
Qed.

End real_sums.

(** ** The baseline sigma over the reals *)

Section sigma_claim.
Context (P : Polyfit R).
Local Open Scope R_scope.

Lemma line_point_distances_R (g c : R) (xs ys : list R) :
  line_point_distances ys (np_polyval2 g c xs)
  = zip_with (λ x y, y - (g * x + c)) xs ys.
Proof.
  unfold line_point_distances, np_polyval2.
  revert ys. induction xs as [|x xs IH]; intros [|y ys]; csimpl; try done.
  rewrite IH. f_equal.
  cbn [fadd fsub fmul f0 R_scalar]. lra.
Qed.

Lemma np_std_centred (l : list R) :
  np_sum l = 0 → length l ≠ 0%nat →
  0 <= np_mean ((λ x, x * x) <$> l)
  ∧ np_std l * np_std l = np_mean ((λ x, x * x) <$> l).
Proof.
  intros Hsum Hlen.
  assert (0 < INR (length l)) as Hn by (apply lt_0_INR; lia).
  assert (0 <= np_mean ((λ x, x * x) <$> l)) as Hv.
  { unfold np_mean. rewrite length_fmap.
    cbn [fdiv of_nat R_scalar].
    apply Rmult_le_pos; [apply np_sum_squares_nonneg|].
    left. by apply Rinv_0_lt_compat. }
  split; [done|].
  unfold np_std. cbn [fsqrt fmul fsub R_scalar].
  assert (np_mean l = 0) as ->.
  { unfold np_mean. rewrite Hsum. cbn [fdiv of_nat R_scalar]. by field; lra. }
  erewrite (list_fmap_ext _ (λ x, x * x)); [by apply sqrt_sqrt|].
  intros. lra.
Qed.

(** C5. Over the reals, for a state built by [tcs_baseline] from a
    least-squares line, with sigma not zero: the mean of the squares of
    the line-to-point distances (before they are normalised), divided by
    sigma squared, is 1; and so is the mean of the squares of the
    distances the state reports. *)
Theorem baseline_sigma_normalises (tcs_c : array2 R) time_values t_recalc
    (h : list (tc_dict R)) sources_tcs h1 n r d :
  tcs_baseline tcs_c time_values t_recalc h = (Ok sources_tcs, h1) →
  sources_tcs !! n = Some r → h1 !! r = Some d →
  normal_equations time_values (column n tcs_c)
    (lstsq_line time_values (column n tcs_c)) →
  sigma d ≠ 0 →
  let gc := lstsq_line time_values (column n tcs_c) in
  let lpd :=
    line_point_distances (cumulative_tc d)
      (np_polyval2 gc.1 gc.2 time_values) in
  np_mean ((λ x, x * x) <$> lpd) / (sigma d * sigma d) = 1
  ∧ np_mean ((λ x, x * x) <$> distances d) = 1.
Proof.
  intros Hrun Hr Hd [Hne1 _] Hsigma gc lpd.
  apply tcs_baseline_Ok in Hrun as (ds & -> & -> & Hlen & Hds).
  apply lookup_seq in Hr as [-> Hr].
  rewrite lookup_app_r in Hd by lia.
  replace (length h + n - length h)%nat with n in Hd by lia.
  destruct (Forall2_lookup_r _ _ _ _ _ Hds Hd) as (n' & Hn' & Hdict).
  apply lookup_seq in Hn' as [-> _]. simpl in Hdict.
  apply baseline_dict_Ok in Hdict
    as (Htv0 & Htvlen & Hcum & _ & _ & Hs & Hdist & _).
  subst lpd gc. rewrite Hcum.
  set (gc := lstsq_line time_values (column n tcs_c)) in *.
  set (lpd := line_point_distances (column n tcs_c)
                (np_polyval2 gc.1 gc.2 time_values)) in *.
  assert (np_sum lpd = 0) as Hsum.
  { subst lpd. by rewrite line_point_distances_R. }
  assert (length lpd ≠ 0%nat) as Hlpd.
  { subst lpd. unfold line_point_distances, np_polyval2.
    rewrite length_zip_with, length_fmap. lia. }
  destruct (np_std_centred lpd Hsum Hlpd) as [Hv Hsq].
  rewrite <- Hs in Hsq.
  assert (np_mean ((λ x, x * x) <$> lpd) / (sigma d * sigma d) = 1) as Hone.
  { rewrite <- Hsq. field. done. }
  split; [done|].
  rewrite Hdist, <- Hs. rewrite <- list_fmap_compose.
  rewrite <- Hone. unfold np_mean. rewrite !length_fmap.
  cbn [fdiv of_nat fabs R_scalar].
  erewrite (list_fmap_ext _ (λ x, x * x * / (sigma d * sigma d))).
  - rewrite (np_sum_scale (/ (sigma d * sigma d)) (λ x, x * x)).
    field. split; [|done]. apply not_0_INR. done.
  - intros i x _. simpl.
    rewrite <- Rabs_mult, Rabs_right by nra. by field.
Qed.

End sigma_claim.

Section sigma_example.
Local Open Scope R_scope.

Lemma ex_R_column : column 0 ex_tcs_c_R = map IZR [1; -1; -1; 1]%Z.
Proof. reflexivity. Qed.

Lemma ex_R_line :
  lstsq_line (Polyfit := R_polyfit) ex_time_values_R (column 0 ex_tcs_c_R)
  = (0, 0).
Proof.
  rewrite ex_R_column. unfold lstsq_line, R_polyfit, ols_line.
  unfold np_sum, ex_time_values_R.
  cbn [map zip_with foldl length fadd fsub fmul fdiv f0 of_nat R_scalar INR].
  f_equal; field_simplify; lra.
Qed.

Lemma ex_R_normal_equations :
  normal_equations ex_time_values_R (column 0 ex_tcs_c_R)
    (lstsq_line (Polyfit := R_polyfit) ex_time_values_R (column 0 ex_tcs_c_R)).
Proof.
  rewrite ex_R_line, ex_R_column. unfold normal_equations, np_sum.
  unfold ex_time_values_R.
  cbn [map zip_with foldl fst snd fadd f0 R_scalar]. split; lra.
Qed.

Lemma ex_R_sigma : np_std (map IZR [1; -1; -1; 1]%Z) ≠ 0.
Proof.
  intros Hz.
  destruct (np_std_centred (map IZR [1; -1; -1; 1]%Z)) as [_ Hsq].
  - unfold np_sum. cbn [map foldl fadd f0 R_scalar]. lra.
  - done.
  - rewrite Hz in Hsq. revert Hsq. unfold np_mean, np_sum.
    cbn [map fmap list_fmap foldl length fadd fdiv f0 of_nat R_scalar INR].
    lra.
Qed.

End sigma_example.

Lemma baseline_sigma_normalises_witness :
  ∃ h1 d,
    tcs_baseline (Polyfit0 := R_polyfit) ex_tcs_c_R ex_time_values_R 2 []
    = (Ok [0], h1)
    ∧ h1 !! 0 = Some d
    ∧ (np_mean ((λ x, x * x) <$> line_point_distances (cumulative_tc d)
                  (np_polyval2 0 0 ex_time_values_R))
       / (sigma d * sigma d) = 1)%R
    ∧ np_mean ((λ x, (x * x)%R) <$> distances d) = 1%R.
Proof.
  destruct (tcs_baseline_returns (Polyfit0 := R_polyfit) ex_tcs_c_R
              ex_time_values_R 2%Z [])
    as (sources_tcs & h1 & Hrun);
    [split; [reflexivity | repeat constructor] | reflexivity | discriminate
    | reflexivity |].
  pose proof Hrun as Hrun'.
  apply tcs_baseline_Ok in Hrun' as (ds & -> & -> & Hlen & Hds).
  destruct ds as [|d [|??]]; try discriminate. clear Hlen.
  apply Forall2_cons_1 in Hds as [Hdict _].
  apply baseline_dict_Ok in Hdict as (_ & _ & Hcum & _ & _ & Hs & _).
  rewrite ex_R_line, ex_R_column in Hs. cbn [fst snd] in Hs.
  assert (line_point_distances (map IZR [1; -1; -1; 1]%Z)
            (np_polyval2 0%R 0%R ex_time_values_R)
          = map IZR [1; -1; -1; 1]%Z) as Hlpd.
  { unfold line_point_distances, np_polyval2, ex_time_values_R.
    cbn [map fmap list_fmap zip_with fadd fsub fmul f0 R_scalar].
    repeat f_equal; lra. }
  assert (sigma d ≠ 0%R) as Hsigma.
  { rewrite Hs, Hlpd. apply ex_R_sigma. }
  exists [d], d. split; [done|]. split; [done|].
  pose proof (baseline_sigma_normalises R_polyfit ex_tcs_c_R ex_time_values_R
                2%Z [] [0] [d] 0 0 d Hrun eq_refl eq_refl
                ex_R_normal_equations Hsigma) as Hthm.
  cbv zeta in Hthm. rewrite ex_R_line in Hthm. exact Hthm.
Defined.

(** ** The interferograms seen by the residual pipeline *)

Section orchestrator_claims.
Context {F : Type} `{!Scalar F, !Polyfit F, !LinalgInv F}.

Lemma cell_isub_scalar (v : F) (a : array2 F) i j :
  cell (isub_scalar v a) i j = (λ x, fsub x v) <$> cell a i j.
Proof.
  unfold cell, isub_scalar; simpl. rewrite list_lookup_fmap.
  destruct (rows a !! i) as [r|]; simpl; [|done].
  by rewrite list_lookup_fmap.
Qed.

Lemma read_dicts_Ok (refs : list nat) (w w' : world F) ds :
  read_dicts refs w = (Ok ds, w') →
  w' = w ∧ Forall2 (λ r d, w_heap w !! r = Some d) refs ds.
Proof.
  unfold read_dicts. intros [= Hds <-]. split; [done|].
  apply rmap_Ok in Hds. eapply Forall2_impl; [exact Hds|].
  simpl. intros r d. apply from_option_Ok.
Qed.

Lemma run_residual_for_pixels_Ok sources refs ifgs (w w' : world F) out :
  run_residual_for_pixels sources refs ifgs w = (Ok out, w') →
  w' = w
  ∧ ∃ ds, Forall2 (λ r d, w_heap w !! r = Some d) refs ds
          ∧ residual_for_pixels sources ds ifgs None = Ok out.
Proof.
  unfold run_residual_for_pixels. intros H.
  apply M_bind_Ok in H as (ds & w1 & Hds & H).
  apply read_dicts_Ok in Hds as [-> Hds].
  apply lift_Ok in H as [H ->]. eauto.
Qed.

(** C8. [bss_components_inversion] leaves its argument [interferograms]
    with the mean of all its entries subtracted from every entry.  In a
    call of [LiCSAlert] with monitoring interferograms that returns, both
    arrays of the caller end mean-centred; the residual of the baseline
    was computed by [residual_for_pixels] from the centred baseline array,
    and the residual over the full span from the stack of the two arrays
    as they were passed, before any centring. *)
Theorem LiCSAlert_residual_inputs :
  (∀ (sources interferograms : array2 F) cumulative i j x,
     cell interferograms i j = Some x →
     cell (bss_components_inversion sources interferograms cumulative).2 i j
     = Some (fsub x (np_mean2 interferograms)))
  ∧ (∀ (sources : array2 F) time_values t_recalc h ifgs_baseline
       ifgs_monitoring sources_tcs_monitor residual_tcs_monitor w',
     LiCSAlert sources time_values t_recalc
       (World h ifgs_baseline (Some ifgs_monitoring))
     = (Ok (sources_tcs_monitor, residual_tcs_monitor), w') →
     w_ifgs_baseline w'
     = isub_scalar (np_mean2 ifgs_baseline) ifgs_baseline
     ∧ w_ifgs_monitoring w'
       = Some (isub_scalar (np_mean2 ifgs_monitoring) ifgs_monitoring)
     ∧ ∃ ifgs_all sources_tcs residual_tcs h1 h2 h3 ds_b ds_m
         out_b out_m tcs_c s3 s4,
         np_vstack ifgs_baseline ifgs_monitoring = Ok ifgs_all
         ∧ Forall2 (λ r d, h1 !! r = Some d) sources_tcs ds_b
         ∧ residual_for_pixels sources ds_b
             (isub_scalar (np_mean2 ifgs_baseline) ifgs_baseline) None
           = Ok out_b
         ∧ tcs_baseline out_b.2
             (take (shape0 ifgs_baseline) time_values) t_recalc h1
           = (Ok residual_tcs, h2)
         ∧ tcs_monitoring tcs_c sources_tcs time_values false h2
           = (Ok sources_tcs_monitor, s3)
         ∧ h3 = mem_heap s3
         ∧ Forall2 (λ r d, h3 !! r = Some d) sources_tcs_monitor ds_m
         ∧ residual_for_pixels sources ds_m ifgs_all None = Ok out_m
         ∧ tcs_monitoring out_m.2 residual_tcs time_values true h3
           = (Ok residual_tcs_monitor, s4)
         ∧ w_heap w' = mem_heap s4).
Proof.
  split.
  - intros sources interferograms cumulative i j x Hx.
    unfold bss_components_inversion. simpl.
    by rewrite cell_isub_scalar, Hx.
  - intros sources time_values t_recalc h ifgs_baseline ifgs_monitoring
      sources_tcs_monitor residual_tcs_monitor w' Hrun.
    unfold LiCSAlert in Hrun.
    apply M_bind_Ok in Hrun as (w0 & w0' & [= <- <-] & Hrun).
    cbn [w_ifgs_baseline w_ifgs_monitoring] in Hrun.
    apply M_bind_Ok in Hrun as (ifgs_all & w1 & [Hall ->]%lift_Ok & Hrun).
    apply M_bind_Ok in Hrun as ([tcs_b r_b] & w1 & Hbss & Hrun).
    unfold bss_baseline, bss_components_inversion in Hbss.
    cbn [w_ifgs_baseline w_heap w_ifgs_monitoring] in Hbss.
    injection Hbss as Hbss <-.
    apply M_bind_Ok in Hrun as (sources_tcs & w2 & Hbase & Hrun).
    unfold run_tcs_baseline in Hbase. cbn [w_heap] in Hbase.
    destruct (tcs_baseline tcs_b _ _ h) as [o1 h1] eqn:Hb1.
    injection Hbase as -> <-.
    cbn [w_ifgs_baseline w_ifgs_monitoring] in Hrun.
    apply M_bind_Ok in Hrun as (w1 & w1' & [= <- <-] & Hrun).
    cbn [w_ifgs_baseline] in Hrun.
    apply M_bind_Ok in Hrun as ([rts_b rcb] & w2 & Hres & Hrun).
    apply run_residual_for_pixels_Ok in Hres as (-> & ds_b & Hds_b & Hres).
    cbn [w_heap] in Hds_b.
    apply M_bind_Ok in Hrun as (residual_tcs & w3 & Hbase2 & Hrun).
    unfold run_tcs_baseline in Hbase2. cbn [w_heap] in Hbase2.
    destruct (tcs_baseline rcb _ _ h1) as [o2 h2] eqn:Hb2.
    injection Hbase2 as -> <-.
    cbn [w_ifgs_baseline w_ifgs_monitoring] in Hrun.
    apply M_bind_Ok in Hrun as ([tcs_m r_m] & w4 & Hbssm & Hrun).
    unfold bss_monitoring, bss_components_inversion in Hbssm.
    cbn [w_ifgs_baseline w_heap] in Hbssm. injection Hbssm as Hbssm <-.
    apply M_bind_Ok in Hrun as (src_mon & w5 & Hmon & Hrun).
    unfold run_tcs_monitoring in Hmon. cbn [w_heap] in Hmon.
    destruct (tcs_monitoring tcs_m sources_tcs time_values false h2)
      as [o3 s3] eqn:Hm3.
    injection Hmon as -> <-.
    cbn [w_ifgs_baseline w_ifgs_monitoring] in Hrun.
    apply M_bind_Ok in Hrun as ([rts_m rcbm] & w6 & Hresm & Hrun).
    apply run_residual_for_pixels_Ok in Hresm as (-> & ds_m & Hds_m & Hresm).
    cbn [w_heap] in Hds_m.
    apply M_bind_Ok in Hrun as (res_mon & w7 & Hmon2 & Hrun).
    unfold run_tcs_monitoring in Hmon2. cbn [w_heap] in Hmon2.
    destruct (tcs_monitoring rcbm residual_tcs time_values true (mem_heap s3))
      as [o4 s4] eqn:Hm4.
    injection Hmon2 as -> <-.
    injection Hrun as <- <- <-.
    cbn [w_ifgs_baseline w_ifgs_monitoring w_heap].
    split; [done|]. split; [done|].
    exists ifgs_all, sources_tcs, residual_tcs, h1, h2, (mem_heap s3), ds_b,
      ds_m, (rts_b, rcb), (rts_m, rcbm), tcs_m, s3, s4.
    by split_and!.
Qed.

End orchestrator_claims.

Lemma ex_LiCSAlert_run :
  LiCSAlert (Polyfit0 := xq_polyfit) (LinalgInv0 := xq_linalg_inv)
    ex_sources ex_time_values 2
    (World [] ex_ifgs_baseline (Some ex_ifgs_monitoring))
  = (Ok ([2], [3]), snd ex_LiCSAlert).
Proof. vm_compute. reflexivity. Qed.

(** In the example the interferograms are exact multiples of the source
    once centred, so the residual of the baseline is zero throughout,
    while the residual over the full span, computed from the arrays as
    they were passed, grows by one at every step. *)
Lemma ex_LiCSAlert_residuals :
  cumulative_tc <$> w_heap (snd ex_LiCSAlert) !! 1
  = Some (map xq_of_Z [0; 0; 0; 0]%Z)
  ∧ cumulative_tc <$> w_heap (snd ex_LiCSAlert) !! 3
    = Some (map xq_of_Z [1; 2; 3; 4; 5; 6]%Z).
Proof. split; vm_compute; reflexivity. Qed.

Lemma LiCSAlert_residual_inputs_witness :
  cell (bss_components_inversion (LinalgInv0 := xq_linalg_inv) ex_sources
          ex_ifgs_baseline true).2 0 0
  = Some (fsub (xq_of_Z 2) (np_mean2 ex_ifgs_baseline))
  ∧ w_ifgs_baseline (snd ex_LiCSAlert)
    = isub_scalar (np_mean2 ex_ifgs_baseline) ex_ifgs_baseline
  ∧ w_ifgs_monitoring (snd ex_LiCSAlert)
    = Some (isub_scalar (np_mean2 ex_ifgs_monitoring) ex_ifgs_monitoring).
Proof.
  destruct (LiCSAlert_residual_inputs (F := xq) (Polyfit0 := xq_polyfit)
              (LinalgInv0 := xq_linalg_inv)) as [Hbss Hrun].
  split; [by apply Hbss|].
  destruct (Hrun ex_sources ex_time_values 2%Z [] ex_ifgs_baseline
              ex_ifgs_monitoring [2] [3] (snd ex_LiCSAlert) ex_LiCSAlert_run)
    as (Hb & Hm & _).
  by split.
Defined.

(** ** Arrays as tables of entries *)

Section tabulate_facts.
Context {F : Type} `{!Scalar F}.

Lemma wf_tabulate n p (f : nat → nat → F) : wf_array2 (tabulate n p f).
Proof.
  split; simpl; [by rewrite length_fmap, length_seq|].
  apply Forall_fmap, Forall_true. intros i. simpl.
  by rewrite length_fmap, length_seq.
Qed.

Lemma cell_tabulate n p (f : nat → nat → F) i j :
  i < n → j < p → cell (tabulate n p f) i j = Some (f i j).
Proof.
  intros Hi Hj. unfold cell, tabulate; simpl.
  rewrite list_lookup_fmap, (proj2 (lookup_seq 0 n i i)) by done. simpl.
  by rewrite list_lookup_fmap, (proj2 (lookup_seq 0 p j j)) by done.
Qed.

Lemma entry_tabulate n p (f : nat → nat → F) i j :
  i < n → j < p → entry (tabulate n p f) i j = f i j.
Proof. intros. unfold entry. by rewrite cell_tabulate. Qed.

Lemma tabulate_ext n p (f g : nat → nat → F) :
  (∀ i j, i < n → j < p → f i j = g i j) → tabulate n p f = tabulate n p g.
Proof.
  intros Hfg. unfold tabulate. f_equal.
  apply list_fmap_ext. intros k i Hi. apply lookup_seq in Hi as [-> Hi].
  apply list_fmap_ext. intros k' j Hj. apply lookup_seq in Hj as [-> Hj].
  by apply Hfg.
Qed.

(** A well-shaped array is the table of its entries. *)
Lemma tabulate_entry (a : array2 F) :
  wf_array2 a → a = tabulate (shape0 a) (shape1 a) (entry a).
Proof.
  destruct a as [n p rs]. intros [H0 H1]; simpl in *. unfold tabulate.
  f_equal. apply list_eq. intros i.
  rewrite list_lookup_fmap.
  destruct (decide (i < n)) as [Hi|Hi].
  - rewrite (proj2 (lookup_seq 0 n i i)) by done. simpl.
    destruct (lookup_lt_is_Some_2 rs i) as [r Hr]; [lia|]. rewrite Hr.
    f_equal. pose proof (Forall_lookup_1 _ _ _ _ H1 Hr) as Hl. simpl in Hl.
    apply list_eq. intros j. rewrite list_lookup_fmap.
    destruct (decide (j < p)) as [Hj|Hj].
    + rewrite (proj2 (lookup_seq 0 p j j)) by done. simpl.
      unfold entry, cell; simpl. rewrite Hr. simpl.
      destruct (lookup_lt_is_Some_2 r j) as [x Hx]; [lia|]. by rewrite Hx.
    + rewrite lookup_ge_None_2 by lia.
      by rewrite lookup_ge_None_2 by (rewrite length_seq; lia).
  - rewrite lookup_ge_None_2 by lia.
    by rewrite lookup_ge_None_2 by (rewrite length_seq; lia).
Qed.

Lemma column_tabulate n p (f : nat → nat → F) j :
  j < p → column j (tabulate n p f) = (λ i, f i j) <$> seq 0 n.
Proof.
  intros Hj. unfold column, tabulate; simpl.
  induction (seq 0 n) as [|i l IH]; csimpl; [done|].
  rewrite list_lookup_fmap, (proj2 (lookup_seq 0 p j j)) by done. simpl.
  by rewrite IH.
Qed.

Lemma matmul_Ok (a b c : array2 F) :
  matmul a b = Ok c →
  shape1 a = shape0 b
  ∧ c = tabulate (shape0 a) (shape1 b)
          (λ i j, np_sum ((λ k, fmul (entry a i k) (entry b k j))
                            <$> seq 0 (shape1 a))).
Proof.
  unfold matmul. intros H. apply rbind_Ok in H as ([] & Hg & H).
  apply guard_Ok, Nat.eqb_eq in Hg. by injection H as <-.
Qed.

Lemma matmul_run (a b : array2 F) :
  shape1 a = shape0 b →
  matmul a b
  = Ok (tabulate (shape0 a) (shape1 b)
          (λ i j, np_sum ((λ k, fmul (entry a i k) (entry b k j))
                            <$> seq 0 (shape1 a)))).
Proof. intros H. unfold matmul. by rewrite H, Nat.eqb_refl. Qed.

End tabulate_facts.

(** ** Finite sums *)

Section finite_sums.
Local Open Scope R_scope.

Lemma np_sum_app (l1 l2 : list R) : np_sum (l1 ++ l2) = np_sum l1 + np_sum l2.
Proof.
  induction l1 as [|x l1 IH]; simpl; [rewrite np_sum_nil; lra|].
  rewrite !np_sum_cons, IH. lra.
Qed.

Lemma Rsum_S n f : Rsum (S n) f = Rsum n f + f n.
Proof.
  unfold Rsum. rewrite seq_S, fmap_app, np_sum_app. simpl.
  rewrite np_sum_cons, np_sum_nil. lra.
Qed.

Lemma Rsum_ext n f g : (∀ i, (i < n)%nat → f i = g i) → Rsum n f = Rsum n g.
Proof.
  intros H. unfold Rsum. f_equal. apply list_fmap_ext.
  intros k i Hi. apply lookup_seq in Hi as [-> Hi]. by apply H.
Qed.

Lemma Rsum_zero n : Rsum n (λ _, 0) = 0.
Proof. induction n as [|n IH]; [done|]. rewrite Rsum_S, IH. lra. Qed.

Lemma Rsum_plus n f g : Rsum n (λ i, f i + g i) = Rsum n f + Rsum n g.
Proof.
  induction n as [|n IH]; [unfold Rsum; simpl; rewrite np_sum_nil; lra|].
  rewrite !Rsum_S, IH. lra.
Qed.

Lemma Rsum_mult_l n c f : Rsum n (λ i, c * f i) = c * Rsum n f.
Proof.
  induction n as [|n IH]; [unfold Rsum; simpl; rewrite np_sum_nil; lra|].
  rewrite !Rsum_S, IH. lra.
Qed.

Lemma Rsum_mult_r n c f : Rsum n (λ i, f i * c) = Rsum n f * c.
Proof.
  induction n as [|n IH]; [unfold Rsum; simpl; rewrite np_sum_nil; lra|].
  rewrite !Rsum_S, IH. lra.
Qed.

Lemma Rsum_exchange n m (f : nat → nat → R) :
  Rsum n (λ i, Rsum m (λ j, f i j)) = Rsum m (λ j, Rsum n (λ i, f i j)).
Proof.
  induction n as [|n IH].
  - unfold Rsum at 1 3. simpl. rewrite np_sum_nil.
    symmetry. apply Rsum_zero.
  - rewrite Rsum_S, IH, <- Rsum_plus. apply Rsum_ext. intros j _.
    by rewrite Rsum_S.
Qed.

Lemma Rsum_delta k a f :
  (a < k)%nat → Rsum k (λ b, f b * (if a =? b then 1 else 0)) = f a.
Proof.
  induction k as [|k IH]; intros Ha; [lia|]. rewrite Rsum_S.
  destruct (decide (a = k)) as [->|Hne].
  - rewrite Nat.eqb_refl.
    rewrite (Rsum_ext k _ (λ _, 0)), Rsum_zero; [lra|].
    intros b Hb. rewrite (proj2 (Nat.eqb_neq k b)) by lia. lra.
  - rewrite IH by lia. rewrite (proj2 (Nat.eqb_neq a k)) by done. lra.
Qed.

(** The sum of all the entries of a table. *)
Lemma np_sum_concat_tabulate n p (f : nat → nat → R) :
  np_sum (concat (rows (tabulate n p f))) = Rsum n (λ i, Rsum p (f i)).
Proof.
  unfold tabulate; simpl. unfold Rsum at 1.
  induction (seq 0 n) as [|i l IH]; csimpl; [done|].
  by rewrite np_sum_app, np_sum_cons, IH.
Qed.

End finite_sums.

(** ** The decomposer on exact combinations of the sources *)

Section decomposer_claim.
Context (L : LinalgInv R).
Local Open Scope R_scope.

(** With the inverse of the Gram matrix of the sources, the least-squares
    strengths of a combination of the sources are its coefficients. *)
Lemma gram_inverse_recovers k p (S gi src : nat → nat → R) a i :
  (a < k)%nat →
  (∀ b, (b < k)%nat →
     Rsum k (λ l, gi a l * Rsum p (λ j, src l j * src b j))
     = if a =? b then 1 else 0) →
  Rsum p (λ j, Rsum k (λ l, gi a l * src l j)
               * Rsum k (λ b, S i b * src b j))
  = S i a.
Proof.
  intros Ha Hinv.
  rewrite (Rsum_ext p _
             (λ j, Rsum k (λ b, Rsum k (λ l, gi a l * src l j)
                                * (S i b * src b j))))
    by (intros; by rewrite Rsum_mult_l).
  rewrite Rsum_exchange.
  rewrite (Rsum_ext k _ (λ b, S i b * (if a =? b then 1 else 0)));
    [by apply Rsum_delta|].
  intros b Hb. rewrite <- (Hinv b Hb), <- Rsum_mult_l.
  rewrite (Rsum_ext p _
             (λ j, Rsum k (λ l, gi a l * src l j * (S i b * src b j))))
    by (intros; by rewrite Rsum_mult_r).
  rewrite Rsum_exchange. apply Rsum_ext. intros l Hl.
  rewrite <- !Rsum_mult_l. apply Rsum_ext. intros j Hj. lra.
Qed.

Lemma isub_scalar_zero (a : array2 R) : isub_scalar 0 a = a.
Proof.
  destruct a as [n p rs]. unfold isub_scalar; simpl. f_equal.
  rewrite <- (list_fmap_id rs) at 2. apply list_fmap_ext. intros i r _.
  rewrite <- (list_fmap_id r) at 2. apply list_fmap_ext. intros j x _.
  simpl. lra.
Qed.

Lemma rows_entries (a : array2 R) i :
  wf_array2 a → (i < shape0 a)%nat →
  rows a !! i = Some (entry a i <$> seq 0 (shape1 a)).
Proof.
  intros Hwf Hi. rewrite (tabulate_entry a Hwf) at 1. simpl.
  by rewrite list_lookup_fmap, (proj2 (lookup_seq 0 _ i i)).
Qed.

Lemma pick_within (len i : nat) : (i < len)%nat → (if len =? 1 then 0 else i)%nat = i.
Proof. intros. destruct (Nat.eqb_spec len 1); lia. Qed.

Lemma np_cumsum0_zeros n :
  np_cumsum0 (Array2 n 1 (replicate n [0])) = Array2 n 1 (replicate n [0]).
Proof.
  unfold np_cumsum0; simpl. f_equal. destruct n as [|n]; [done|]. simpl.
  f_equal. induction n as [|n IH]; simpl; [done|].
  replace (0 + 0) with 0 by lra. by rewrite IH.
Qed.

(** C6. Over the reals, for mean-centred sources over at least one pixel
    whose Gram matrix [numpy.linalg.inv] inverts, and interferograms that
    are exactly [strengths @ sources]: [bss_components_inversion] returns,
    and its residual is zero at every time step (whether cumulative or
    not); the interferograms, whose mean is zero, are left as they were. *)
Theorem bss_exact_combination_residual_zero
    (sources strengths interferograms : array2 R) (cumulative : bool) :
  wf_array2 sources →
  mean_centred sources →
  (0 < shape1 sources)%nat →
  inverts_gram L sources →
  matmul strengths sources = Ok interferograms →
  ∃ m,
    bss_components_inversion sources interferograms cumulative
    = (Ok (m, Array2 (shape0 interferograms) 1
                (replicate (shape0 interferograms) [0])),
       interferograms).
Proof.
  intros Hwf Hmean Hpix Hinv Hcomb.
  apply matmul_Ok in Hcomb as [Hk ->].
  set (n := shape0 strengths). set (k := shape0 sources) in *.
  set (p := shape1 sources) in *.
  set (S := entry strengths). set (src := entry sources).
  fold k in Hk. rewrite Hk.
  set (X := λ i j, np_sum ((λ b, fmul (S i b) (src b j)) <$> seq 0 k)).
  change (tabulate n p _) with (tabulate n p X).
  assert (∀ b, (b < k)%nat → Rsum p (src b) = 0) as Hsrc.
  { intros b Hb. pose proof (rows_entries sources b Hwf Hb) as Hr.
    apply (Forall_lookup_1 _ _ _ _ Hmean Hr). }
  (* the mean of all the entries is zero *)
  assert (np_mean2 (tabulate n p X) = 0) as Hmu.
  { unfold np_mean2, np_mean. rewrite np_sum_concat_tabulate.
    rewrite (Rsum_ext n _ (λ _, 0)).
    - rewrite Rsum_zero. simpl. unfold Rdiv. lra.
    - intros i Hi.
      change (Rsum p (λ j, Rsum k (λ b, S i b * src b j)) = 0).
      rewrite Rsum_exchange.
      rewrite (Rsum_ext k _ (λ _, 0)); [apply Rsum_zero|].
      intros b Hb. rewrite Rsum_mult_l, Hsrc by done. lra. }
  unfold bss_components_inversion. rewrite Hmu, isub_scalar_zero.
  unfold bss_inversion.
  cbn [shape0 shape1 tabulate].
  change (Array2 n p _) with (tabulate n p X).
  (* g.T @ g and its inverse *)
  set (g := np_T sources).
  assert (shape0 g = p ∧ shape1 g = k) as [Hg0 Hg1] by done.
  assert (∀ j b, (j < p)%nat → (b < k)%nat → entry g j b = src b j) as Hg.
  { intros j b Hj Hb. unfold g, np_T. by rewrite entry_tabulate. }
  assert (∀ b j, (b < k)%nat → (j < p)%nat → entry (np_T g) b j = src b j)
    as Hgt.
  { intros b j Hb Hj. unfold np_T at 1. rewrite Hg0, Hg1.
    rewrite entry_tabulate by done. by apply Hg. }
  rewrite (matmul_run (np_T g) g) by done.
  cbn [mbind result_bind].
  destruct (Hinv _ (matmul_run (np_T g) g eq_refl))
    as (gi & Hgi & Hwfgi & Hid).
  rewrite Hgi. cbn [mbind result_bind].
  apply matmul_Ok in Hid as [Hgik Hid]. cbn [shape0 shape1 tabulate] in Hgik.
  unfold identity_matrix in Hid. fold k in Hid.
  assert (shape0 gi = k) as Hgi0.
  { apply (f_equal shape0) in Hid. simpl in Hid. done. }
  rewrite Hgi0, Hgik in Hid. cbn [shape0 shape1 tabulate] in Hid.
  change (Array2 k k _ = Array2 k k _)
    with (tabulate k k (λ i j, if i =? j then 1 else 0)
          = tabulate k k
              (λ i j, np_sum ((λ l, fmul (entry gi i l)
                  (entry (tabulate k k
                     (λ i0 j0, np_sum ((λ k0, fmul (entry (np_T g) i0 k0)
                                             (entry g k0 j0))
                                         <$> seq 0 (shape1 (np_T g))))) l j))
                <$> seq 0 k))) in Hid.
  assert (∀ a b, (a < k)%nat → (b < k)%nat →
            Rsum k (λ l, entry gi a l * Rsum p (λ j, src l j * src b j))
            = if a =? b then 1 else 0) as Hdelta.
  { intros a b Ha Hb.
    apply (f_equal (λ t, entry t a b)) in Hid.
    rewrite !entry_tabulate in Hid by done. rewrite Hid.
    apply Rsum_ext. intros l Hl. rewrite entry_tabulate by done.
    f_equal. change (shape1 (np_T g)) with p.
    apply Rsum_ext. intros j Hj. simpl. by rewrite Hgt, Hg. }
  (* the strengths *)
  rewrite (matmul_run gi (np_T g)) by (by rewrite Hgik).
  cbn [mbind result_bind]. rewrite Hgi0, Hgik.
  set (m1 := tabulate k (shape1 (np_T g)) _).
  set (d := np_T (tabulate n p X)).
  rewrite (matmul_run m1 d) by done. cbn [mbind result_bind].
  set (m := tabulate (shape0 m1) (shape1 d) _).
  rewrite (matmul_run g m) by done. cbn [mbind result_bind].
  set (d_hat := tabulate (shape0 g) (shape1 m) _).
  assert (∀ j i, (j < p)%nat → (i < n)%nat → entry d j i = X i j) as Hd.
  { intros j i Hj Hi. unfold d, np_T. cbn [shape0 shape1 tabulate].
    change (Array2 n p _) with (tabulate n p X).
    by rewrite !entry_tabulate. }
  assert (∀ a i, (a < k)%nat → (i < n)%nat → entry m a i = S i a) as Hm.
  { intros a i Ha Hi. unfold m. rewrite entry_tabulate by done.
    change (shape1 m1) with p.
    rewrite <- (gram_inverse_recovers k p S (entry gi) src a i Ha
                  (λ b Hb, Hdelta a b Ha Hb)).
    apply Rsum_ext. intros j Hj. simpl. rewrite Hd by done.
    f_equal. unfold m1. rewrite entry_tabulate by done.
    change (shape0 (np_T g)) with k. apply Rsum_ext. intros l Hl. simpl. by rewrite Hgt. }
  assert (∀ j i, (j < p)%nat → (i < n)%nat → entry d_hat j i = X i j) as Hdh.
  { intros j i Hj Hi. unfold d_hat. rewrite entry_tabulate by done.
    rewrite Hg1. unfold X. apply Rsum_ext. intros a Ha. simpl.
    rewrite Hg, Hm by done. lra. }
  unfold np_sub2.
  cbn [shape0 shape1 d d_hat tabulate np_T m m1].
  unfold broadcast_dim. rewrite !Nat.eqb_refl. cbn [mbind result_bind].
  fold k.
  match goal with
  | |- context [column _ ?t] =>
      assert (t = tabulate p n (λ _ _, 0)) as ->
  end.
  { apply tabulate_ext. intros j i Hj Hi.
    rewrite !pick_within by done.
    change (entry d j i - entry d_hat j i = 0).
    rewrite Hd, Hdh by done. lra. }
  assert ((λ i : nat,
             fdiv (fsqrt (np_sum ((λ x : R, fmul x x)
                            <$> column i (tabulate p n (λ _ _ : nat, 0)))))
               (of_nat p)) <$> seq 0 n
          = replicate n 0) as Hres.
  { apply list_eq. intros i. rewrite list_lookup_fmap.
    destruct (decide (i < n)%nat) as [Hi|Hi].
    - rewrite (proj2 (lookup_seq 0 n i i)), lookup_replicate_2 by done.
      simpl. f_equal. rewrite column_tabulate by done.
      rewrite <- list_fmap_compose.
      change (np_sum _) with (Rsum p (λ _, 0 * 0)).
      rewrite (Rsum_ext p _ (λ _, 0)) by (intros; lra).
      rewrite Rsum_zero, sqrt_0. unfold Rdiv. lra.
    - rewrite lookup_ge_None_2 by (rewrite length_seq; lia).
      by rewrite lookup_ge_None_2 by (rewrite length_replicate; lia). }
  rewrite Hres. unfold column_vector.
  rewrite length_replicate, fmap_replicate.
  destruct cumulative; [rewrite np_cumsum0_zeros|]; eauto.
Qed.

End decomposer_claim.

Section decomposer_example.
Local Open Scope R_scope.

Lemma ex_R_gram :
  matmul (np_T (np_T ex_sources_R)) (np_T ex_sources_R)
  = Ok (Array2 1 1 [[0 + 1 * 1 + -1 * -1]]).
Proof. reflexivity. Qed.

Lemma ex_R_inverts_gram : inverts_gram R_inv_1x1 ex_sources_R.
Proof.
  intros gtg Hgtg. rewrite ex_R_gram in Hgtg. injection Hgtg as <-.
  exists (Array2 1 1 [[/ (0 + 1 * 1 + -1 * -1)]]). split_and!.
  - reflexivity.
  - split; [reflexivity | repeat constructor].
  - unfold matmul, identity_matrix, tabulate, np_sum, entry, cell.
    cbn. repeat f_equal. field.
Qed.

Lemma ex_R_mean_centred : mean_centred ex_sources_R.
Proof.
  unfold mean_centred, ex_sources_R, np_sum. cbn.
  constructor; [simpl; lra | constructor].
Qed.

End decomposer_example.

Lemma bss_exact_combination_residual_zero_witness :
  matmul ex_strengths_R ex_sources_R = Ok ex_ifgs_R
  ∧ ∃ m,
      bss_components_inversion (LinalgInv0 := R_inv_1x1) ex_sources_R
        ex_ifgs_R true
      = (Ok (m, Array2 2 1 [[0%R]; [0%R]]), ex_ifgs_R).
Proof.
  split; [reflexivity|].
  apply (bss_exact_combination_residual_zero R_inv_1x1 ex_sources_R
           ex_strengths_R ex_ifgs_R true).
  - split; [reflexivity | repeat constructor].
  - exact ex_R_mean_centred.
  - simpl. lia.
  - exact ex_R_inverts_gram.
  - reflexivity.
Defined.

(** * Further properties of the code *)

(** ** Shapes and the baseline part of an extended state *)

Section extender_shapes.
Context {F : Type} `{!Scalar F}.
Implicit Types (a : array2 F) (d : tc_dict F).

Lemma monitoring_steps_baseline t_recalc time_values n_b m d1 d' :
  rfold (monitoring_step t_recalc time_values) d1 (seq n_b m) = Ok d' →
  wf_array2 (lines d1) →
  wf_array2 (lines d')
  ∧ shape0 (lines d') = shape0 (lines d1)
  ∧ shape1 (lines d') = shape1 (lines d1)
  ∧ (∀ i j, j < n_b → cell (lines d') i j = cell (lines d1) i j)
  ∧ (∀ t, t < n_b → distances d' !! t = distances d1 !! t).
Proof.
  intros Hrun Hwf1.
  pose proof (rfold_invariant
    (λ (_ : nat) x, wf_array2 (lines x)
            ∧ shape0 (lines x) = shape0 (lines d1)
            ∧ shape1 (lines x) = shape1 (lines d1)
            ∧ (∀ i j, j < n_b → cell (lines x) i j = cell (lines d1) i j)
            ∧ (∀ t, t < n_b → distances x !! t = distances d1 !! t))
    _ _ _ _ Hrun) as Hinv.
  apply Hinv; [by split_and!|].
  intros k x a0 a' Hx (Hwf & Hs0 & Hs1 & Hcells & Hdist) Hstep.
  apply lookup_seq in Hx as [-> Hk].
  unfold monitoring_step in Hstep.
  apply rbind_Ok in Hstep as (lines' & Hassign & Hstep).
  apply rbind_Ok in Hstep as (c & _ & Hstep).
  apply rbind_Ok in Hstep as (y & _ & Hstep).
  apply rbind_Ok in Hstep as ([] & _ & Hstep). injection Hstep as <-.
  simpl.
  pose proof (assign_col_slice_shape _ _ _ _ _ _ Hassign) as (Hs0a & Hs1a & _).
  split_and!; [by eapply assign_col_slice_wf | congruence..| |].
  - intros i j Hj.
    rewrite (assign_col_slice_other _ _ _ _ _ _ i j Hassign) by (left; lia).
    by apply Hcells.
  - intros t Ht. rewrite list_lookup_insert_ne by lia. by apply Hdist.
Qed.

(** The padded and filled state of one source: the shapes grow by the
    number of monitoring steps, and what the baseline wrote stays. *)
Lemma monitoring_lines_baseline t_recalc n_b n_m time_values d d' :
  monitoring_lines t_recalc n_b n_m time_values d = Ok d' →
  wf_array2 (lines d) →
  (0 ≤ n_m)%Z
  ∧ wf_array2 (lines d')
  ∧ shape0 (lines d') = shape0 (lines d) + Z.to_nat n_m
  ∧ shape1 (lines d') = shape1 (lines d) + Z.to_nat n_m
  ∧ length (distances d') = length (distances d) + Z.to_nat n_m
  ∧ (∀ i j, i < shape0 (lines d) → j < shape1 (lines d) → j < n_b →
       cell (lines d') i j = cell (lines d) i j)
  ∧ (∀ t, t < n_b → t < length (distances d) →
       distances d' !! t = distances d !! t).
Proof.
  intros H Hwf.
  pose proof (monitoring_lines_fields _ _ _ _ _ _ H) as (_ & _ & Hlen).
  unfold monitoring_lines in H.
  apply rbind_Ok in H as (lines1 & Hpad & H).
  apply rbind_Ok in H as (dist1 & Hpadc & H).
  pose proof (np_pad2_wf _ _ _ _ Hpad Hwf) as Hwf1.
  pose proof (λ i j, np_pad2_cell _ _ _ _ i j Hpad Hwf) as Hcell1.
  apply np_pad2_Ok in Hpad as [Hm Hl1].
  assert (shape0 lines1 = shape0 (lines d) + Z.to_nat n_m
          ∧ shape1 lines1 = shape1 (lines d) + Z.to_nat n_m) as [Hs01 Hs11].
  { by rewrite Hl1. }
  unfold np_pad_col in Hpadc.
  apply rbind_Ok in Hpadc as ([] & _ & [= <-]).
  apply monitoring_steps_baseline in H as (Hwf' & Hs0' & Hs1' & Hcells & Hdist);
    [|done]. simpl in *.
  split_and!; [done | done | congruence.. | done | |].
  - intros i j Hi Hj Hjb. rewrite Hcells by done.
    rewrite Hcell1 by lia. by rewrite decide_True.
  - intros t Ht Htl. rewrite Hdist by done. by rewrite lookup_app_l.
Qed.

Lemma source_new_tc_length residual (tcs_c : array2 F) n d new_tc :
  source_new_tc residual tcs_c n d = Ok new_tc →
  wf_array2 tcs_c →
  n < shape1 tcs_c
  ∧ length new_tc
    = (if residual then 0 else length (cumulative_tc d)) + shape0 tcs_c
  ∧ (residual = false →
     cumulative_tc d ≠ [] ∧ take (length (cumulative_tc d)) new_tc = cumulative_tc d).
Proof.
  unfold source_new_tc, np_col. intros H Hwf. destruct residual.
  - apply rbind_Ok in H as ([] & Hg%guard_Ok & [= <-]).
    apply Nat.ltb_lt in Hg. rewrite length_column by done. done.
  - apply rbind_Ok in H as ([] & Hg%guard_Ok & H).
    apply rbind_Ok in H as (v & Hv & [= <-]).
    apply Nat.ltb_lt in Hg.
    rewrite length_app, length_fmap, length_column by done.
    split_and!; [done..|]. intros _. split.
    + intros Hnil. rewrite Hnil in Hv. done.
    + by rewrite take_app_length.
Qed.

(** X1. The lengths of an extended state.  When [tcs_monitoring] returns,
    the state of every source whose baseline state was well shaped (a
    square matrix of lines and a list of distances as long as the
    baseline) holds a cumulative time course, a square matrix of lines and
    a list of distances of one common length: the baseline length plus the
    rows of [tcs_c] in per-source mode, the rows of [tcs_c] in residual
    mode. *)
Theorem tcs_monitoring_lengths (tcs_c : array2 F) sources_tcs time_values
    residual h refs' s' r0 d0 n r d :
  tcs_monitoring tcs_c sources_tcs time_values residual h = (Ok refs', s') →
  NoDup sources_tcs →
  Forall (λ r, r < length h) sources_tcs →
  wf_array2 tcs_c →
  sources_tcs !! 0 = Some r0 → h !! r0 = Some d0 →
  sources_tcs !! n = Some r → h !! r = Some d →
  length (cumulative_tc d) = length (cumulative_tc d0) →
  wf_array2 (lines d) →
  shape0 (lines d) = length (cumulative_tc d0) →
  shape1 (lines d) = length (cumulative_tc d0) →
  length (distances d) = length (cumulative_tc d0) →
  ∃ r' d',
    refs' !! n = Some r' ∧ mem_heap s' !! r' = Some d'
    ∧ let n_times :=
        if residual then shape0 tcs_c
        else length (cumulative_tc d0) + shape0 tcs_c in
      length (cumulative_tc d') = n_times
      ∧ wf_array2 (lines d')
      ∧ shape0 (lines d') = n_times
      ∧ shape1 (lines d') = n_times
      ∧ length (distances d') = n_times.
Proof.
  intros Hrun Hnd Hvalid Hwfc Hr0 Hd0 Hr Hd Hcum Hwf Hs0 Hs1 Hdist.
  destruct (tcs_monitoring_source _ _ _ _ _ _ _ Hrun Hnd Hvalid)
    as (r0' & d0' & Hr0' & Hd0' & _ & Hsrc).
  assert (r0' = r0) as -> by congruence.
  assert (d0' = d0) as -> by congruence.
  destruct (Hsrc n r d Hr Hd) as (d' & Hr' & Hd' & Hres).
  exists (length h + n), d'. split; [done|]. split; [done|].
  unfold source_result in Hres.
  apply rbind_Ok in Hres as (new_tc & Hnew & Hres).
  pose proof (monitoring_lines_fields _ _ _ _ _ _ Hres) as (Hc' & _ & _).
  apply monitoring_lines_baseline in Hres
    as (Hm & Hwf' & Hs0' & Hs1' & Hdist' & _); [|done].
  apply source_new_tc_length in Hnew as (_ & Hlen & _); [|done].
  simpl in *. rewrite Hc', Hs0', Hs1', Hdist', Hlen, Hs0, Hs1, Hdist.
  unfold n_times_monitor_of in *.
  destruct residual; split_and!; try done; lia.
Qed.

(** X2. What the baseline computed is not altered by the extension.  When
    [tcs_monitoring] returns, the state of every source has, below the
    baseline length, the entries of the matrix of lines and the distances
    of its baseline state; in per-source mode its cumulative time course
    starts with the baseline one. *)
Theorem tcs_monitoring_baseline_part (tcs_c : array2 F) sources_tcs time_values
    residual h refs' s' r0 d0 n r d :
  tcs_monitoring tcs_c sources_tcs time_values residual h = (Ok refs', s') →
  NoDup sources_tcs →
  Forall (λ r, r < length h) sources_tcs →
  wf_array2 tcs_c →
  sources_tcs !! 0 = Some r0 → h !! r0 = Some d0 →
  sources_tcs !! n = Some r → h !! r = Some d →
  wf_array2 (lines d) →
  ∃ r' d',
    refs' !! n = Some r' ∧ mem_heap s' !! r' = Some d'
    ∧ (∀ i j, i < shape0 (lines d) → j < shape1 (lines d) →
         j < length (cumulative_tc d0) →
         cell (lines d') i j = cell (lines d) i j)
    ∧ (∀ t, t < length (distances d) → t < length (cumulative_tc d0) →
         distances d' !! t = distances d !! t)
    ∧ (residual = false →
       take (length (cumulative_tc d)) (cumulative_tc d') = cumulative_tc d).
Proof.
  intros Hrun Hnd Hvalid Hwfc Hr0 Hd0 Hr Hd Hwf.
  destruct (tcs_monitoring_source _ _ _ _ _ _ _ Hrun Hnd Hvalid)
    as (r0' & d0' & Hr0' & Hd0' & _ & Hsrc).
  assert (r0' = r0) as -> by congruence.
  assert (d0' = d0) as -> by congruence.
  destruct (Hsrc n r d Hr Hd) as (d' & Hr' & Hd' & Hres).
  exists (length h + n), d'. split; [done|]. split; [done|].
  unfold source_result in Hres.
  apply rbind_Ok in Hres as (new_tc & Hnew & Hres).
  pose proof (monitoring_lines_fields _ _ _ _ _ _ Hres) as (Hc' & _ & _).
  apply monitoring_lines_baseline in Hres
    as (_ & _ & _ & _ & _ & Hcells & Hdists); [|done].
  apply source_new_tc_length in Hnew as (_ & _ & Hpre); [|done].
  simpl in *. split_and!.
  - intros i j Hi Hj Hjb. by apply Hcells.
  - intros t Ht Htb. by apply Hdists.
  - intros Hres. rewrite Hc'. by apply Hpre.
Qed.

(** X3. What [tcs_monitoring] refuses.  On an empty list of states it
    raises IndexError and leaves the store as it was.  A call that returns
    was given at least one state, an array [tcs_c] with a column for every
    state, and, in residual mode, at least as many rows as the baseline is
    long; in per-source mode no baseline time course was empty. *)
Theorem tcs_monitoring_requires (tcs_c : array2 F) time_values residual h :
  tcs_monitoring tcs_c [] time_values residual h
  = (Raise IndexError, Mem tcs_c h)
  ∧ ∀ sources_tcs refs' s',
      tcs_monitoring tcs_c sources_tcs time_values residual h = (Ok refs', s') →
      NoDup sources_tcs →
      Forall (λ r, r < length h) sources_tcs →
      wf_array2 tcs_c →
      ∃ r0 d0,
        sources_tcs !! 0 = Some r0 ∧ h !! r0 = Some d0
        ∧ length sources_tcs ≤ shape1 tcs_c
        ∧ if residual then length (cumulative_tc d0) ≤ shape0 tcs_c
          else ∀ r d, r ∈ sources_tcs → h !! r = Some d → cumulative_tc d ≠ [].
Proof.
  split; [done|].
  intros sources_tcs refs' s' Hrun Hnd Hvalid Hwfc.
  destruct (tcs_monitoring_source _ _ _ _ _ _ _ Hrun Hnd Hvalid)
    as (r0 & d0 & Hr0 & Hd0 & _ & Hsrc).
  exists r0, d0. split; [done|]. split; [done|].
  assert (∀ n r d, sources_tcs !! n = Some r → h !! r = Some d →
            n < shape1 tcs_c
            ∧ (0 ≤ n_times_monitor_of residual tcs_c
                     (length (cumulative_tc d0)))%Z
            ∧ (residual = false → cumulative_tc d ≠ [])) as Hall.
  { intros n r d Hr Hd.
    destruct (Hsrc n r d Hr Hd) as (d' & _ & _ & Hres).
    unfold source_result in Hres.
    apply rbind_Ok in Hres as (new_tc & Hnew & Hres).
    unfold monitoring_lines in Hres.
    apply rbind_Ok in Hres as (lines1 & Hpad & _).
    apply np_pad2_Ok in Hpad as [Hm _].
    apply source_new_tc_length in Hnew as (Hn & _ & Hne); [|done].
    split_and!; [done..|]. intros Hr'. by apply Hne. }
  split.
  - destruct (decide (length sources_tcs ≤ shape1 tcs_c)) as [|Hgt]; [done|].
    destruct (lookup_lt_is_Some_2 sources_tcs (shape1 tcs_c)) as [r Hr]; [lia|].
    pose proof (Forall_lookup_1 _ _ _ _ Hvalid Hr) as Hlt. simpl in Hlt.
    destruct (lookup_lt_is_Some_2 h r Hlt) as [d Hd].
    destruct (Hall _ _ _ Hr Hd) as (Hn & _). lia.
  - destruct (Hall _ _ _ Hr0 Hd0) as (_ & Hm & _).
    unfold n_times_monitor_of in Hm. destruct residual; [lia|].
    intros r d [n Hr]%list_elem_of_lookup_1 Hd.
    destruct (Hall _ _ _ Hr Hd) as (_ & _ & Hne). by apply Hne.
Qed.

End extender_shapes.

Lemma ex_tcs_c_monitoring_wf : wf_array2 ex_tcs_c_monitoring.
Proof. split; [reflexivity | repeat constructor]. Qed.

Lemma tcs_monitoring_lengths_witness :
  ∃ r' d',
    [2; 3] !! 1 = Some r' ∧ mem_heap (snd ex_monitoring) !! r' = Some d'
    ∧ length (cumulative_tc d') = 6
    ∧ wf_array2 (lines d')
    ∧ shape0 (lines d') = 6
    ∧ shape1 (lines d') = 6
    ∧ length (distances d') = 6.
Proof.
  destruct (ex_heap !! 0) as [d0|] eqn:Hd0; [|vm_compute in Hd0; discriminate].
  destruct (ex_heap !! 1) as [d|] eqn:Hd; [|vm_compute in Hd; discriminate].
  assert (length (cumulative_tc d0) = 4) as Hn.
  { vm_compute in Hd0. injection Hd0 as <-. reflexivity. }
  assert (length (cumulative_tc d) = 4 ∧ wf_array2 (lines d)
          ∧ shape0 (lines d) = 4 ∧ shape1 (lines d) = 4
          ∧ length (distances d) = 4) as (Hc & Hwf & Hs0 & Hs1 & Hdist).
  { vm_compute in Hd. injection Hd as <-.
    split_and!; try reflexivity. split; [reflexivity | repeat constructor]. }
  pose proof (tcs_monitoring_lengths ex_tcs_c_monitoring [0; 1] ex_time_values
                false ex_heap [2; 3] (snd ex_monitoring) 0 d0 1 1 d
                ex_monitoring_run ex_sources_distinct ex_sources_valid
                ex_tcs_c_monitoring_wf eq_refl Hd0 eq_refl Hd) as Hthm.
  rewrite Hn in Hthm. exact (Hthm Hc Hwf Hs0 Hs1 Hdist).
Defined.

Lemma tcs_monitoring_baseline_part_witness :
  ∃ d, ex_heap !! 1 = Some d
  ∧ ∃ r' d',
    [2; 3] !! 1 = Some r' ∧ mem_heap (snd ex_monitoring) !! r' = Some d'
    ∧ (∀ i j, i < shape0 (lines d) → j < shape1 (lines d) → j < 4 →
         cell (lines d') i j = cell (lines d) i j)
    ∧ (∀ t, t < length (distances d) → t < 4 →
         distances d' !! t = distances d !! t)
    ∧ (false = false →
       take (length (cumulative_tc d)) (cumulative_tc d') = cumulative_tc d).
Proof.
  destruct (ex_heap !! 0) as [d0|] eqn:Hd0; [|vm_compute in Hd0; discriminate].
  destruct (ex_heap !! 1) as [d|] eqn:Hd; [|vm_compute in Hd; discriminate].
  assert (length (cumulative_tc d0) = 4) as Hn.
  { vm_compute in Hd0. injection Hd0 as <-. reflexivity. }
  assert (wf_array2 (lines d)) as Hwf.
  { vm_compute in Hd. injection Hd as <-.
    split; [reflexivity | repeat constructor]. }
  exists d. split; [reflexivity|]. rewrite <- Hn.
  exact (tcs_monitoring_baseline_part ex_tcs_c_monitoring [0; 1] ex_time_values
           false ex_heap [2; 3] (snd ex_monitoring) 0 d0 1 1 d
           ex_monitoring_run ex_sources_distinct ex_sources_valid
           ex_tcs_c_monitoring_wf eq_refl Hd0 eq_refl Hd Hwf).
Defined.

Lemma tcs_monitoring_requires_witness :
  ∃ r0 d0,
    [0; 1] !! 0 = Some r0 ∧ ex_heap !! r0 = Some d0
    ∧ length [0; 1] ≤ shape1 ex_tcs_c_monitoring
    ∧ ∀ r d, r ∈ [0; 1] → ex_heap !! r = Some d → cumulative_tc d ≠ [].
Proof.
  exact (proj2 (tcs_monitoring_requires ex_tcs_c_monitoring ex_time_values
                  false ex_heap)
           [0; 1] [2; 3] (snd ex_monitoring)
           ex_monitoring_run ex_sources_distinct ex_sources_valid
           ex_tcs_c_monitoring_wf).
Defined.

(** ** The states the trend tracker builds *)

Lemma py_slice_lookup {A} (start stop : Z) (l : list A) i :
  slice_index start (length l) ≤ i < slice_index stop (length l) →
  py_slice start stop l !! (i - slice_index start (length l)) = l !! i.
Proof.
  intros Hi. unfold py_slice.
  rewrite lookup_take_lt by lia. rewrite lookup_drop. f_equal. lia.
Qed.

Section tracker_states.
Context {F : Type} `{!Scalar F, !Polyfit F}.
Implicit Types (a : array2 F) (d : tc_dict F).

Lemma baseline_lines_inside n t_recalc (line_yvals : list F) a :
  baseline_lines n t_recalc line_yvals = Ok a →
  length line_yvals = n →
  ∀ i j, j < n →
    (baseline_window_start t_recalc j ≤ Z.of_nat i ≤ Z.of_nat j)%Z →
    cell a i j = line_yvals !! i.
Proof.
  unfold baseline_lines. intros Hrun Hlen.
  pose proof (rfold_invariant
    (λ k a, wf_array2 a ∧ shape0 a = n ∧ shape1 a = n
            ∧ ∀ i j, j < k →
                (baseline_window_start t_recalc j ≤ Z.of_nat i ≤ Z.of_nat j)%Z →
                cell a i j = line_yvals !! i) _ _ _ _ Hrun) as Hinv.
  rewrite length_seq in Hinv.
  destruct Hinv as (Hwf & Hs0 & Hs1 & Hcells).
  - split_and!; [apply wf_nan_matrix | done..|]. intros i j Hj. lia.
  - intros k x a0 a' Hx (Hwf & Hs0 & Hs1 & Hcells) Hstep.
    apply lookup_seq in Hx as [-> Hk]. simpl in Hk.
    unfold baseline_lines_step in Hstep. change (0 + k) with k in Hstep.
    pose proof (assign_col_slice_shape _ _ _ _ _ _ Hstep) as (Hs0' & Hs1' & _).
    split_and!; [by eapply assign_col_slice_wf | congruence..|].
    intros i j Hj Hwin. change (0 + k) with k.
    destruct (decide (j = k)) as [->|Hne].
    + unfold baseline_window_start in Hwin.
      set (start := if (Z.of_nat k - (t_recalc - 1) <? 0)%Z then 0%Z
                    else (Z.of_nat k - (t_recalc - 1))%Z) in *.
      assert (slice_index start n ≤ i < slice_index (Z.of_nat k + 1) n) as Hi.
      { rewrite slice_index_succ. subst start.
        destruct (Z.ltb_spec (Z.of_nat k - (t_recalc - 1)) 0);
          rewrite slice_index_nonneg by lia; lia. }
      rewrite (assign_col_slice_inside _ _ _ _ _ _ i Hstep Hwf).
      * rewrite Hs0, <- Hlen. rewrite <- Hlen in Hi.
        by apply py_slice_lookup.
      * by rewrite length_py_slice, Hlen, Hs0.
      * by rewrite Hs0.
    + rewrite (assign_col_slice_other _ _ _ _ _ _ i j Hstep) by (by left).
      apply Hcells; [lia | done].
  - intros i j Hj. by apply Hcells.
Qed.

(** X4. The states [tcs_baseline] builds.  A call that returns on a
    rectangular array was given as many time values as the array has rows;
    it leaves the dictionaries of the heap as they were and adds one state
    per column, holding that column as cumulative time course, a square
    matrix of lines and a list of distances of that length, and the
    [t_recalculate] it was given. *)
Theorem tcs_baseline_states (tcs_c : array2 F) time_values t_recalc h
    sources_tcs h1 :
  tcs_baseline tcs_c time_values t_recalc h = (Ok sources_tcs, h1) →
  wf_array2 tcs_c →
  length sources_tcs = shape1 tcs_c
  ∧ (∀ r d, h !! r = Some d → h1 !! r = Some d)
  ∧ ∀ n, n < shape1 tcs_c →
      ∃ d, sources_tcs !! n = Some (length h + n)
           ∧ h1 !! (length h + n) = Some d
           ∧ length time_values = shape0 tcs_c
           ∧ cumulative_tc d = column n tcs_c
           ∧ length (cumulative_tc d) = shape0 tcs_c
           ∧ wf_array2 (lines d)
           ∧ shape0 (lines d) = shape0 tcs_c
           ∧ shape1 (lines d) = shape0 tcs_c
           ∧ length (distances d) = shape0 tcs_c
           ∧ t_recalculate d = t_recalc.
Proof.
  intros Hrun Hwf.
  apply tcs_baseline_Ok in Hrun as (ds & -> & -> & Hlen & Hds).
  split; [by rewrite length_seq|]. split.
  { intros r d Hr. by apply lookup_app_l_Some. }
  intros n Hn.
  destruct (lookup_lt_is_Some_2 ds n) as [d Hd]; [lia|].
  assert (seq 0 (shape1 tcs_c) !! n = Some n) as Hseq.
  { apply lookup_seq. split; [done | lia]. }
  pose proof (Forall2_lookup_lr _ _ _ _ _ _ Hds Hseq Hd) as Hdict.
  apply baseline_dict_Ok in Hdict
    as (_ & Htv & Hcum & _ & Hlines & _ & Hdist & Ht).
  pose proof (length_column n tcs_c Hwf Hn) as Hcol.
  apply baseline_lines_outside in Hlines as (Hwfl & Hs0 & Hs1 & _).
  exists d. split_and!; try done.
  - apply lookup_seq. split; [done | lia].
  - rewrite lookup_app_r by lia. by replace (length h + n - length h) with n by lia.
  - congruence.
  - congruence.
  - rewrite Hdist, length_fmap. unfold line_point_distances, np_polyval2.
    rewrite length_zip_with, length_fmap. lia.
Qed.

(** X5. The line of the baseline.  In a state built by [tcs_baseline], the
    entry of the matrix of lines at row t' of column t, for t' in the window
    of t_recalculate steps that ends at t (cut at step 0), is the value at
    time t' of the one line fitted to the whole column: gradient times the
    time value plus the intercept, as Horner's rule forms it.  When
    t_recalculate is at least one, the distance at step t is that of the
    cumulative value from the entry [lines[t, t]], divided by sigma. *)
Theorem tcs_baseline_line_values (tcs_c : array2 F) time_values t_recalc h
    sources_tcs h1 n r d :
  tcs_baseline tcs_c time_values t_recalc h = (Ok sources_tcs, h1) →
  wf_array2 tcs_c →
  sources_tcs !! n = Some r → h1 !! r = Some d →
  let y_intercept := (lstsq_line time_values (column n tcs_c)).2 in
  (∀ t' t x, t < shape0 tcs_c →
     (baseline_window_start t_recalc t ≤ Z.of_nat t' ≤ Z.of_nat t)%Z →
     time_values !! t' = Some x →
     cell (lines d) t' t
     = Some (fadd (fmul (fadd (fmul f0 x) (gradient d)) x) y_intercept))
  ∧ ((1 ≤ t_recalc)%Z →
     ∀ t, t < shape0 tcs_c →
       ∃ c y, cumulative_tc d !! t = Some c
              ∧ cell (lines d) t t = Some y
              ∧ distances d !! t = Some (fabs (fdiv (fsub c y) (sigma d)))).
Proof.
  intros Hrun Hwf Hr Hd y_intercept.
  apply tcs_baseline_Ok in Hrun as (ds & -> & -> & Hlen & Hds).
  apply lookup_seq in Hr as [-> Hn]. simpl in Hn.
  rewrite lookup_app_r in Hd by lia.
  replace (length h + n - length h) with n in Hd by lia.
  assert (seq 0 (shape1 tcs_c) !! n = Some n) as Hseq.
  { apply lookup_seq. split; [done | lia]. }
  pose proof (Forall2_lookup_lr _ _ _ _ _ _ Hds Hseq Hd) as Hdict.
  apply baseline_dict_Ok in Hdict
    as (_ & Htv & Hcum & Hg & Hlines & Hsig & Hdist & Ht).
  assert (n < shape1 tcs_c) as Hn' by lia.
  pose proof (length_column n tcs_c Hwf Hn') as Hcol.
  pose proof (baseline_lines_inside _ _ _ _ Hlines) as Hin.
  rewrite <- Hg in Hin. fold y_intercept in Hin.
  assert (∀ t' t x, t < shape0 tcs_c →
     (baseline_window_start t_recalc t ≤ Z.of_nat t' ≤ Z.of_nat t)%Z →
     time_values !! t' = Some x →
     cell (lines d) t' t
     = Some (fadd (fmul (fadd (fmul f0 x) (gradient d)) x) y_intercept))
    as Hcells.
  { intros t' t x Htn Hwin Hx.
    rewrite Hin; [| unfold np_polyval2; rewrite length_fmap; congruence
                  | done | done].
    unfold np_polyval2. by rewrite list_lookup_fmap, Hx. }
  split; [done|].
  intros Hrec t Htn.
  destruct (lookup_lt_is_Some_2 (column n tcs_c) t) as [c Hc]; [lia|].
  destruct (lookup_lt_is_Some_2 time_values t) as [x Hx]; [lia|].
  exists c, (fadd (fmul (fadd (fmul f0 x) (gradient d)) x) y_intercept).
  split_and!.
  - by rewrite Hcum.
  - apply Hcells; [done | | done]. unfold baseline_window_start. lia.
  - rewrite Hdist, Hsig, list_lookup_fmap.
    unfold line_point_distances. rewrite lookup_zip_with, Hc. simpl.
    unfold np_polyval2. rewrite list_lookup_fmap, Hx. simpl.
    rewrite <- Hg. done.
Qed.

(** X6. What [tcs_baseline] refuses.  With no column in [tcs_c] it returns
    the empty list and leaves the heap as it was, whatever the time values.
    With at least one column, it raises TypeError and leaves the heap as it
    was when there is no time value or when the number of time values is
    not the number of rows of [tcs_c]. *)
Theorem tcs_baseline_rejects (tcs_c : array2 F) time_values t_recalc h :
  (shape1 tcs_c = 0 →
   tcs_baseline tcs_c time_values t_recalc h = (Ok [], h))
  ∧ (wf_array2 tcs_c → 0 < shape1 tcs_c →
     length time_values = 0 ∨ length time_values ≠ shape0 tcs_c →
     tcs_baseline tcs_c time_values t_recalc h = (Raise TypeError, h)).
Proof.
  unfold tcs_baseline, baseline_dicts. split.
  - intros ->. simpl. by rewrite app_nil_r.
  - intros Hwf Hpos Hbad.
    assert (baseline_dict tcs_c time_values t_recalc 0 = Raise TypeError)
      as Hfirst.
    { unfold baseline_dict, np_polyfit1.
      rewrite length_column by done.
      destruct (length time_values =? 0) eqn:H0; [done|].
      apply Nat.eqb_neq in H0.
      destruct (length time_values =? shape0 tcs_c) eqn:H1; [|done].
      apply Nat.eqb_eq in H1. destruct Hbad; lia. }
    destruct (shape1 tcs_c) as [|k]; [lia|].
    cbn [seq rmap]. by rewrite Hfirst.
Qed.

End tracker_states.

Lemma ex_baseline_run :
  tcs_baseline (Polyfit0 := xq_polyfit) ex_tcs_c_baseline
    (take 4 ex_time_values) 2 []
  = (Ok [0; 1], ex_heap).
Proof. vm_compute. reflexivity. Qed.

Lemma ex_tcs_c_baseline_wf : wf_array2 ex_tcs_c_baseline.
Proof. split; [reflexivity | repeat constructor]. Qed.

Lemma tcs_baseline_states_witness :
  length [0; 1] = shape1 ex_tcs_c_baseline
  ∧ (∀ r d, @nil (tc_dict xq) !! r = Some d → ex_heap !! r = Some d)
  ∧ ∀ n, n < shape1 ex_tcs_c_baseline →
      ∃ d, [0; 1] !! n = Some (length (@nil (tc_dict xq)) + n)
           ∧ ex_heap !! (length (@nil (tc_dict xq)) + n) = Some d
           ∧ length (take 4 ex_time_values) = shape0 ex_tcs_c_baseline
           ∧ cumulative_tc d = column n ex_tcs_c_baseline
           ∧ length (cumulative_tc d) = shape0 ex_tcs_c_baseline
           ∧ wf_array2 (lines d)
           ∧ shape0 (lines d) = shape0 ex_tcs_c_baseline
           ∧ shape1 (lines d) = shape0 ex_tcs_c_baseline
           ∧ length (distances d) = shape0 ex_tcs_c_baseline
           ∧ t_recalculate d = 2%Z.
Proof.
  exact (tcs_baseline_states (Polyfit0 := xq_polyfit) ex_tcs_c_baseline
           (take 4 ex_time_values) 2 [] [0; 1] ex_heap
           ex_baseline_run ex_tcs_c_baseline_wf).
Defined.

Lemma tcs_baseline_line_values_witness :
  ∃ d, ex_heap !! 1 = Some d
  ∧ (∀ t' t x, t < 4 →
       (baseline_window_start 2 t ≤ Z.of_nat t' ≤ Z.of_nat t)%Z →
       take 4 ex_time_values !! t' = Some x →
       cell (lines d) t' t
       = Some (fadd (fmul (fadd (fmul f0 x) (gradient d)) x)
                 (lstsq_line (Polyfit := xq_polyfit) (take 4 ex_time_values)
                    (column 1 ex_tcs_c_baseline)).2))
  ∧ (∀ t, t < 4 →
       ∃ c y, cumulative_tc d !! t = Some c
              ∧ cell (lines d) t t = Some y
              ∧ distances d !! t = Some (fabs (fdiv (fsub c y) (sigma d)))).
Proof.
  destruct (ex_heap !! 1) as [d|] eqn:Hd; [|vm_compute in Hd; discriminate].
  exists d. split; [reflexivity|].
  destruct (tcs_baseline_line_values (Polyfit0 := xq_polyfit) ex_tcs_c_baseline
              (take 4 ex_time_values) 2 [] [0; 1] ex_heap 1 1 d
              ex_baseline_run ex_tcs_c_baseline_wf eq_refl Hd) as [H1 H2].
  split; [exact H1 | apply H2; lia].
Defined.

Lemma tcs_baseline_rejects_witness :
  tcs_baseline (Polyfit0 := xq_polyfit) ex_tcs_c_baseline
    (take 3 ex_time_values) 2 []
  = (Raise TypeError, []).
Proof.
  apply (proj2 (tcs_baseline_rejects (Polyfit0 := xq_polyfit) ex_tcs_c_baseline
                  (take 3 ex_time_values) 2 [])).
  - exact ex_tcs_c_baseline_wf.
  - simpl. lia.
  - right. simpl. lia.
Defined.

(** ** The stages of the orchestrator *)

Section orchestrator_stages.
Context {F : Type} `{!Scalar F, !Polyfit F, !LinalgInv F}.

Lemma bss_inversion_shape (sources interferograms : array2 F) cumulative m r :
  bss_inversion sources interferograms cumulative = Ok (m, r) →
  shape0 m = shape0 interferograms ∧ shape1 m = shape0 sources
  ∧ shape0 r = shape0 interferograms ∧ shape1 r = 1.
Proof.
  unfold bss_inversion. intros H.
  apply rbind_Ok in H as (gtg & Hgtg & H).
  apply rbind_Ok in H as (gtg_inv & Hinv & H).
  apply rbind_Ok in H as (m1 & Hm1 & H).
  apply rbind_Ok in H as (m2 & Hm2 & H).
  apply rbind_Ok in H as (d_hat & _ & H).
  apply rbind_Ok in H as (d_resid & _ & H).
  apply matmul_Ok in Hgtg as [_ ->].
  unfold np_linalg_inv in Hinv.
  apply rbind_Ok in Hinv as ([] & _ & Hinv).
  apply rbind_Ok in Hinv as (rs & _ & [= <-]).
  apply matmul_Ok in Hm1 as [_ ->].
  apply matmul_Ok in Hm2 as [_ ->].
  destruct cumulative; injection H as <- <-; simpl;
    by rewrite ?length_fmap, ?length_seq.
Qed.

Lemma residual_for_pixels_shape (sources : array2 F) ds ifgs n_skip out :
  residual_for_pixels sources ds ifgs n_skip = Ok out →
  shape1 out.1 = 1 ∧ shape1 out.2 = 1.
Proof.
  unfold residual_for_pixels. intros H.
  apply rbind_Ok in H as (tcs & _ & H).
  apply rbind_Ok in H as (model & _ & H).
  apply rbind_Ok in H as (res & _ & [= <-]). done.
Qed.

Lemma heap_keeps_length (h h' : list (tc_dict F)) :
  (∀ r d, h !! r = Some d → h' !! r = Some d) → length h ≤ length h'.
Proof.
  intros Hkeep. destruct (decide (length h ≤ length h')) as [|Hgt]; [done|].
  destruct (lookup_lt_is_Some_2 h (length h')) as [d Hd]; [lia|].
  apply Hkeep, lookup_lt_Some in Hd. lia.
Qed.

(** A call of [LiCSAlert] that returns, stage by stage. *)
Lemma LiCSAlert_stages (sources : array2 F) time_values t_recalc h
    ifgs_baseline mon out w' :
  LiCSAlert sources time_values t_recalc (World h ifgs_baseline mon)
  = (Ok out, w') →
  let centred := isub_scalar (np_mean2 ifgs_baseline) ifgs_baseline in
  ∃ tcs_b r_b sources_tcs h1 ds_b out_b residual_tcs h2,
    bss_inversion sources centred true = Ok (tcs_b, r_b)
    ∧ tcs_baseline tcs_b (take (shape0 ifgs_baseline) time_values) t_recalc h
      = (Ok sources_tcs, h1)
    ∧ Forall2 (λ r d, h1 !! r = Some d) sources_tcs ds_b
    ∧ residual_for_pixels sources ds_b centred None = Ok out_b
    ∧ tcs_baseline out_b.2 (take (shape0 ifgs_baseline) time_values)
        t_recalc h1
      = (Ok residual_tcs, h2)
    ∧ match mon with
      | None =>
          out = (sources_tcs, residual_tcs) ∧ w' = World h2 centred None
      | Some ifgs_monitoring =>
          ∃ ifgs_all tcs_m r_m s3 ds_m out_m s4,
            np_vstack ifgs_baseline ifgs_monitoring = Ok ifgs_all
            ∧ bss_inversion sources
                (isub_scalar (np_mean2 ifgs_monitoring) ifgs_monitoring) true
              = Ok (tcs_m, r_m)
            ∧ tcs_monitoring tcs_m sources_tcs time_values false h2
              = (Ok out.1, s3)
            ∧ Forall2 (λ r d, mem_heap s3 !! r = Some d) out.1 ds_m
            ∧ residual_for_pixels sources ds_m ifgs_all None = Ok out_m
            ∧ tcs_monitoring out_m.2 residual_tcs time_values true
                (mem_heap s3)
              = (Ok out.2, s4)
            ∧ w' = World (mem_heap s4) centred
                     (Some (isub_scalar (np_mean2 ifgs_monitoring)
                              ifgs_monitoring))
      end.
Proof.
  intros Hrun centred. unfold LiCSAlert in Hrun.
  apply M_bind_Ok in Hrun as (w0 & w0' & [= <- <-] & Hrun).
  cbn [w_ifgs_baseline w_ifgs_monitoring] in Hrun.
  apply M_bind_Ok in Hrun as (ifgs_all & w1 & [Hall ->]%lift_Ok & Hrun).
  apply M_bind_Ok in Hrun as ([tcs_b r_b] & w1 & Hbss & Hrun).
  unfold bss_baseline, bss_components_inversion in Hbss.
  cbn [w_ifgs_baseline w_heap w_ifgs_monitoring] in Hbss.
  injection Hbss as Hbss <-.
  apply M_bind_Ok in Hrun as (sources_tcs & w2 & Hbase & Hrun).
  unfold run_tcs_baseline in Hbase. cbn [w_heap] in Hbase.
  destruct (tcs_baseline tcs_b _ _ h) as [o1 h1] eqn:Hb1.
  injection Hbase as -> <-.
  cbn [w_ifgs_baseline w_ifgs_monitoring] in Hrun.
  apply M_bind_Ok in Hrun as (w1 & w1' & [= <- <-] & Hrun).
  cbn [w_ifgs_baseline] in Hrun.
  apply M_bind_Ok in Hrun as ([rts_b rcb] & w2 & Hres & Hrun).
  apply run_residual_for_pixels_Ok in Hres as (-> & ds_b & Hds_b & Hres).
  cbn [w_heap] in Hds_b.
  apply M_bind_Ok in Hrun as (residual_tcs & w3 & Hbase2 & Hrun).
  unfold run_tcs_baseline in Hbase2. cbn [w_heap] in Hbase2.
  destruct (tcs_baseline rcb _ _ h1) as [o2 h2] eqn:Hb2.
  injection Hbase2 as -> <-.
  cbn [w_ifgs_baseline w_ifgs_monitoring] in Hrun.
  exists tcs_b, r_b, sources_tcs, h1, ds_b, (rts_b, rcb), residual_tcs, h2.
  split_and!; [done..|].
  destruct mon as [ifgs_monitoring|].
  - apply M_bind_Ok in Hrun as ([tcs_m r_m] & w4 & Hbssm & Hrun).
    unfold bss_monitoring, bss_components_inversion in Hbssm.
    cbn [w_ifgs_baseline w_heap] in Hbssm. injection Hbssm as Hbssm <-.
    apply M_bind_Ok in Hrun as (src_mon & w5 & Hmon & Hrun).
    unfold run_tcs_monitoring in Hmon. cbn [w_heap] in Hmon.
    destruct (tcs_monitoring tcs_m sources_tcs time_values false h2)
      as [o3 s3] eqn:Hm3.
    injection Hmon as -> <-.
    cbn [w_ifgs_baseline w_ifgs_monitoring] in Hrun.
    apply M_bind_Ok in Hrun as ([rts_m rcbm] & w6 & Hresm & Hrun).
    apply run_residual_for_pixels_Ok in Hresm as (-> & ds_m & Hds_m & Hresm).
    cbn [w_heap] in Hds_m.
    apply M_bind_Ok in Hrun as (res_mon & w7 & Hmon2 & Hrun).
    unfold run_tcs_monitoring in Hmon2. cbn [w_heap] in Hmon2.
    destruct (tcs_monitoring rcbm residual_tcs time_values true (mem_heap s3))
      as [o4 s4] eqn:Hm4.
    injection Hmon2 as -> <-.
    injection Hrun as <- <-.
    cbn [w_ifgs_baseline w_ifgs_monitoring w_heap].
    exists ifgs_all, tcs_m, r_m, s3, ds_m, (rts_m, rcbm), s4.
    by split_and!.
  - injection Hrun as <- <-. done.
Qed.

(** X7. What [LiCSAlert] returns.  A call that returns, with or without
    monitoring interferograms, gives one state per source (per row of
    [sources]) and exactly one state for the residual; every state is a
    dictionary created by the call, and the dictionaries that existed
    before the call are as they were. *)
Theorem LiCSAlert_outputs (sources : array2 F) time_values t_recalc h
    ifgs_baseline mon sources_tcs residual_tcs w' :
  LiCSAlert sources time_values t_recalc (World h ifgs_baseline mon)
  = (Ok (sources_tcs, residual_tcs), w') →
  length sources_tcs = shape0 sources
  ∧ length residual_tcs = 1
  ∧ Forall (λ r, length h ≤ r) (sources_tcs ++ residual_tcs)
  ∧ ∀ r d, h !! r = Some d → w_heap w' !! r = Some d.
Proof.
  intros Hrun.
  apply LiCSAlert_stages in Hrun
    as (tcs_b & r_b & src_b & h1 & ds_b & out_b & res_b & h2
        & Hbss & Hb1 & _ & Hres & Hb2 & Hmon).
  apply bss_inversion_shape in Hbss as (_ & Hk & _).
  apply residual_for_pixels_shape in Hres as [_ Hone].
  apply tcs_baseline_Ok in Hb1 as (ds1 & -> & -> & Hl1 & _).
  apply tcs_baseline_Ok in Hb2 as (ds2 & -> & -> & Hl2 & _).
  destruct mon as [ifgs_monitoring|].
  - destruct Hmon as (ifgs_all & tcs_m & r_m & s3 & ds_m & out_m & s4
                      & _ & _ & Hm1 & _ & _ & Hm2 & ->).
    cbn [fst snd w_heap] in *.
    apply tcs_monitoring_frame in Hm1 as [Hold1 Hnew1].
    apply tcs_monitoring_frame in Hm2 as [Hold2 Hnew2].
    specialize (Hnew1 _ eq_refl). specialize (Hnew2 _ eq_refl).
    pose proof (Forall2_length _ _ _ Hnew1) as Hlen1.
    pose proof (Forall2_length _ _ _ Hnew2) as Hlen2.
    rewrite length_seq in Hlen1, Hlen2.
    split_and!; [congruence | congruence | |].
    + pose proof (heap_keeps_length _ _ Hold1) as Hle.
      rewrite !length_app in Hle.
      apply Forall_app. split.
      * apply Forall2_Forall_r with (1 := Hnew1).
        apply Forall_forall. intros r' _ r [Hr _].
        rewrite !length_app in Hr. lia.
      * apply Forall2_Forall_r with (1 := Hnew2).
        apply Forall_forall. intros r' _ r [Hr _]. lia.
    + intros r d Hr. apply Hold2, Hold1.
      apply lookup_app_l_Some. by apply lookup_app_l_Some.
  - destruct Hmon as [[= -> ->] ->]. cbn [w_heap].
    rewrite !length_seq. split_and!; [congruence | congruence | |].
    + apply Forall_app. split; apply Forall_forall;
        intros r [Hr _]%elem_of_seq; rewrite ?length_app in *; lia.
    + intros r d Hr. apply lookup_app_l_Some. by apply lookup_app_l_Some.
Qed.

End orchestrator_stages.

Lemma LiCSAlert_outputs_witness :
  length [2] = shape0 ex_sources
  ∧ length [3] = 1
  ∧ Forall (λ r, length (@nil (tc_dict xq)) ≤ r) ([2] ++ [3])
  ∧ ∀ r d, @nil (tc_dict xq) !! r = Some d →
      w_heap (snd ex_LiCSAlert) !! r = Some d.
Proof.
  exact (LiCSAlert_outputs (Polyfit0 := xq_polyfit)
           (LinalgInv0 := xq_linalg_inv) ex_sources ex_time_values 2 []
           ex_ifgs_baseline (Some ex_ifgs_monitoring) [2] [3]
           (snd ex_LiCSAlert) ex_LiCSAlert_run).
Defined.

(** ** Arrays of interferograms that do not fit *)

Section misfits.
Context {F : Type} `{!Scalar F, !Polyfit F, !LinalgInv F}.

Lemma matmul_mismatch (a b : array2 F) :
  shape1 a ≠ shape0 b → matmul a b = Raise ValueError.
Proof.
  intros Hne. unfold matmul.
  by destruct (Nat.eqb_spec (shape1 a) (shape0 b)).
Qed.

Lemma M_bind_raise {St A B} (m : M St A) (k : A → M St B) s e s' :
  m s = (Raise e, s') → (m ≫= k) s = (Raise e, s').
Proof. unfold mbind, M_bind. by intros ->. Qed.

(** X20. Sources and interferograms over different numbers of pixels.
    When the rows of [sources] and of [interferograms] differ in length,
    [bss_components_inversion] does not return: it raises LinAlgError
    (from the inversion) or ValueError (from the product with the
    interferograms).  The mean was subtracted from the caller's
    interferograms all the same. *)
Theorem bss_components_inversion_pixels (sources interferograms : array2 F)
    (cumulative : bool) :
  shape1 sources ≠ shape1 interferograms →
  ((bss_components_inversion sources interferograms cumulative).1
   = Raise LinAlgError
   ∨ (bss_components_inversion sources interferograms cumulative).1
     = Raise ValueError)
  ∧ (bss_components_inversion sources interferograms cumulative).2
    = isub_scalar (np_mean2 interferograms) interferograms.
Proof.
  intros Hpix. split; [|done].
  unfold bss_components_inversion, bss_inversion. cbn [fst].
  rewrite (matmul_run (np_T (np_T sources)) (np_T sources)) by done.
  cbn [mbind result_bind].
  destruct (np_linalg_inv _) as [gtg_inv|e] eqn:Hinv; cbn [mbind result_bind].
  - right. unfold np_linalg_inv in Hinv.
    apply rbind_Ok in Hinv as ([] & _ & Hinv).
    apply rbind_Ok in Hinv as (rs & _ & [= <-]).
    rewrite (matmul_run _ (np_T (np_T sources))) by done.
    cbn [mbind result_bind]. by rewrite matmul_mismatch.
  - left. unfold np_linalg_inv in Hinv. cbn [shape0 shape1 tabulate np_T] in Hinv.
    rewrite Nat.eqb_refl in Hinv. cbn [guard mbind result_bind] in Hinv.
    destruct (linalg_inv _); [done|]. simpl in Hinv. congruence.
Qed.

(** X21. Monitoring interferograms that do not fit the baseline ones.  When
    the rows of the two arrays differ in length, [LiCSAlert] raises
    ValueError from the stacking, before anything else is done: no
    dictionary is created and both arrays of the caller are as they
    were. *)
Theorem LiCSAlert_pixels (sources : array2 F) time_values t_recalc h
    ifgs_baseline ifgs_monitoring :
  shape1 ifgs_baseline ≠ shape1 ifgs_monitoring →
  LiCSAlert sources time_values t_recalc
    (World h ifgs_baseline (Some ifgs_monitoring))
  = (Raise ValueError, World h ifgs_baseline (Some ifgs_monitoring)).
Proof.
  intros Hpix. unfold LiCSAlert.
  erewrite M_bind_run by reflexivity.
  cbn [w_ifgs_baseline w_ifgs_monitoring].
  apply M_bind_raise. unfold lift, np_vstack.
  by destruct (Nat.eqb_spec (shape1 ifgs_baseline) (shape1 ifgs_monitoring)).
Qed.

End misfits.

Lemma bss_components_inversion_pixels_witness :
  ((bss_components_inversion (LinalgInv0 := xq_linalg_inv) ex_sources
      ex_ifgs_three_pixels true).1 = Raise LinAlgError
   ∨ (bss_components_inversion (LinalgInv0 := xq_linalg_inv) ex_sources
        ex_ifgs_three_pixels true).1 = Raise ValueError)
  ∧ (bss_components_inversion (LinalgInv0 := xq_linalg_inv) ex_sources
       ex_ifgs_three_pixels true).2
    = isub_scalar (np_mean2 ex_ifgs_three_pixels) ex_ifgs_three_pixels.
Proof.
  apply (bss_components_inversion_pixels (LinalgInv0 := xq_linalg_inv)
           ex_sources ex_ifgs_three_pixels true).
  simpl. lia.
Defined.

Lemma LiCSAlert_pixels_witness :
  LiCSAlert (Polyfit0 := xq_polyfit) (LinalgInv0 := xq_linalg_inv)
    ex_sources ex_time_values 2
    (World [] ex_ifgs_baseline (Some ex_ifgs_three_pixels))
  = (Raise ValueError, World [] ex_ifgs_baseline (Some ex_ifgs_three_pixels)).
Proof.
  apply (LiCSAlert_pixels (Polyfit0 := xq_polyfit)
           (LinalgInv0 := xq_linalg_inv) ex_sources ex_time_values 2 []
           ex_ifgs_baseline ex_ifgs_three_pixels).
  simpl. lia.
Defined.

(** ** The strengths the decomposer recovers *)

Section decomposer_strengths.
Context (L : LinalgInv R).
Local Open Scope R_scope.

(** X8. Over the reals, for mean-centred sources of at least one pixel
    whose Gram matrix [numpy.linalg.inv] inverts, and interferograms that
    are exactly [strengths @ sources]: [bss_components_inversion] returns
    the strengths themselves as time courses (their cumulative sums along
    time when [cumulative] is set), with a residual of zero at every time
    step.  (With no pixel the residual divides zero by zero.) *)
Theorem bss_recovers_strengths
    (sources strengths interferograms : array2 R) (cumulative : bool) :
  wf_array2 sources →
  wf_array2 strengths →
  mean_centred sources →
  (0 < shape1 sources)%nat →
  inverts_gram L sources →
  matmul strengths sources = Ok interferograms →
  bss_components_inversion sources interferograms cumulative
  = (Ok (if cumulative then np_cumsum0 strengths else strengths,
         Array2 (shape0 interferograms) 1
           (replicate (shape0 interferograms) [0])),
     interferograms).
Proof.
  intros Hwf Hwfs Hmean Hpix Hinv Hcomb.
  apply matmul_Ok in Hcomb as [Hk ->].
  set (n := shape0 strengths). set (k := shape0 sources) in *.
  set (p := shape1 sources) in *.
  set (S := entry strengths). set (src := entry sources).
  fold k in Hk. rewrite Hk.
  set (X := λ i j, np_sum ((λ b, fmul (S i b) (src b j)) <$> seq 0 k)).
  change (tabulate n p _) with (tabulate n p X).
  assert (∀ b, (b < k)%nat → Rsum p (src b) = 0) as Hsrc.
  { intros b Hb. pose proof (rows_entries sources b Hwf Hb) as Hr.
    apply (Forall_lookup_1 _ _ _ _ Hmean Hr). }
  (* the mean of all the entries is zero *)
  assert (np_mean2 (tabulate n p X) = 0) as Hmu.
  { unfold np_mean2, np_mean. rewrite np_sum_concat_tabulate.
    rewrite (Rsum_ext n _ (λ _, 0)).
    - rewrite Rsum_zero. simpl. unfold Rdiv. lra.
    - intros i Hi.
      change (Rsum p (λ j, Rsum k (λ b, S i b * src b j)) = 0).
      rewrite Rsum_exchange.
      rewrite (Rsum_ext k _ (λ _, 0)); [apply Rsum_zero|].
      intros b Hb. rewrite Rsum_mult_l, Hsrc by done. lra. }
  unfold bss_components_inversion. rewrite Hmu, isub_scalar_zero.
  unfold bss_inversion.
  cbn [shape0 shape1 tabulate].
  change (Array2 n p _) with (tabulate n p X).
  (* g.T @ g and its inverse *)
  set (g := np_T sources).
  assert (shape0 g = p ∧ shape1 g = k) as [Hg0 Hg1] by done.
  assert (∀ j b, (j < p)%nat → (b < k)%nat → entry g j b = src b j) as Hg.
  { intros j b Hj Hb. unfold g, np_T. by rewrite entry_tabulate. }
  assert (∀ b j, (b < k)%nat → (j < p)%nat → entry (np_T g) b j = src b j)
    as Hgt.
  { intros b j Hb Hj. unfold np_T at 1. rewrite Hg0, Hg1.
    rewrite entry_tabulate by done. by apply Hg. }
  rewrite (matmul_run (np_T g) g) by done.
  cbn [mbind result_bind].
  destruct (Hinv _ (matmul_run (np_T g) g eq_refl))
    as (gi & Hgi & Hwfgi & Hid).
  rewrite Hgi. cbn [mbind result_bind].
  apply matmul_Ok in Hid as [Hgik Hid]. cbn [shape0 shape1 tabulate] in Hgik.
  unfold identity_matrix in Hid. fold k in Hid.
  assert (shape0 gi = k) as Hgi0.
  { apply (f_equal shape0) in Hid. simpl in Hid. done. }
  rewrite Hgi0, Hgik in Hid. cbn [shape0 shape1 tabulate] in Hid.
  change (Array2 k k _ = Array2 k k _)
    with (tabulate k k (λ i j, if i =? j then 1 else 0)
          = tabulate k k
              (λ i j, np_sum ((λ l, fmul (entry gi i l)
                  (entry (tabulate k k
                     (λ i0 j0, np_sum ((λ k0, fmul (entry (np_T g) i0 k0)
                                             (entry g k0 j0))
                                         <$> seq 0 (shape1 (np_T g))))) l j))
                <$> seq 0 k))) in Hid.
  assert (∀ a b, (a < k)%nat → (b < k)%nat →
            Rsum k (λ l, entry gi a l * Rsum p (λ j, src l j * src b j))
            = if a =? b then 1 else 0) as Hdelta.
  { intros a b Ha Hb.
    apply (f_equal (λ t, entry t a b)) in Hid.
    rewrite !entry_tabulate in Hid by done. rewrite Hid.
    apply Rsum_ext. intros l Hl. rewrite entry_tabulate by done.
    f_equal. change (shape1 (np_T g)) with p.
    apply Rsum_ext. intros j Hj. simpl. by rewrite Hgt, Hg. }
  (* the strengths *)
  rewrite (matmul_run gi (np_T g)) by (by rewrite Hgik).
  cbn [mbind result_bind]. rewrite Hgi0, Hgik.
  set (m1 := tabulate k (shape1 (np_T g)) _).
  set (d := np_T (tabulate n p X)).
  rewrite (matmul_run m1 d) by done. cbn [mbind result_bind].
  set (m := tabulate (shape0 m1) (shape1 d) _).
  rewrite (matmul_run g m) by done. cbn [mbind result_bind].
  set (d_hat := tabulate (shape0 g) (shape1 m) _).
  assert (∀ j i, (j < p)%nat → (i < n)%nat → entry d j i = X i j) as Hd.
  { intros j i Hj Hi. unfold d, np_T. cbn [shape0 shape1 tabulate].
    change (Array2 n p _) with (tabulate n p X).
    by rewrite !entry_tabulate. }
  assert (∀ a i, (a < k)%nat → (i < n)%nat → entry m a i = S i a) as Hm.
  { intros a i Ha Hi. unfold m. rewrite entry_tabulate by done.
    change (shape1 m1) with p.
    rewrite <- (gram_inverse_recovers k p S (entry gi) src a i Ha
                  (λ b Hb, Hdelta a b Ha Hb)).
    apply Rsum_ext. intros j Hj. simpl. rewrite Hd by done.
    f_equal. unfold m1. rewrite entry_tabulate by done.
    change (shape0 (np_T g)) with k. apply Rsum_ext. intros l Hl. simpl. by rewrite Hgt. }
  assert (∀ j i, (j < p)%nat → (i < n)%nat → entry d_hat j i = X i j) as Hdh.
  { intros j i Hj Hi. unfold d_hat. rewrite entry_tabulate by done.
    rewrite Hg1. unfold X. apply Rsum_ext. intros a Ha. simpl.
    rewrite Hg, Hm by done. lra. }
  unfold np_sub2.
  cbn [shape0 shape1 d d_hat tabulate np_T m m1].
  unfold broadcast_dim. rewrite !Nat.eqb_refl. cbn [mbind result_bind].
  fold k.
  match goal with
  | |- context [column _ ?t] =>
      assert (t = tabulate p n (λ _ _, 0)) as ->
  end.
  { apply tabulate_ext. intros j i Hj Hi.
    rewrite !pick_within by done.
    change (entry d j i - entry d_hat j i = 0).
    rewrite Hd, Hdh by done. lra. }
  assert ((λ i : nat,
             fdiv (fsqrt (np_sum ((λ x : R, fmul x x)
                            <$> column i (tabulate p n (λ _ _ : nat, 0)))))
               (of_nat p)) <$> seq 0 n
          = replicate n 0) as Hres.
  { apply list_eq. intros i. rewrite list_lookup_fmap.
    destruct (decide (i < n)%nat) as [Hi|Hi].
    - rewrite (proj2 (lookup_seq 0 n i i)), lookup_replicate_2 by done.
      simpl. f_equal. rewrite column_tabulate by done.
      rewrite <- list_fmap_compose.
      change (np_sum _) with (Rsum p (λ _, 0 * 0)).
      rewrite (Rsum_ext p _ (λ _, 0)) by (intros; lra).
      rewrite Rsum_zero, sqrt_0. unfold Rdiv. lra.
    - rewrite lookup_ge_None_2 by (rewrite length_seq; lia).
      by rewrite lookup_ge_None_2 by (rewrite length_replicate; lia). }
  rewrite Hres. unfold column_vector.
  rewrite length_replicate, fmap_replicate.
  assert (np_T m = strengths) as ->.
  { rewrite (tabulate_entry strengths Hwfs). unfold np_T.
    change (shape1 m) with n. change (shape0 m) with k. rewrite Hk.
    apply tabulate_ext. intros i a Hi Ha. by apply Hm. }
  destruct cumulative; [rewrite np_cumsum0_zeros|]; done.
Qed.

End decomposer_strengths.

Lemma ex_sources_R_wf : wf_array2 ex_sources_R.
Proof. split; [reflexivity | repeat constructor]. Qed.

Lemma ex_strengths_R_wf : wf_array2 ex_strengths_R.
Proof. split; [reflexivity | repeat constructor]. Qed.

Lemma bss_recovers_strengths_witness :
  bss_components_inversion (LinalgInv0 := R_inv_1x1) ex_sources_R ex_ifgs_R
    true
  = (Ok (np_cumsum0 ex_strengths_R, Array2 2 1 [[0%R]; [0%R]]), ex_ifgs_R).
Proof.
  exact (bss_recovers_strengths R_inv_1x1 ex_sources_R ex_strengths_R
           ex_ifgs_R true ex_sources_R_wf ex_strengths_R_wf ex_R_mean_centred
           (Nat.lt_0_succ 1) ex_R_inverts_gram eq_refl).
Defined.

(** ** From cumulative time courses back to increments *)

Lemma rmap_run {A B} (f : A → result B) (g : A → B) (l : list A) :
  (∀ x, x ∈ l → f x = Ok (g x)) → rmap f l = Ok (g <$> l).
Proof.
  induction l as [|x l IH]; intros Hf; simpl; [done|].
  rewrite (Hf x) by constructor. simpl.
  rewrite IH; [done|]. intros y Hy. apply Hf. by constructor.
Qed.

Section increments.
Context {F : Type} `{!Scalar F}.

Lemma length_diff_from (x : F) l : length (diff_from x l) = length l.
Proof. revert x. induction l as [|y l IH]; intros x; simpl; [done|]. by rewrite IH. Qed.

Lemma diff_from_app (x : F) l1 l2 :
  diff_from x (l1 ++ l2)
  = diff_from x l1 ++ diff_from (default x (list.last l1)) l2.
Proof.
  revert x. induction l1 as [|y l1 IH]; intros x; simpl; [done|].
  rewrite IH. do 2 f_equal. destruct l1 as [|z l1]; [done|].
  rewrite last_cons_cons.
  destruct (list.last (z :: l1)) as [w|] eqn:E; [done|].
  by apply last_None in E.
Qed.

Lemma column_vstack_rows n p (a b : array2 F) j :
  column j (Array2 n p (rows a ++ rows b)) = column j a ++ column j b.
Proof. unfold column. simpl. apply omap_app. Qed.

Lemma Forall2_functional {A B} (P : A → B → Prop) l k1 k2 :
  (∀ x y1 y2, P x y1 → P x y2 → y1 = y2) →
  Forall2 P l k1 → Forall2 P l k2 → k1 = k2.
Proof.
  intros Hfun H1. revert k2.
  induction H1 as [|x y l k1 Hxy _ IH]; intros k2 H2.
  - by apply Forall2_nil_inv_l in H2.
  - apply Forall2_cons_inv_l in H2 as (y2 & k2' & Hxy2 & H2 & ->).
    f_equal; [by eapply Hfun | by apply IH].
Qed.

Lemma column_lookup (a : array2 F) i j :
  wf_array2 a → i < shape0 a → j < shape1 a →
  column j a !! i = Some (entry a i j).
Proof.
  intros Hwf Hi Hj. rewrite (tabulate_entry a Hwf) at 1.
  rewrite column_tabulate by done. rewrite list_lookup_fmap.
  by rewrite (proj2 (lookup_seq 0 _ i i)).
Qed.

End increments.

Section round_trip.
Local Open Scope R_scope.

Lemma diff_from_shift (y v : R) (l : list R) :
  diff_from (y + v) ((λ x, x + v) <$> l) = diff_from y l.
Proof.
  revert y. induction l as [|x l IH]; intros y; csimpl; [done|].
  rewrite IH. f_equal. lra.
Qed.

Lemma diff_cumsum_rows (acc : list R) rs j y :
  acc !! j = Some y →
  Forall (λ r : list R, (j < length r)%nat) rs →
  diff_from y (omap (.!! j) (cumsum_rows_from acc rs)) = omap (.!! j) rs.
Proof.
  revert acc y. induction rs as [|r rs IH]; intros acc y Hy Hrs; [done|].
  apply Forall_cons in Hrs as [Hr Hrs].
  destruct (lookup_lt_is_Some_2 r j Hr) as [x Hx].
  assert (zip_with fadd acc r !! j = Some (y + x)) as Hz.
  { by rewrite lookup_zip_with, Hy, Hx. }
  cbn [cumsum_rows_from omap list_omap]. rewrite Hz, Hx.
  cbn [diff_from]. rewrite (IH _ _ Hz Hrs). f_equal. simpl. lra.
Qed.

(** The first differences of a column of cumulative sums, from zero, are
    the column summed. *)
Lemma diff_cumsum_column (a : array2 R) j :
  wf_array2 a → (j < shape1 a)%nat →
  diff_from 0 (column j (np_cumsum0 a)) = column j a.
Proof.
  destruct a as [n p rs]. intros [_ Hwf] Hj. simpl in *.
  unfold column, np_cumsum0. simpl.
  destruct rs as [|r rs]; [done|].
  apply Forall_cons in Hwf as [Hr Hrs].
  destruct (lookup_lt_is_Some_2 r j) as [x Hx]; [lia|].
  cbn [omap list_omap]. rewrite Hx.
  cbn [diff_from]. rewrite (diff_cumsum_rows r rs j x Hx).
  - f_equal. simpl. lra.
  - eapply Forall_impl; [exact Hrs|]. simpl. intros r' ->. done.
Qed.

(** [list_dict_to_r2] on states whose cumulative time courses difference
    to the columns of an array gives that array. *)
Lemma list_dict_to_r2_columns (m : array2 R) (ds : list (tc_dict R)) :
  wf_array2 m → (0 < shape1 m)%nat → length ds = shape1 m →
  (∀ j d, ds !! j = Some d → diff_from 0 (cumulative_tc d) = column j m) →
  list_dict_to_r2 ds = Ok m.
Proof.
  intros Hwf Hk Hlen Hcols. unfold list_dict_to_r2.
  destruct (lookup_lt_is_Some_2 ds 0%nat) as [d0 Hd0]; [lia|].
  unfold item. rewrite Hd0. simpl.
  assert (∀ j d, ds !! j = Some d →
            length (cumulative_tc d) = shape0 m) as Hlens.
  { intros j d Hd. rewrite <- (length_diff_from 0), (Hcols j d Hd).
    apply length_column; [done|]. apply lookup_lt_Some in Hd. lia. }
  rewrite (rmap_run _ (λ d, diff_from 0 (cumulative_tc d))).
  - simpl. rewrite (Hlens _ _ Hd0), Hlen.
    rewrite (tabulate_entry m Hwf) at 3. f_equal.
    apply tabulate_ext. intros i j Hi Hj.
    destruct (lookup_lt_is_Some_2 ds j) as [d Hd]; [lia|].
    rewrite list_lookup_fmap, Hd. simpl. rewrite (Hcols j d Hd).
    by rewrite column_lookup.
  - intros d [j Hd]%list_elem_of_lookup_1.
    rewrite length_diff_from, (Hlens j d Hd), (Hlens _ _ Hd0).
    by rewrite decide_True.
Qed.

End round_trip.

(** ** The time courses of the states, differenced *)

Section states_round_trip.
Context (P : Polyfit R).
Local Open Scope R_scope.

(** X9. Over the reals, the cumulative time courses of the states are
    cumulative sums that [list_dict_to_r2] undoes.  For states built by
    [tcs_baseline] from the cumulative sums along time of an array of
    increments, [list_dict_to_r2] gives that array back; for their
    extensions by [tcs_monitoring], in per-source mode, with the cumulative
    sums of a second array of increments, it gives the two arrays of
    increments stacked. *)
Theorem increments_round_trip (m_b m_m : array2 R) tv_b tv t_recalc
    (h : list (tc_dict R)) refs h1 refs' s' ds ds' :
  wf_array2 m_b → wf_array2 m_m →
  (0 < shape1 m_b)%nat → shape1 m_m = shape1 m_b →
  tcs_baseline (np_cumsum0 m_b) tv_b t_recalc h = (Ok refs, h1) →
  Forall2 (λ r d, h1 !! r = Some d) refs ds →
  tcs_monitoring (np_cumsum0 m_m) refs tv false h1 = (Ok refs', s') →
  Forall2 (λ r d, mem_heap s' !! r = Some d) refs' ds' →
  list_dict_to_r2 ds = Ok m_b
  ∧ list_dict_to_r2 ds' = np_vstack m_b m_m.
Proof.
  intros Hwfb Hwfm Hk Hkm Hbase Hds Hmon Hds'.
  apply tcs_baseline_Ok in Hbase as (ds0 & -> & -> & Hlen & Hdicts).
  destruct (tcs_baseline_refs h ds0) as [Hnd Hds0].
  assert (ds = ds0) as ->.
  { eapply Forall2_functional; [|exact Hds|exact Hds0].
    simpl. congruence. }
  cbn [shape1 np_cumsum0] in Hlen.
  assert (∀ j d, ds0 !! j = Some d →
            cumulative_tc d = column j (np_cumsum0 m_b)) as Hcum.
  { intros j d Hd.
    assert (seq 0 (shape1 m_b) !! j = Some j) as Hseq.
    { apply lookup_seq. split; [done|]. apply lookup_lt_Some in Hd. lia. }
    pose proof (Forall2_lookup_lr _ _ _ _ _ _ Hdicts Hseq Hd) as Hdict.
    by apply baseline_dict_Ok in Hdict as (_ & _ & Hc & _). }
  assert (∀ j d, ds0 !! j = Some d →
            diff_from 0 (cumulative_tc d) = column j m_b) as Hdiff.
  { intros j d Hd. rewrite (Hcum j d Hd). apply diff_cumsum_column; [done|].
    apply lookup_lt_Some in Hd. lia. }
  split; [by apply list_dict_to_r2_columns|].
  apply (tcs_monitoring_Ok _ _ _ _ _ ds0) in Hmon
    as (d0 & ds1 & _ & -> & Hheap & _ & Hsrc); [|done..].
  pose proof (Forall2_length _ _ _ Hsrc) as Hlen1.
  rewrite length_zip, length_seq, Nat.min_id in Hlen1.
  destruct (tcs_baseline_refs (h ++ ds0) ds1) as [_ Hds1].
  rewrite <- Hheap, <- Hlen1 in Hds1.
  assert (ds' = ds1) as ->.
  { eapply Forall2_functional; [|exact Hds'|exact Hds1].
    simpl. congruence. }
  unfold np_vstack. rewrite Hkm, Nat.eqb_refl. simpl.
  apply list_dict_to_r2_columns.
  - destruct Hwfb as [Hb0 Hb1], Hwfm as [Hm0 Hm1]. split; simpl.
    + rewrite length_app. congruence.
    + apply Forall_app. split; [done|]. by rewrite <- Hkm.
  - done.
  - simpl. congruence.
  - intros j d' Hd'.
    destruct (lookup_lt_is_Some_2 ds0 j) as [d Hd].
    { apply lookup_lt_Some in Hd'. lia. }
    destruct (Forall2_enumerate_lookup _ _ _ _ _ _ Hsrc Hd)
      as (y & Hy & Hres).
    assert (y = d') as -> by congruence. simpl in Hres.
    apply source_result_cumulative in Hres as [Hnew _].
    unfold source_new_tc in Hnew.
    apply rbind_Ok in Hnew as ([] & _ & Hnew).
    apply rbind_Ok in Hnew as (v & Hv & [= Hc]).
    apply from_option_Ok in Hv.
    rewrite <- Hc, diff_from_app, Hv, (Hdiff j d Hd). simpl.
    rewrite column_vstack_rows. f_equal.
    replace v with (0 + v) at 1 by lra.
    rewrite diff_from_shift. apply diff_cumsum_column; [done|].
    apply lookup_lt_Some in Hd. lia.
Qed.

End states_round_trip.

(** ** The residual of an exact reconstruction *)

Section residual_exact.
Local Open Scope R_scope.

Lemma rows_zero_table n p :
  rows (tabulate n p (λ _ _, 0)) = replicate n (replicate p 0).
Proof.
  unfold tabulate; simpl.
  rewrite (const_fmap _ _ (replicate p 0)).
  - by rewrite length_seq.
  - intros i x _. rewrite (const_fmap _ _ 0); [by rewrite length_seq | done].
Qed.

Lemma cumsum_rows_zero (p k : nat) :
  cumsum_rows_from (replicate p 0) (replicate k (replicate p 0))
  = replicate k (replicate p 0).
Proof.
  assert (zip_with fadd (replicate p 0) (replicate p 0) = replicate p 0) as Hz.
  { induction p as [|p IH]; [done|].
    cbn [replicate zip_with]. rewrite IH. f_equal. simpl. lra. }
  induction k as [|k IH]; [done|].
  cbn [replicate cumsum_rows_from]. by rewrite Hz, IH.
Qed.

Lemma np_cumsum0_zero_table n p :
  np_cumsum0 (tabulate n p (λ _ _, 0)) = tabulate n p (λ _ _, 0).
Proof.
  unfold np_cumsum0. rewrite rows_zero_table.
  change (tabulate n p (λ _ _, 0))
    with (Array2 n p (rows (tabulate n p (λ _ _, 0)))) at 3.
  rewrite rows_zero_table. cbn [shape0 shape1 tabulate]. f_equal.
  destruct n as [|n]; [done|]. simpl. by rewrite cumsum_rows_zero.
Qed.

Lemma rms_rows_zero_table q n p :
  rms_rows q (tabulate n p (λ _ _, 0)) = Array2 n 1 (replicate n [0]).
Proof.
  unfold rms_rows. rewrite rows_zero_table. unfold column_vector.
  rewrite !fmap_replicate, length_replicate. do 3 f_equal.
  assert (np_sum (replicate p (fmul 0 0)) = 0) as ->.
  { induction p as [|p IH]; [done|].
    cbn [replicate]. rewrite np_sum_cons, IH. simpl. lra. }
  simpl. unfold Rdiv. rewrite Rmult_0_l. apply sqrt_0.
Qed.

(** X10. Over the reals, interferograms that the time courses and the
    sources reconstruct exactly leave no residual.  For sources of at
    least one pixel, states whose cumulative time courses are the
    cumulative sums along time of the columns of an array of strengths,
    and interferograms that are exactly [strengths @ sources],
    [residual_for_pixels] returns a residual of zero at every time step,
    and a cumulative residual of zero.  (With no pixel both divide zero by
    zero.) *)
Theorem residual_for_pixels_exact (sources strengths ifgs : array2 R)
    (ds : list (tc_dict R)) :
  wf_array2 strengths → (0 < shape1 strengths)%nat →
  (0 < shape1 sources)%nat →
  length ds = shape1 strengths →
  (∀ j d, ds !! j = Some d →
     cumulative_tc d = column j (np_cumsum0 strengths)) →
  matmul strengths sources = Ok ifgs →
  residual_for_pixels sources ds ifgs None
  = Ok (Array2 (shape0 ifgs) 1 (replicate (shape0 ifgs) [0]),
        Array2 (shape0 ifgs) 1 (replicate (shape0 ifgs) [0])).
Proof.
  intros Hwf Hk Hpix Hlen Hcum Hmat. unfold residual_for_pixels.
  rewrite (list_dict_to_r2_columns strengths ds Hwf Hk Hlen).
  - cbn [mbind result_bind]. rewrite Hmat. cbn [mbind result_bind].
    apply matmul_Ok in Hmat as [_ ->]. unfold np_sub2, broadcast_dim.
    cbn [shape0 shape1 tabulate]. rewrite !Nat.eqb_refl.
    cbn [mbind result_bind].
    match goal with
    | |- context [rms_rows _ (tabulate ?n ?p ?f)] =>
        assert (tabulate n p f = tabulate n p (λ _ _, 0)) as ->
    end.
    { apply tabulate_ext. intros i j Hi Hj. simpl. lra. }
    by rewrite np_cumsum0_zero_table, !rms_rows_zero_table.
  - intros j d Hd. rewrite (Hcum j d Hd). apply diff_cumsum_column; [done|].
    apply lookup_lt_Some in Hd. lia.
Qed.

End residual_exact.

(** The increments of the example, through the states and back. *)

Lemma ex_baseline_R_run :
  tcs_baseline (Polyfit0 := R_polyfit) (np_cumsum0 ex_strengths_R)
    (map IZR [0; 1]%Z) 2 []
  = (Ok [0], snd ex_baseline_R).
Proof. reflexivity. Qed.

Lemma ex_monitoring_R_run :
  tcs_monitoring (np_cumsum0 ex_increments_R) [0] (map IZR [0; 1; 2]%Z) false
    (snd ex_baseline_R)
  = (Ok [1], snd ex_monitoring_R).
Proof. reflexivity. Qed.

Lemma ex_baseline_R_states :
  ∃ d, snd ex_baseline_R = [d].
Proof.
  assert (length (snd ex_baseline_R) = 1) as Hlen by reflexivity.
  destruct (snd ex_baseline_R) as [|d [|??]]; try discriminate.
  eauto.
Qed.

Lemma ex_monitoring_R_states :
  ∃ d d', mem_heap (snd ex_monitoring_R) = [d; d'].
Proof.
  assert (length (mem_heap (snd ex_monitoring_R)) = 2) as Hlen by reflexivity.
  destruct (mem_heap (snd ex_monitoring_R)) as [|d [|d' [|??]]];
    try discriminate.
  eauto.
Qed.

Lemma ex_increments_R_wf : wf_array2 ex_increments_R.
Proof. split; [reflexivity | repeat constructor]. Qed.

Lemma increments_round_trip_witness :
  ∃ d d',
    snd ex_baseline_R !! 0 = Some d
    ∧ mem_heap (snd ex_monitoring_R) !! 1 = Some d'
    ∧ list_dict_to_r2 [d] = Ok ex_strengths_R
    ∧ list_dict_to_r2 [d'] = np_vstack ex_strengths_R ex_increments_R.
Proof.
  destruct ex_baseline_R_states as [d Hd].
  destruct ex_monitoring_R_states as (d1 & d' & Hd').
  exists d, d'.
  split; [by rewrite Hd|]. split; [by rewrite Hd'|].
  apply (increments_round_trip R_polyfit ex_strengths_R ex_increments_R
           (map IZR [0; 1]%Z) (map IZR [0; 1; 2]%Z) 2 [] [0]
           (snd ex_baseline_R) [1] (snd ex_monitoring_R)).
  - exact ex_strengths_R_wf.
  - exact ex_increments_R_wf.
  - simpl. lia.
  - reflexivity.
  - exact ex_baseline_R_run.
  - rewrite Hd. by repeat constructor.
  - exact ex_monitoring_R_run.
  - rewrite Hd'. by repeat constructor.
Defined.

Lemma residual_for_pixels_exact_witness :
  residual_for_pixels ex_sources_R ex_states_R ex_ifgs_R None
  = Ok (Array2 2 1 [[0%R]; [0%R]], Array2 2 1 [[0%R]; [0%R]]).
Proof.
  apply (residual_for_pixels_exact ex_sources_R ex_strengths_R ex_ifgs_R
           ex_states_R).
  - exact ex_strengths_R_wf.
  - simpl. lia.
  - simpl. lia.
  - reflexivity.
  - intros [|j] d; simpl; [intros [= <-]; reflexivity | discriminate].
  - reflexivity.
Defined.

(** ** The lines that are drawn *)

Lemma line_args_loop_app n t l ks1 ks2 :
  line_args_loop n t l (ks1 ++ ks2)
  = line_args_loop n t l ks1 ≫= λ l', line_args_loop n t l' ks2.
Proof.
  revert l. induction ks1 as [|k ks1 IH]; intros l; simpl; [done|].
  destruct (line_args_step n t l k) as [l'|]; simpl; [apply IH | done].
Qed.

Lemma StronglySorted_seq i n : StronglySorted lt (seq i n).
Proof.
  revert i. induction n as [|n IH]; intros i; simpl; constructor; [apply IH|].
  apply Forall_forall. intros j Hj%elem_of_seq. lia.
Qed.

Lemma StronglySorted_seqZ m len : StronglySorted Z.lt (seqZ m len).
Proof.
  unfold seqZ. apply StronglySorted_fmap with (R1 := lt).
  - intros x y Hxy. lia.
  - apply StronglySorted_seq.
Qed.

Lemma line_ends_bound t j x :
  (1 ≤ t)%Z → (1 ≤ j)%Z → x ∈ line_ends t j → (0 ≤ x < j - 1)%Z.
Proof.
  intros Ht Hj (i & -> & Hi)%list_elem_of_fmap.
  apply elem_of_seqZ in Hi.
  pose proof (Z.mul_div_le (j - 1) t ltac:(lia)). nia.
Qed.

Lemma line_ends_succ t j :
  (1 ≤ t)%Z → (1 ≤ j)%Z →
  line_ends t (j + 1)
  = if (j mod t =? 0)%Z then line_ends t j ++ [(j - 1)%Z] else line_ends t j.
Proof.
  intros Ht Hj. unfold line_ends.
  replace (j + 1 - 1)%Z with j by lia.
  pose proof (Z.div_mod j t ltac:(lia)) as Hdm.
  pose proof (Z.mod_pos_bound j t ltac:(lia)) as Hmod.
  destruct (Z.eqb_spec (j mod t) 0) as [H0|H0].
  - assert ((j - 1) / t = j / t - 1)%Z as Hq.
    { symmetry. apply (Z.div_unique _ _ _ (t - 1)); lia. }
    assert (0 ≤ (j - 1) / t)%Z by (apply Z.div_pos; lia).
    replace (j / t)%Z with ((j - 1) / t + 1)%Z by lia.
    rewrite seqZ_app by lia. rewrite fmap_app. f_equal.
    simpl. f_equal. lia.
  - assert ((j - 1) / t = j / t)%Z as ->; [|done].
    symmetry. apply (Z.div_unique _ _ _ (j mod t - 1)); lia.
Qed.

Lemma line_ends_0 t : (1 ≤ t)%Z → line_ends t 0 = [] ∧ line_ends t 1 = [].
Proof.
  intros Ht. unfold line_ends.
  assert ((0 - 1) / t = -1)%Z as ->.
  { symmetry. apply (Z.div_unique _ _ _ (t - 1)); lia. }
  by rewrite Z.div_0_l by lia.
Qed.

Lemma line_args_step_inner n t l (k : Z) :
  (1 ≤ t)%Z → (0 ≤ k < n - 1)%Z →
  line_args_step n t l k
  = Some (if (k mod t =? 0)%Z && negb (k =? 0)%Z then l ++ [(k - 1)%Z] else l).
Proof.
  intros Ht Hk. unfold line_args_step, py_mod.
  destruct (Z.eqb_spec t 0) as [|_]; [lia|]. simpl.
  by destruct (Z.eqb_spec k (n - 1)) as [|_]; [lia|].
Qed.

Lemma line_args_prefix n t (j : nat) :
  (1 ≤ t)%Z → (Z.of_nat j < n)%Z →
  line_args_loop n t [] (seqZ 0 (Z.of_nat j))
  = Some (line_ends t (Z.of_nat j)).
Proof.
  intros Ht. induction j as [|j IH]; intros Hj.
  - change (Z.of_nat 0) with 0%Z. by rewrite (proj1 (line_ends_0 t Ht)).
  - rewrite Nat2Z.inj_succ, <- Z.add_1_r.
    rewrite seqZ_app by lia. rewrite line_args_loop_app, IH by lia.
    simpl. rewrite line_args_step_inner by lia. simpl.
    rewrite !Z.add_0_l.
    destruct (Z.eqb_spec (Z.of_nat j) 0) as [H0|H0].
    + rewrite H0. change (0 + 1)%Z with 1%Z.
      destruct (line_ends_0 t Ht) as [-> ->].
      by rewrite andb_false_r.
    + cbn [negb]. rewrite andb_true_r. by rewrite line_ends_succ by lia.
Qed.

(** The closed form of the result. *)
Lemma calcualte_line_args_closed n t :
  (1 ≤ t)%Z → (1 ≤ n)%Z →
  calcualte_line_args n t = Some (line_ends t n ++ [(n - 1)%Z]).
Proof.
  intros Ht Hn. unfold calcualte_line_args.
  replace n with (Z.of_nat (Z.to_nat (n - 1)) + 1)%Z at 2 by lia.
  rewrite seqZ_app by lia. rewrite line_args_loop_app.
  rewrite line_args_prefix by lia. simpl.
  rewrite Z.add_0_l, Z2Nat.id by lia.
  unfold line_args_step, py_mod.
  destruct (Z.eqb_spec t 0) as [|_]; [lia|]. simpl.
  rewrite !Z.add_0_l, Z.eqb_refl. simpl.
  set (l := if (_ =? 0)%Z && _ then _ else _).
  assert (l = line_ends t n) as ->.
  { subst l. destruct (Z.eqb_spec (n - 1) 0) as [H0|H0].
    - cbn [negb]. rewrite andb_false_r, H0. replace n with 1%Z by lia.
      by destruct (line_ends_0 t Ht) as [-> ->].
    - cbn [negb]. rewrite andb_true_r.
      rewrite <- line_ends_succ by lia. f_equal. lia. }
  rewrite bool_decide_false; [done|].
  intros Hin%line_ends_bound; lia.
Qed.

(** Only the multiples of [t_recalculate] matter, not its sign. *)
Lemma line_args_loop_abs n t l ks :
  t ≠ 0%Z → line_args_loop n t l ks = line_args_loop n (Z.abs t) l ks.
Proof.
  intros Ht. revert l. induction ks as [|k ks IH]; intros l; simpl; [done|].
  assert (line_args_step n t l k = line_args_step n (Z.abs t) l k) as ->.
  { unfold line_args_step, py_mod.
    destruct (Z.eqb_spec t 0) as [|_]; [done|].
    destruct (Z.eqb_spec (Z.abs t) 0) as [|_]; [lia|]. simpl.
    assert ((k mod t =? 0)%Z = (k mod Z.abs t =? 0)%Z) as ->; [|done].
    destruct (Z.eqb_spec (k mod t) 0) as [H0|H0];
      destruct (Z.eqb_spec (k mod Z.abs t) 0) as [H1|H1]; try done.
    - apply Z.mod_divide in H0; [|done]. exfalso. apply H1.
      apply Z.mod_divide; [lia|]. by apply (proj2 (Z.divide_abs_l t k)).
    - apply Z.mod_divide in H1; [|lia]. exfalso. apply H0.
      apply Z.mod_divide; [done|]. by apply (proj1 (Z.divide_abs_l t k)). }
  destruct (line_args_step n (Z.abs t) l k); simpl; [apply IH | done].
Qed.

(** X11. The lines [LiCSAlert_figure] draws.  For at least one time step
    and a [t_recalculate] other than zero, of absolute value t,
    [calcualte_line_args] returns the columns t - 1, 2 t - 1, ... below the
    last column, then the last column [n_ifgs - 1], which is always there:
    an increasing list, without repetition, of valid column indices of the
    matrices of lines. *)
Theorem calcualte_line_args_columns (n_ifgs t_recalc : Z) :
  t_recalc ≠ 0%Z → (1 ≤ n_ifgs)%Z →
  ∃ line_args,
    calcualte_line_args n_ifgs t_recalc = Some line_args
    ∧ line_args
      = ((λ i, ((i + 1) * Z.abs t_recalc - 1)%Z)
           <$> seqZ 0 ((n_ifgs - 1) / Z.abs t_recalc))
        ++ [(n_ifgs - 1)%Z]
    ∧ list.last line_args = Some (n_ifgs - 1)%Z
    ∧ Forall (λ x, (0 ≤ x < n_ifgs)%Z) line_args
    ∧ StronglySorted Z.lt line_args.
Proof.
  intros Ht Hn. assert (1 ≤ Z.abs t_recalc)%Z as Ha by lia.
  eexists. split.
  { unfold calcualte_line_args. rewrite line_args_loop_abs by done.
    by apply calcualte_line_args_closed. }
  split; [done|]. fold (line_ends (Z.abs t_recalc) n_ifgs).
  split; [by rewrite last_snoc|].
  split.
  - apply Forall_app. split; [|constructor; [lia | constructor]].
    apply Forall_forall. intros x Hx%line_ends_bound; lia.
  - apply StronglySorted_app_2; [| | repeat constructor].
    + intros x y Hx%line_ends_bound [->|[]%elem_of_nil]%elem_of_cons; lia.
    + unfold line_ends. apply StronglySorted_fmap with (R1 := Z.lt).
      * intros x y Hxy. nia.
      * apply StronglySorted_seqZ.
Qed.

Lemma calcualte_line_args_columns_witness :
  ∃ line_args,
    calcualte_line_args 10 4 = Some line_args
    ∧ line_args
      = ((λ i, ((i + 1) * Z.abs 4 - 1)%Z) <$> seqZ 0 ((10 - 1) / Z.abs 4))
        ++ [(10 - 1)%Z]
    ∧ list.last line_args = Some (10 - 1)%Z
    ∧ Forall (λ x, (0 ≤ x < 10)%Z) line_args
    ∧ StronglySorted Z.lt line_args.
Proof. apply (calcualte_line_args_columns 10 4); lia. Defined.

(** X12. The edges of [calcualte_line_args].  Without time steps (the range
    of the loop is empty) the result is the empty list, whatever
    [t_recalculate]; with at least one time step and a [t_recalculate] of
    zero the first modulo raises ZeroDivisionError. *)
Theorem calcualte_line_args_edges (n_ifgs t_recalc : Z) :
  ((n_ifgs ≤ 0)%Z → calcualte_line_args n_ifgs t_recalc = Some [])
  ∧ ((1 ≤ n_ifgs)%Z → calcualte_line_args n_ifgs 0 = None).
Proof.
  unfold calcualte_line_args. split; intros Hn.
  - unfold seqZ. by rewrite Z2Nat.nonpos by done.
  - by rewrite seqZ_cons by lia.
Qed.

Lemma calcualte_line_args_edges_witness :
  calcualte_line_args 0 4 = Some [] ∧ calcualte_line_args 10 0 = None.
Proof.
  split.
  - apply (proj1 (calcualte_line_args_edges 0 4)). lia.
  - apply (proj2 (calcualte_line_args_edges 10 4)). lia.
Defined.

(** ** The names of a daisy chain *)

(** X13. The names of a daisy chain.  [daisy_chain_from_acquisitions]
    raises nothing; it returns one name less than there are acquisitions
    (none for an empty list), and name i is acquisition i, an underscore,
    and acquisition i + 1: each name ends with the acquisition the next one
    starts with. *)
Theorem daisy_chain_names (acquisitions : list string) :
  ∃ names,
    daisy_chain_from_acquisitions acquisitions = Ok names
    ∧ length names = length acquisitions - 1
    ∧ ∀ i a b,
        acquisitions !! i = Some a → acquisitions !! (i + 1) = Some b →
        names !! i = Some (a +:+ "_" +:+ b).
Proof.
  unfold daisy_chain_from_acquisitions.
  set (g := λ i, default "" (acquisitions !! i) +:+ "_"
                 +:+ default "" (acquisitions !! (i + 1))).
  exists (g <$> seq 0 (length acquisitions - 1)). split_and!.
  - apply rmap_run. intros i [_ Hi]%elem_of_seq. unfold item, g.
    destruct (lookup_lt_is_Some_2 acquisitions i) as [a ->]; [lia|].
    destruct (lookup_lt_is_Some_2 acquisitions (i + 1)) as [b ->]; [lia|].
    done.
  - by rewrite length_fmap, length_seq.
  - intros i a b Ha Hb. rewrite list_lookup_fmap.
    apply lookup_lt_Some in Hb as Hlt.
    rewrite (proj2 (lookup_seq 0 _ i i)) by (split; [done | lia]).
    simpl. unfold g. by rewrite Ha, Hb.
Qed.

Lemma daisy_chain_names_witness :
  ∃ names,
    daisy_chain_from_acquisitions ["20200101"; "20200113"; "20200125"]
    = Ok names
    ∧ length names = length ["20200101"; "20200113"; "20200125"] - 1
    ∧ ∀ i a b,
        ["20200101"; "20200113"; "20200125"] !! i = Some a →
        ["20200101"; "20200113"; "20200125"] !! (i + 1) = Some b →
        names !! i = Some (a +:+ "_" +:+ b).
Proof.
  exact (daisy_chain_names ["20200101"; "20200113"; "20200125"]).
Defined.

(** ** Detecting new interferograms *)

Lemma sorted_Permutation names : sorted names ≡ₚ names.
Proof. apply merge_sort_Permutation. Qed.

Lemma elem_of_sorted x names : x ∈ sorted names ↔ x ∈ names.
Proof. by rewrite sorted_Permutation. Qed.

Lemma length_sorted names : length (sorted names) = length names.
Proof. by rewrite sorted_Permutation. Qed.

Lemma sorted_StronglySorted names : StronglySorted String.le (sorted names).
Proof. apply StronglySorted_merge_sort; apply _. Qed.

Lemma dir_names_NoDup scandir :
  NoDup (entry_name <$> scandir) → NoDup (dir_names scandir).
Proof.
  intros Hnd. eapply sublist_NoDup; [exact Hnd|].
  unfold dir_names. apply fmap_sublist, sublist_filter.
Qed.

(** More names than in a list: one of them is not in the list. *)
Lemma more_names_new (names pre : list string) :
  NoDup names → length pre < length names → ∃ x, x ∈ names ∧ x ∉ pre.
Proof.
  intros Hnd Hlen.
  destruct (decide (Forall (λ x, x ∈ pre) names)) as [Hall|Hex].
  - exfalso. assert (names ⊆+ pre) as Hsub.
    { apply NoDup_submseteq; [done|]. by apply Forall_forall. }
    apply submseteq_length in Hsub. lia.
  - apply not_Forall_Exists in Hex; [|apply _].
    apply Exists_exists in Hex as (x & Hx & Hnew). eauto.
Qed.

(** X14. What [detect_new_ifgs] reports, in normal mode.  The call gives
    the sorted names of the directories of the folder; every name it
    reports as new is the name of a directory that is not in the list of
    preexisting names, and the list of new names is sorted.  The flag is
    raised exactly when there are more directories than preexisting names;
    when it is not raised no name is reported, and when it is raised, in a
    folder whose entries have distinct names, at least one is. *)
Theorem detect_new_ifgs_reports (scandir : list dir_entry)
    (ifgs_preexisting : list string) :
  ∃ new_ifgs_flag ifgs_current ifgs_new,
    detect_new_ifgs scandir (Some false) (Some ifgs_preexisting)
    = Detected new_ifgs_flag ifgs_current ifgs_new
    ∧ ifgs_current ≡ₚ dir_names scandir
    ∧ StronglySorted String.le ifgs_current
    ∧ StronglySorted String.le ifgs_new
    ∧ (∀ x, x ∈ ifgs_new → x ∈ dir_names scandir ∧ x ∉ ifgs_preexisting)
    ∧ (new_ifgs_flag = true
       ↔ length ifgs_preexisting < length (dir_names scandir))
    ∧ (new_ifgs_flag = false → ifgs_new = [])
    ∧ (NoDup (entry_name <$> scandir) → new_ifgs_flag = true →
       ifgs_new ≠ []).
Proof.
  unfold detect_new_ifgs. fold (dir_names scandir).
  rewrite length_sorted.
  destruct (Nat.ltb_spec (length ifgs_preexisting) (length (dir_names scandir)))
    as [Hlt|Hge]; do 3 eexists; (split; [done|]).
  - split_and!; try done.
    + apply sorted_Permutation.
    + apply sorted_StronglySorted.
    + apply sorted_StronglySorted.
    + intros x Hx. apply (proj1 (elem_of_sorted _ _)) in Hx.
      apply list_elem_of_filter in Hx as [Hnew Hx].
      by apply (proj1 (elem_of_sorted _ _)) in Hx.
    + intros Hnd _ Hnil.
      destruct (more_names_new (dir_names scandir) ifgs_preexisting)
        as (x & Hx & Hnew); [by apply dir_names_NoDup | done |].
      assert (x ∈ @nil string) as Hin; [|by apply elem_of_nil in Hin].
      rewrite <- Hnil. apply (proj2 (elem_of_sorted _ _)).
      apply list_elem_of_filter.
      split; [done|]. by apply (proj2 (elem_of_sorted _ _)).
  - split_and!; try done.
    + apply sorted_Permutation.
    + apply sorted_StronglySorted.
    + constructor.
    + by intros x Hx%elem_of_nil.
    + split; [done | lia].
Qed.

(** X15. In a folder to which directories are only added, detection is
    exact.  When the entries of the folder have distinct names and the
    preexisting names are distinct names of directories of the folder, the
    names reported as new are exactly the names of the directories that are
    not preexisting, and the flag is raised exactly when there is one. *)
Theorem detect_new_ifgs_exact (scandir : list dir_entry)
    (ifgs_preexisting : list string) :
  NoDup (entry_name <$> scandir) →
  NoDup ifgs_preexisting →
  (∀ x, x ∈ ifgs_preexisting → x ∈ dir_names scandir) →
  ∃ new_ifgs_flag ifgs_current ifgs_new,
    detect_new_ifgs scandir (Some false) (Some ifgs_preexisting)
    = Detected new_ifgs_flag ifgs_current ifgs_new
    ∧ (∀ x, x ∈ ifgs_new ↔ x ∈ dir_names scandir ∧ x ∉ ifgs_preexisting)
    ∧ (new_ifgs_flag = true
       ↔ ∃ x, x ∈ dir_names scandir ∧ x ∉ ifgs_preexisting).
Proof.
  intros Hnd Hpre Hsub. apply dir_names_NoDup in Hnd.
  unfold detect_new_ifgs. fold (dir_names scandir).
  rewrite length_sorted.
  destruct (Nat.ltb_spec (length ifgs_preexisting) (length (dir_names scandir)))
    as [Hlt|Hge]; do 3 eexists; (split; [done|]).
  - split.
    + intros x. rewrite elem_of_sorted, list_elem_of_filter, elem_of_sorted.
      tauto.
    + split; [|done]. intros _. by apply more_names_new.
  - assert (∀ x, x ∈ dir_names scandir → x ∈ ifgs_preexisting) as Hall.
    { intros x Hx. destruct (decide (x ∈ ifgs_preexisting)) as [|Hnew]; [done|].
      exfalso. assert (x :: ifgs_preexisting ⊆+ dir_names scandir) as Hs.
      { apply NoDup_submseteq; [by constructor|].
        intros y [->|Hy]%elem_of_cons; auto. }
      apply submseteq_length in Hs. simpl in Hs. lia. }
    split.
    + intros x. split; [by intros Hx%elem_of_nil|].
      intros [Hx Hnew]. by apply Hall in Hx.
    + split; [done|]. intros (x & Hx & Hnew). by apply Hall in Hx.
Qed.

Lemma ex_scandir_NoDup : NoDup (entry_name <$> ex_scandir).
Proof. apply (bool_decide_unpack _). vm_compute. exact I. Qed.

Lemma detect_new_ifgs_exact_witness :
  ∃ new_ifgs_flag ifgs_current ifgs_new,
    detect_new_ifgs ex_scandir (Some false)
      (Some ["20200101_20200113"; "20200113_20200125"])
    = Detected new_ifgs_flag ifgs_current ifgs_new
    ∧ (∀ x, x ∈ ifgs_new
            ↔ x ∈ dir_names ex_scandir
              ∧ x ∉ ["20200101_20200113"; "20200113_20200125"])
    ∧ (new_ifgs_flag = true
       ↔ ∃ x, x ∈ dir_names ex_scandir
              ∧ x ∉ ["20200101_20200113"; "20200113_20200125"]).
Proof.
  apply (detect_new_ifgs_exact ex_scandir
           ["20200101_20200113"; "20200113_20200125"]).
  - exact ex_scandir_NoDup.
  - apply (bool_decide_unpack _). vm_compute. exact I.
  - apply Forall_forall. apply (bool_decide_unpack _). vm_compute. exact I.
Defined.

Lemma detect_new_ifgs_reports_witness :
  ∃ new_ifgs_flag ifgs_current ifgs_new,
    detect_new_ifgs ex_scandir (Some false) (Some ["20200101_20200113"])
    = Detected new_ifgs_flag ifgs_current ifgs_new
    ∧ ifgs_current ≡ₚ dir_names ex_scandir
    ∧ StronglySorted String.le ifgs_current
    ∧ StronglySorted String.le ifgs_new
    ∧ (∀ x, x ∈ ifgs_new
            → x ∈ dir_names ex_scandir ∧ x ∉ ["20200101_20200113"])
    ∧ (new_ifgs_flag = true
       ↔ length ["20200101_20200113"] < length (dir_names ex_scandir))
    ∧ (new_ifgs_flag = false → ifgs_new = [])
    ∧ (NoDup (entry_name <$> ex_scandir) → new_ifgs_flag = true →
       ifgs_new ≠ []).
Proof. exact (detect_new_ifgs_reports ex_scandir ["20200101_20200113"]). Defined.

(** ** Cropping in time *)

Section shorten_facts.
Context {F : Type}.
Implicit Types (a : array2 F) (d : gmap string (array2 F)).

Lemma shorten_key_lookup n_start n_end d key key' :
  shorten_key n_start n_end d key !! key'
  = if decide (key' = key) then slice_rows n_start n_end <$> d !! key'
    else d !! key'.
Proof.
  unfold shorten_key. destruct (decide (key' = key)) as [->|Hne].
  - destruct (d !! key) as [a|] eqn:Ha; [by rewrite lookup_insert_eq | by rewrite Ha].
  - destruct (d !! key) as [a|]; [by rewrite lookup_insert_ne | done].
Qed.

Lemma shorten_LiCSAlert_data_lookup d n_end n_start key :
  shorten_LiCSAlert_data d n_end n_start !! key
  = if decide (key = "incremental" ∨ key = "incremental_downsampled")
    then slice_rows n_start n_end <$> d !! key
    else d !! key.
Proof.
  unfold shorten_LiCSAlert_data. simpl. rewrite !shorten_key_lookup.
  destruct (decide (key = "incremental_downsampled")) as [->|H1].
  - rewrite decide_False by done. by rewrite decide_True by auto.
  - destruct (decide (key = "incremental")) as [->|H2].
    + by rewrite decide_True by auto.
    + rewrite decide_False; [done|]. by intros [|].
Qed.

Lemma slice_rows_crop n_start n_end a :
  wf_array2 a →
  (0 ≤ n_start ≤ n_end)%Z → (n_end ≤ Z.of_nat (shape0 a))%Z →
  wf_array2 (slice_rows n_start n_end a)
  ∧ shape0 (slice_rows n_start n_end a) = Z.to_nat (n_end - n_start)
  ∧ shape1 (slice_rows n_start n_end a) = shape1 a
  ∧ ∀ i j, i < Z.to_nat (n_end - n_start) →
      cell (slice_rows n_start n_end a) i j = cell a (Z.to_nat n_start + i) j.
Proof.
  intros [Hlen Hrows] Hse He. unfold slice_rows.
  rewrite !slice_index_nonneg by lia.
  replace (Z.to_nat n_end `min` shape0 a - Z.to_nat n_start `min` shape0 a)
    with (Z.to_nat (n_end - n_start)) by lia.
  replace (Z.to_nat n_start `min` shape0 a) with (Z.to_nat n_start) by lia.
  split_and!; simpl; try done.
  - split; simpl.
    + rewrite length_take, length_drop. lia.
    + by apply Forall_take, Forall_drop.
  - intros i j Hi. unfold cell. simpl.
    rewrite lookup_take_lt by done. by rewrite lookup_drop.
Qed.

Lemma slice_rows_all n_end a :
  wf_array2 a → (Z.of_nat (shape0 a) ≤ n_end)%Z → slice_rows 0 n_end a = a.
Proof.
  intros [Hlen _] He. unfold slice_rows. destruct a as [n p rs]; simpl in *.
  rewrite !slice_index_nonneg by lia.
  replace (Z.to_nat n_end `min` n - Z.to_nat 0 `min` n) with n by lia.
  replace (Z.to_nat 0 `min` n) with 0 by lia.
  by rewrite drop_0, <- Hlen, firstn_all.
Qed.

(** X16. What [shorten_LiCSAlert_data] crops.  The call raises nothing and
    returns a dictionary with the keys of the one it was given: a key other
    than "incremental" and "incremental_downsampled" keeps its array, a
    missing key stays missing, and the array under each of these two keys
    is replaced by its rows [n_start], ..., [n_end - 1] (for bounds within
    the array). *)
Theorem shorten_LiCSAlert_data_crops d (n_end n_start : Z) key :
  (is_Some (shorten_LiCSAlert_data d n_end n_start !! key) ↔ is_Some (d !! key))
  ∧ (key ≠ "incremental" → key ≠ "incremental_downsampled" →
     shorten_LiCSAlert_data d n_end n_start !! key = d !! key)
  ∧ (key = "incremental" ∨ key = "incremental_downsampled" →
     ∀ a, d !! key = Some a → wf_array2 a →
       (0 ≤ n_start ≤ n_end)%Z → (n_end ≤ Z.of_nat (shape0 a))%Z →
       ∃ a', shorten_LiCSAlert_data d n_end n_start !! key = Some a'
             ∧ wf_array2 a'
             ∧ shape0 a' = Z.to_nat (n_end - n_start)
             ∧ shape1 a' = shape1 a
             ∧ ∀ i j, i < Z.to_nat (n_end - n_start) →
                 cell a' i j = cell a (Z.to_nat n_start + i) j).
Proof.
  rewrite shorten_LiCSAlert_data_lookup. split_and!.
  - case_decide; [|done]. by rewrite fmap_is_Some.
  - intros H1 H2. rewrite decide_False; [done|]. by intros [|].
  - intros Hkey a Ha Hwf Hse He. rewrite decide_True by done.
    rewrite Ha. simpl. eexists. split; [done|].
    by apply slice_rows_crop.
Qed.

(** X17. Cropping to bounds that hold every interferogram changes nothing:
    with [n_start] zero and [n_end] at least the number of rows of the
    arrays under "incremental" and "incremental_downsampled" (those that
    are there), [shorten_LiCSAlert_data] returns the dictionary it was
    given. *)
Theorem shorten_LiCSAlert_data_all d (n_end : Z) :
  (∀ key a, key = "incremental" ∨ key = "incremental_downsampled" →
     d !! key = Some a →
     wf_array2 a ∧ (Z.of_nat (shape0 a) ≤ n_end)%Z) →
  shorten_LiCSAlert_data d n_end 0 = d.
Proof.
  intros Hall. apply map_eq. intros key.
  rewrite shorten_LiCSAlert_data_lookup. case_decide as Hkey; [|done].
  destruct (d !! key) as [a|] eqn:Ha; [|done]. simpl.
  destruct (Hall key a Hkey Ha) as [Hwf He].
  by rewrite slice_rows_all.
Qed.

End shorten_facts.

Lemma shorten_LiCSAlert_data_crops_witness :
  ∃ a', shorten_LiCSAlert_data ex_displacement_r2 3 1 !! "incremental"
        = Some a'
        ∧ wf_array2 a'
        ∧ shape0 a' = Z.to_nat (3 - 1)
        ∧ shape1 a' = 2
        ∧ ∀ i j, i < Z.to_nat (3 - 1) →
            cell a' i j
            = cell (Array2 3 2 [[1; 2]; [3; 4]; [5; 6]]%Z) (Z.to_nat 1 + i) j.
Proof.
  apply (proj2 (proj2 (shorten_LiCSAlert_data_crops ex_displacement_r2 3 1
                         "incremental"))
           (or_introl eq_refl) (Array2 3 2 [[1; 2]; [3; 4]; [5; 6]]%Z)).
  - reflexivity.
  - split; [reflexivity | repeat constructor].
  - lia.
  - simpl. lia.
Defined.

Lemma shorten_LiCSAlert_data_all_witness :
  shorten_LiCSAlert_data ex_displacement_r2 5 0 = ex_displacement_r2.
Proof.
  apply shorten_LiCSAlert_data_all. intros key a [-> | ->] Ha.
  - vm_compute in Ha. injection Ha as <-.
    split; [split; [reflexivity | repeat constructor] | simpl; lia].
  - vm_compute in Ha. discriminate.
Defined.

(** ** Flattening and reshaping *)

Section ravel.
Context {A : Type}.
Implicit Types (l : list A) (a : array2 A).

Lemma length_reshape_rows h w l : length (reshape_rows h w l) = h.
Proof. revert l. induction h as [|h IH]; intros l; simpl; [done|]. by rewrite IH. Qed.

Lemma concat_reshape_rows h w l :
  length l = h * w → concat (reshape_rows h w l) = l.
Proof.
  revert l. induction h as [|h IH]; intros l Hl; simpl in *.
  - by destruct l.
  - rewrite IH; [apply take_drop|]. rewrite length_drop. lia.
Qed.

Lemma wf_np_reshape2 h w l : length l = h * w → wf_array2 (np_reshape2 h w l).
Proof.
  intros Hl. split; simpl; [apply length_reshape_rows|].
  revert l Hl. induction h as [|h IH]; intros l Hl; simpl in *; [constructor|].
  constructor.
  - rewrite length_take. lia.
  - apply IH. rewrite length_drop. lia.
Qed.

Lemma np_ravel_reshape2 h w l :
  length l = h * w → np_ravel (np_reshape2 h w l) = l.
Proof. apply concat_reshape_rows. Qed.

Lemma length_np_ravel a :
  wf_array2 a → length (np_ravel a) = shape0 a * shape1 a.
Proof.
  destruct a as [h w rs]. intros [Hlen Hrows]; simpl in *. subst h.
  unfold np_ravel; simpl. induction Hrows as [|r rs Hr _ IH]; simpl; [done|].
  rewrite length_app, IH, Hr. lia.
Qed.

Lemma count_unmasked_cons (m : bool) ms :
  count_unmasked (m :: ms) = (if m then 0 else 1) + count_unmasked ms.
Proof. unfold count_unmasked. rewrite filter_cons. by destruct m. Qed.

Lemma length_compress_flat (mask : list bool) (data : list A) :
  length data = length mask →
  length (compress_flat mask data) = count_unmasked mask.
Proof.
  revert data. induction mask as [|m ms IH]; intros [|x xs] Hl;
    simpl in *; try done.
  rewrite count_unmasked_cons. destruct m; simpl; rewrite IH; lia.
Qed.

End ravel.

(** ** From a column to a masked array and back *)

Section masked_facts.
Context {F : Type} `{!Scalar F}.

Lemma length_fill_unmasked mask (vals : list F) :
  length (fill_unmasked mask vals) = length mask.
Proof.
  revert vals. induction mask as [|[] ms IH]; intros vals; simpl; [done|..].
  - by rewrite IH.
  - destruct vals; simpl; by rewrite IH.
Qed.

Lemma compress_fill_unmasked mask (vals : list F) :
  length vals = count_unmasked mask →
  compress_flat mask (fill_unmasked mask vals) = vals.
Proof.
  revert vals. induction mask as [|m ms IH]; intros vals Hl.
  - by destruct vals.
  - rewrite count_unmasked_cons in Hl. destruct m; simpl.
    + by apply IH.
    + destruct vals as [|v vs]; [done|]. simpl in *. rewrite IH; [done | lia].
Qed.

Lemma fill_compress_flat mask (data : list F) :
  length data = length mask →
  fill_unmasked mask (compress_flat mask data)
  = zip_with (λ (m : bool) x, if m then f0 else x) mask data.
Proof.
  revert data. induction mask as [|m ms IH]; intros [|x xs] Hl;
    simpl in *; try done.
  destruct m; simpl; rewrite IH; (done || lia).
Qed.

Lemma fill_unmasked_masked mask (vals : list F) k :
  mask !! k = Some true → fill_unmasked mask vals !! k = Some f0.
Proof.
  revert vals k. induction mask as [|m ms IH]; intros vals [|k] Hk;
    simpl in *; try done.
  - by injection Hk as ->.
  - destruct m; [by apply IH|]. destruct vals; simpl; by apply IH.
Qed.

(** X18. From a column to a masked image and back.  On a rectangular mask
    and a column with one value for each pixel that is not masked,
    [col_to_ma] returns a masked array with that mask and data of its
    shape, zero at the masked pixels, whose compressed values are the
    column; on a column of another length, other than one, it raises
    ValueError. *)
Theorem col_to_ma_compressed (col : list F) (pixel_mask : array2 bool) :
  wf_array2 pixel_mask →
  (length col = count_unmasked (np_ravel pixel_mask) →
   ∃ source,
     col_to_ma col pixel_mask = Ok source
     ∧ ma_mask source = pixel_mask
     ∧ wf_array2 (ma_data source)
     ∧ shape0 (ma_data source) = shape0 pixel_mask
     ∧ shape1 (ma_data source) = shape1 pixel_mask
     ∧ ma_compressed source = col
     ∧ ∀ k, np_ravel pixel_mask !! k = Some true →
         np_ravel (ma_data source) !! k = Some f0)
  ∧ (length col ≠ count_unmasked (np_ravel pixel_mask) → length col ≠ 1 →
     col_to_ma col pixel_mask = Raise ValueError).
Proof.
  intros Hwf. unfold col_to_ma. split.
  - intros Hl. rewrite decide_True by done. simpl.
    pose proof (length_np_ravel pixel_mask Hwf) as Hlen.
    assert (length (fill_unmasked (np_ravel pixel_mask) col)
            = shape0 pixel_mask * shape1 pixel_mask) as Hfill.
    { by rewrite length_fill_unmasked. }
    eexists. split; [done|]. simpl. split_and!; try done.
    + by apply wf_np_reshape2.
    + unfold ma_compressed. simpl. rewrite np_ravel_reshape2 by done.
      by apply compress_fill_unmasked.
    + intros k Hk. rewrite np_ravel_reshape2 by done.
      by apply fill_unmasked_masked.
  - intros Hl H1. rewrite decide_False by done.
    by destruct col as [|v [|??]].
Qed.

End masked_facts.

(** ** From a stack of masked images to rows and back *)

Lemma length_foldl_zip_add (masks : list (list bool)) n (acc : list nat) :
  length acc = n → Forall (λ m, length m = n) masks →
  length (foldl (zip_with Nat.add) acc
            ((λ mask : list bool, Nat.b2n <$> mask) <$> masks)) = n.
Proof.
  intros Hacc Hmasks. revert acc Hacc.
  induction Hmasks as [|m masks Hm _ IH]; intros acc Hacc; simpl; [done|].
  apply IH. rewrite length_zip_with, length_fmap. lia.
Qed.

Lemma foldl_zip_add_spec (masks : list (list bool)) n (acc : list nat) k :
  length acc = n → Forall (λ m, length m = n) masks → k < n →
  ∃ c, foldl (zip_with Nat.add) acc
         ((λ mask : list bool, Nat.b2n <$> mask) <$> masks) !! k = Some c
       ∧ (c = 0 ↔ acc !! k = Some 0
                  ∧ ∀ m, m ∈ masks → m !! k = Some false).
Proof.
  intros Hacc Hmasks Hk. revert acc Hacc.
  induction Hmasks as [|m masks Hm _ IH]; intros acc Hacc; simpl.
  - destruct (lookup_lt_is_Some_2 acc k) as [c Hc]; [lia|].
    exists c. split; [done|]. split.
    + intros ->. split; [done|]. by intros m Hm%elem_of_nil.
    + intros [Hc0 _]. congruence.
  - destruct (IH (zip_with Nat.add acc (Nat.b2n <$> m))) as (c & Hc & Hiff).
    { rewrite length_zip_with, length_fmap. lia. }
    exists c. split; [done|]. rewrite Hiff.
    destruct (lookup_lt_is_Some_2 acc k) as [a Ha]; [lia|].
    destruct (lookup_lt_is_Some_2 m k) as [b Hb]; [lia|].
    rewrite lookup_zip_with, Ha, list_lookup_fmap, Hb. simpl. split.
    + intros [[= Hab] Hall]. split; [f_equal; lia|].
      intros m' [->|Hm']%elem_of_cons; [|by apply Hall].
      rewrite Hb. f_equal. destruct b; simpl in *; [lia | done].
    + intros [[= ->] Hall]. split.
      * pose proof (Hall m ltac:(by left)) as Hmk.
        rewrite Hb in Hmk. by injection Hmk as ->.
      * intros m' Hm'. apply Hall. by right.
Qed.

(** A pixel has count zero exactly when no mask masks it. *)
Lemma mask_sum_spec n (masks : list (list bool)) :
  Forall (λ m, length m = n) masks →
  length (mask_sum n masks) = n
  ∧ ∀ k, k < n →
      ∃ c, mask_sum n masks !! k = Some c
           ∧ (c = 0 ↔ ∀ m, m ∈ masks → m !! k = Some false).
Proof.
  intros Hmasks. unfold mask_sum. split.
  - apply length_foldl_zip_add; [by rewrite length_replicate | done].
  - intros k Hk.
    destruct (foldl_zip_add_spec masks n (replicate n 0) k)
      as (c & Hc & Hiff); [by rewrite length_replicate | done | done |].
    exists c. split; [done|]. rewrite Hiff.
    rewrite lookup_replicate_2 by done. tauto.
Qed.

Lemma zip_with_orb_absorb (C m : list bool) :
  Forall2 (λ (c b : bool), b = true → c = true) C m → zip_with orb C m = C.
Proof.
  induction 1 as [|c b C m Hcb _ IH]; simpl; [done|].
  rewrite IH. f_equal. destruct c, b; auto. by discriminate Hcb.
Qed.

Section stack_facts.
Context {F : Type} `{!Scalar F}.

(** X19. From a stack of masked images to rows and back.  On a stack of
    at least one image, of images of one shape, [rank3_ma_to_rank2] (with
    [consistent_mask] unset) returns a mask of that shape that masks a
    pixel exactly when some image masks it, and an array with one row for
    each image and one column for each pixel the mask leaves; [col_to_ma]
    of row i and that mask is a masked image that holds, at every pixel
    the mask leaves, the value of image i.  On an empty stack the call
    raises IndexError, whatever [consistent_mask]. *)
Theorem rank3_ma_to_rank2_round_trip (ifgs_r3 : list (masked2 F)) (h w : nat) :
  (∀ consistent_mask,
     rank3_ma_to_rank2 (@nil (masked2 F)) consistent_mask = Raise IndexError)
  ∧ (ifgs_r3 ≠ [] → stack_of_shape h w ifgs_r3 →
     ∃ ifgs_r2 mask,
       rank3_ma_to_rank2 ifgs_r3 false = Ok (ifgs_r2, mask)
       ∧ wf_array2 mask ∧ shape0 mask = h ∧ shape1 mask = w
       ∧ (∀ k, k < h * w →
            (np_ravel mask !! k = Some false
             ↔ ∀ ifg, ifg ∈ ifgs_r3 →
                 np_ravel (ma_mask ifg) !! k = Some false))
       ∧ wf_array2 ifgs_r2
       ∧ shape0 ifgs_r2 = length ifgs_r3
       ∧ shape1 ifgs_r2 = count_unmasked (np_ravel mask)
       ∧ ∀ i ifg, ifgs_r3 !! i = Some ifg →
           ∃ row source,
             rows ifgs_r2 !! i = Some row
             ∧ col_to_ma row mask = Ok source
             ∧ ∀ k, np_ravel mask !! k = Some false →
                 np_ravel (ma_data source) !! k
                 = np_ravel (ma_data ifg) !! k).
Proof.
  split; [done|]. intros Hne Hshape.
  destruct ifgs_r3 as [|first rest] eqn:Hstack; [done|]. rewrite <- Hstack in *.
  assert (ifgs_r3 !! 0 = Some first) as Hfirst by (by rewrite Hstack).
  pose proof (Forall_lookup_1 _ _ _ _ Hshape Hfirst)
    as (_ & _ & Hh & Hw).
  set (masks := (λ ifg : masked2 F, np_ravel (ma_mask ifg)) <$> ifgs_r3).
  assert (Forall (λ m : list bool, length m = h * w) masks) as Hmasks.
  { apply Forall_fmap. eapply Forall_impl; [exact Hshape|]. simpl.
    intros ifg (_ & Hwf & <- & <-). by apply length_np_ravel. }
  destruct (mask_sum_spec (h * w) masks Hmasks) as [HlenS Hsum].
  set (C := (λ c, negb (c =? 0)) <$> mask_sum (h * w) masks).
  assert (length C = h * w) as HlenC by (by unfold C; rewrite length_fmap).
  assert (∀ k, k < h * w →
            (C !! k = Some false
             ↔ ∀ ifg, ifg ∈ ifgs_r3 →
                 np_ravel (ma_mask ifg) !! k = Some false)) as Hmask.
  { intros k Hk. destruct (Hsum k Hk) as (c & Hc & Hiff).
    unfold C. rewrite list_lookup_fmap, Hc. simpl. split.
    - intros [= H0]. apply negb_false_iff, Nat.eqb_eq in H0.
      intros ifg Hifg. apply (proj1 Hiff H0).
      unfold masks.
      by apply (list_elem_of_fmap_2 (λ ifg : masked2 F, np_ravel (ma_mask ifg))).
    - intros Hall. f_equal. apply negb_false_iff, Nat.eqb_eq, Hiff.
      intros m (ifg & -> & Hifg)%list_elem_of_fmap. by apply Hall. }
  assert (∀ ifg, ifg ∈ ifgs_r3 →
            length (np_ravel (ma_data ifg)) = h * w
            ∧ zip_with orb C (np_ravel (ma_mask ifg)) = C) as Himg.
  { intros ifg Hifg.
    pose proof (proj1 (Forall_forall _ _) Hshape ifg Hifg)
      as ((Hwfd & Hdh & Hdw) & Hwfm & Hmh & Hmw).
    split; [by rewrite length_np_ravel, Hdh, Hdw|].
    apply zip_with_orb_absorb, Forall2_same_length_lookup_2.
    { by rewrite HlenC, length_np_ravel, Hmh, Hmw. }
    intros k c b Hc Hb ->. destruct c; [done|]. exfalso.
    apply lookup_lt_Some in Hc as Hk. rewrite HlenC in Hk.
    pose proof (proj1 (Hmask k Hk) Hc ifg Hifg). congruence. }
  set (row := λ ifg : masked2 F, compress_flat C (np_ravel (ma_data ifg))).
  assert (∀ ifg, ifg ∈ ifgs_r3 → length (row ifg) = count_unmasked C) as Hrow.
  { intros ifg Hifg. apply length_compress_flat.
    rewrite HlenC. by apply Himg. }
  assert (rank3_ma_to_rank2 ifgs_r3 false
          = Ok (Array2 (length ifgs_r3) (count_unmasked C) (row <$> ifgs_r3),
                np_reshape2 h w C)) as Hrun.
  { unfold rank3_ma_to_rank2, item. rewrite Hfirst. simpl.
    rewrite Hh, Hw. fold masks. fold C.
    rewrite np_ravel_reshape2 by done.
    rewrite (list_fmap_ext _ (λ ifg, (C, np_ravel (ma_data ifg))) ifgs_r3).
    2:{ intros i ifg Hifg. f_equal.
        apply Himg. by eapply list_elem_of_lookup_2. }
    rewrite list_lookup_fmap, Hfirst. simpl.
    fold (row first). rewrite (Hrow first) by (by rewrite Hstack; left).
    rewrite (rmap_run _ (λ p : list bool * list F, compress_flat p.1 p.2)).
    - simpl. by rewrite <- list_fmap_compose.
    - intros p (ifg & -> & Hifg)%list_elem_of_fmap. simpl.
      fold (row ifg). by rewrite decide_True by (by apply Hrow). }
  exists (Array2 (length ifgs_r3) (count_unmasked C) (row <$> ifgs_r3)),
    (np_reshape2 h w C).
  split; [done|]. rewrite np_ravel_reshape2 by done.
  split_and!; try done.
  - by apply wf_np_reshape2.
  - split; simpl; [by rewrite length_fmap|].
    apply Forall_fmap, Forall_forall. intros ifg Hifg. by apply Hrow.
  - intros i ifg Hifg. simpl.
    assert (ifg ∈ ifgs_r3) as Hin by (by eapply list_elem_of_lookup_2).
    unfold col_to_ma. cbn [shape0 shape1 np_reshape2].
    change (Array2 h w (reshape_rows h w C)) with (np_reshape2 h w C).
    rewrite np_ravel_reshape2 by done.
    exists (row ifg). rewrite decide_True by (by apply Hrow).
    eexists. split; [by rewrite list_lookup_fmap, Hifg|].
    split; [done|]. intros k Hk. simpl.
    rewrite np_ravel_reshape2 by (by rewrite length_fill_unmasked).
    unfold row. rewrite fill_compress_flat
      by (rewrite HlenC; by apply Himg).
    rewrite lookup_zip_with, Hk. simpl.
    by destruct (np_ravel (ma_data ifg) !! k).
Qed.

End stack_facts.

Lemma ex_pixel_mask_wf : wf_array2 ex_pixel_mask.
Proof. split; [reflexivity | repeat constructor]. Qed.

Lemma col_to_ma_compressed_witness :
  ∃ source,
    col_to_ma (map xq_of_Z [1; 3; 4]%Z) ex_pixel_mask = Ok source
    ∧ ma_mask source = ex_pixel_mask
    ∧ wf_array2 (ma_data source)
    ∧ shape0 (ma_data source) = shape0 ex_pixel_mask
    ∧ shape1 (ma_data source) = shape1 ex_pixel_mask
    ∧ ma_compressed source = map xq_of_Z [1; 3; 4]%Z
    ∧ ∀ k, np_ravel ex_pixel_mask !! k = Some true →
        np_ravel (ma_data source) !! k = Some f0.
Proof.
  apply (proj1 (col_to_ma_compressed (map xq_of_Z [1; 3; 4]%Z) ex_pixel_mask
                  ex_pixel_mask_wf)).
  reflexivity.
Defined.

Lemma rank3_ma_to_rank2_round_trip_witness :
  ∃ ifgs_r2 mask,
    rank3_ma_to_rank2 ex_stack false = Ok (ifgs_r2, mask)
    ∧ wf_array2 mask ∧ shape0 mask = 2 ∧ shape1 mask = 2
    ∧ (∀ k, k < 2 * 2 →
         (np_ravel mask !! k = Some false
          ↔ ∀ ifg, ifg ∈ ex_stack →
              np_ravel (ma_mask ifg) !! k = Some false))
    ∧ wf_array2 ifgs_r2
    ∧ shape0 ifgs_r2 = length ex_stack
    ∧ shape1 ifgs_r2 = count_unmasked (np_ravel mask)
    ∧ ∀ i ifg, ex_stack !! i = Some ifg →
        ∃ row source,
          rows ifgs_r2 !! i = Some row
          ∧ col_to_ma row mask = Ok source
          ∧ ∀ k, np_ravel mask !! k = Some false →
              np_ravel (ma_data source) !! k = np_ravel (ma_data ifg) !! k.
Proof.
  apply (proj2 (rank3_ma_to_rank2_round_trip ex_stack 2 2)).
  - discriminate.
  - unfold stack_of_shape, ex_stack. repeat constructor.
Defined.
